(** * Gold-Liquid-Design: noise-driven deformation and layered shading

    A shallow embedding of the shader programs of the repository:
    - [src/main.js]: the 3D simplex noise, the "breathing" vertex deformer and
      the "reference match" fragment shader embedded as GLSL strings, the
      vignette and starfield shaders, and the loop of [createGeometry] that
      shapes the body;
    - [src/shaders/fragment.glsl]: the liquid-metal fragment shader and the
      4D simplex noise / fbm vertex deformer;
    - [src/unnamed/part_000]: the "glass 2.0" variant of the fragment shader.

    Numbers.  A GLSL [float] is modelled as a real number ([R]) and every
    arithmetic operation as the exact operation on reals; a decimal literal
    of the source is the rational it denotes.  Rounding, infinities and NaN
    are therefore outside the model.

    Undefined results.  [normalize] at the zero vector and the two-argument
    [atan] at (0, 0) have no defined result in GLSL; they return an [option]
    and the colour computed from an undefined value is undefined.  [pow] and
    the division are total functions; every statement below that depends on
    their value carries the conditions that keep their arguments where GLSL
    defines them (non-negative bases, positive exponents, positive
    denominators). *)

From Stdlib Require Import Reals Lra Lia ZArith.
From Stdlib Require List.

Open Scope R_scope.

(** ** GLSL built-ins on scalars *)

Module GLSL.

Definition floor (x : R) : R := IZR (Zfloor x).

Definition fract (x : R) : R := x - floor x.

(** [step(edge, x)]: 0.0 if [x < edge], 1.0 otherwise. *)
Definition step (edge x : R) : R := if Rlt_dec x edge then 0 else 1.

(** [float(lessThan(a, b))]: the boolean cast back to a float. *)
Definition lessThan (a b : R) : R := if Rlt_dec a b then 1 else 0.

Definition clamp (x lo hi : R) : R := Rmin (Rmax x lo) hi.

Definition mix (a b t : R) : R := a * (1 - t) + b * t.

(** The Hermite formula of the GLSL specification; the shaders also call it
    with [e0 > e1], where the same formula is evaluated. *)
Definition smoothstep (e0 e1 x : R) : R :=
  let t := clamp ((x - e0) / (e1 - e0)) 0 1 in
  t * t * (3 - 2 * t).

(** [pow(x, y)].  GLSL leaves it undefined for [x < 0] and for [x = 0] with
    [y <= 0]; for [x = 0], [y > 0] it is 0 and for [x > 0] it is [x^y].
    The model returns 0 for every [x <= 0]. *)
Definition pow (x y : R) : R := if Rle_dec x 0 then 0 else Rpower x y.

(** Two-argument [atan(y, x)]: the angle of the point [(x, y)]; undefined
    (here [None]) when [x] and [y] are both 0. *)
Definition atan2 (y x : R) : option R :=
  if Rlt_dec 0 x then Some (atan (y / x))
  else if Rlt_dec x 0 then
         Some (if Rle_dec 0 y then atan (y / x) + PI else atan (y / x) - PI)
       else if Rlt_dec 0 y then Some (PI / 2)
            else if Rlt_dec y 0 then Some (- (PI / 2)) else None.

End GLSL.
Export GLSL.

(** ** Vectors and matrices *)

Record vec3 : Type := mk3 { vx : R; vy : R; vz : R }.
Record vec4 : Type := mk4 { qx : R; qy : R; qz : R; qw : R }.

(** Column-major matrices, as in GLSL. *)
Record mat3 : Type := mkm3 { m3c0 : vec3; m3c1 : vec3; m3c2 : vec3 }.
Record mat4 : Type := mkm4 { m4c0 : vec4; m4c1 : vec4; m4c2 : vec4; m4c3 : vec4 }.

Module Vec.

Definition map3 (f : R -> R) (v : vec3) : vec3 :=
  mk3 (f (vx v)) (f (vy v)) (f (vz v)).
Definition zip3 (f : R -> R -> R) (a b : vec3) : vec3 :=
  mk3 (f (vx a) (vx b)) (f (vy a) (vy b)) (f (vz a) (vz b)).
Definition map4 (f : R -> R) (v : vec4) : vec4 :=
  mk4 (f (qx v)) (f (qy v)) (f (qz v)) (f (qw v)).
Definition zip4 (f : R -> R -> R) (a b : vec4) : vec4 :=
  mk4 (f (qx a) (qx b)) (f (qy a) (qy b)) (f (qz a) (qz b)) (f (qw a) (qw b)).

(** [vec3(s)], [vec4(s)] *)
Definition splat3 (s : R) : vec3 := mk3 s s s.
Definition splat4 (s : R) : vec4 := mk4 s s s s.

Definition add3 := zip3 Rplus.
Definition sub3 := zip3 Rminus.
Definition mul3 := zip3 Rmult.
Definition div3 := zip3 Rdiv.
Definition neg3 := map3 Ropp.
Definition scale3 (v : vec3) (s : R) : vec3 := map3 (fun c => c * s) v.
Definition adds3 (v : vec3) (s : R) : vec3 := map3 (fun c => c + s) v.
Definition subs3 (v : vec3) (s : R) : vec3 := map3 (fun c => c - s) v.

Definition add4 := zip4 Rplus.
Definition sub4 := zip4 Rminus.
Definition mul4 := zip4 Rmult.
Definition scale4 (v : vec4) (s : R) : vec4 := map4 (fun c => c * s) v.
Definition adds4 (v : vec4) (s : R) : vec4 := map4 (fun c => c + s) v.
Definition subs4 (v : vec4) (s : R) : vec4 := map4 (fun c => c - s) v.

Definition dot3 (a b : vec3) : R := vx a * vx b + vy a * vy b + vz a * vz b.
Definition dot4 (a b : vec4) : R :=
  qx a * qx b + qy a * qy b + qz a * qz b + qw a * qw b.

Definition length3 (v : vec3) : R := sqrt (dot3 v v).

(** [normalize(v) = v / length(v)]; undefined (here [None]) when the length
    is zero: the shaders contain no guard around any of their calls. *)
Definition normalize (v : vec3) : option vec3 :=
  if Req_dec_T (length3 v) 0 then None
  else Some (map3 (fun c => c / length3 v) v).

(** [reflect(I, N) = I - 2.0 * dot(N, I) * N] *)
Definition reflect (I N : vec3) : vec3 :=
  sub3 I (scale3 N (2 * dot3 N I)).

(** [m * v] for a [mat3] and a [mat4]. *)
Definition mulm3v (m : mat3) (v : vec3) : vec3 :=
  add3 (add3 (scale3 (m3c0 m) (vx v)) (scale3 (m3c1 m) (vy v)))
       (scale3 (m3c2 m) (vz v)).
Definition mulm4v (m : mat4) (v : vec4) : vec4 :=
  add4 (add4 (add4 (scale4 (m4c0 m) (qx v)) (scale4 (m4c1 m) (qy v)))
             (scale4 (m4c2 m) (qz v)))
       (scale4 (m4c3 m) (qw v)).

Definition xyz (v : vec4) : vec3 := mk3 (qx v) (qy v) (qz v).
Definition vec4_of (v : vec3) (w : R) : vec4 := mk4 (vx v) (vy v) (vz v) w.

End Vec.
Export Vec.

(** Undefined values propagate: every use of an undefined vector makes the
    value computed from it undefined. *)
Definition bind {A B : Type} (o : option A) (f : A -> option B) : option B :=
  match o with
  | Some a => f a
  | None => None
  end.

Notation "x <- e ;; k" := (bind e (fun x => k))
  (at level 61, e at next level, right associativity).

(** ** 3D simplex noise ([src/main.js], vertex shader string) *)

Module Simplex3.

Definition mod289v3 (x : vec3) : vec3 :=
  map3 (fun c => c - floor (c * (1 / 289)) * 289) x.
Definition mod289v4 (x : vec4) : vec4 :=
  map4 (fun c => c - floor (c * (1 / 289)) * 289) x.
Definition permutev4 (x : vec4) : vec4 :=
  mod289v4 (map4 (fun c => ((c * 34) + 10) * c) x).
Definition taylorInvSqrtv4 (r : vec4) : vec4 :=
  map4 (fun c => 1.79284291400159 - 0.85373472095314 * c) r.

(** The hashed lattice index of the four simplex corners: the three nested
    [permutev4] calls of [snoise]. *)
Definition corner_hash (i i1 i2 : vec3) : vec4 :=
  permutev4 (add4 (map4 (fun c => c + vx i)
    (permutev4 (add4 (map4 (fun c => c + vy i)
      (permutev4 (map4 (fun c => vz i + c) (mk4 0 (vz i1) (vz i2) 1))))
      (mk4 0 (vy i1) (vy i2) 1))))
    (mk4 0 (vx i1) (vx i2) 1)).

(** The four (unnormalised) gradients [p0..p3] computed from the hash. *)
Definition gradients (p : vec4) : vec3 * vec3 * vec3 * vec3 :=
  let D := mk4 0 0.5 1 2 in
  let n_ := 0.142857142857 in
  let ns := mk3 (n_ * qw D - qx D) (n_ * qy D - qz D) (n_ * qz D - qx D) in
  let j := map4 (fun c => c - 49 * floor (c * vz ns * vz ns)) p in
  let x_ := map4 (fun c => floor (c * vz ns)) j in
  let y_ := zip4 (fun c d => floor (c - 7 * d)) j x_ in
  let x := map4 (fun c => c * vx ns + vy ns) x_ in
  let y := map4 (fun c => c * vx ns + vy ns) y_ in
  let h := zip4 (fun c d => 1 - Rabs c - Rabs d) x y in
  let b0 := mk4 (qx x) (qy x) (qx y) (qy y) in
  let b1 := mk4 (qz x) (qw x) (qz y) (qw y) in
  let s0 := map4 (fun c => floor c * 2 + 1) b0 in
  let s1 := map4 (fun c => floor c * 2 + 1) b1 in
  let sh := map4 (fun c => - step c 0) h in
  let a0 := add4 (mk4 (qx b0) (qz b0) (qy b0) (qw b0))
                 (mul4 (mk4 (qx s0) (qz s0) (qy s0) (qw s0))
                       (mk4 (qx sh) (qx sh) (qy sh) (qy sh))) in
  let a1 := add4 (mk4 (qx b1) (qz b1) (qy b1) (qw b1))
                 (mul4 (mk4 (qx s1) (qz s1) (qy s1) (qw s1))
                       (mk4 (qz sh) (qz sh) (qw sh) (qw sh))) in
  (mk3 (qx a0) (qy a0) (qx h), mk3 (qz a0) (qw a0) (qy h),
   mk3 (qx a1) (qy a1) (qz h), mk3 (qz a1) (qw a1) (qw h)).

Definition snoise (v : vec3) : R :=
  let Cx := 1 / 6 in
  let Cy := 1 / 3 in
  let D := mk4 0 0.5 1 2 in
  let i := map3 floor (adds3 v (dot3 v (splat3 Cy))) in
  let x0 := adds3 (sub3 v i) (dot3 i (splat3 Cx)) in
  let g := zip3 step (mk3 (vy x0) (vz x0) (vx x0)) x0 in
  let l := map3 (fun c => 1 - c) g in
  let i1 := zip3 Rmin g (mk3 (vz l) (vx l) (vy l)) in
  let i2 := zip3 Rmax g (mk3 (vz l) (vx l) (vy l)) in
  let x1 := add3 (sub3 x0 i1) (splat3 Cx) in
  let x2 := add3 (sub3 x0 i2) (splat3 Cy) in
  let x3 := sub3 x0 (splat3 (qy D)) in
  let i := mod289v3 i in
  let p := corner_hash i i1 i2 in
  let '(p0, p1, p2, p3) := gradients p in
  let norm := taylorInvSqrtv4
                (mk4 (dot3 p0 p0) (dot3 p1 p1) (dot3 p2 p2) (dot3 p3 p3)) in
  let p0 := scale3 p0 (qx norm) in
  let p1 := scale3 p1 (qy norm) in
  let p2 := scale3 p2 (qz norm) in
  let p3 := scale3 p3 (qw norm) in
  let m := map4 (fun c => Rmax (0.6 - c) 0)
             (mk4 (dot3 x0 x0) (dot3 x1 x1) (dot3 x2 x2) (dot3 x3 x3)) in
  let m := mul4 m m in
  42 * dot4 (mul4 m m)
         (mk4 (dot3 p0 x0) (dot3 p1 x1) (dot3 p2 x2) (dot3 p3 x3)).

(** One gradient of [gradients], read off component by component. *)
Definition gradient (p : R) : vec3 :=
  let n_ := 0.142857142857 in
  let nsx := n_ * 2 - 0 in
  let nsy := n_ * 0.5 - 1 in
  let nsz := n_ * 1 - 0 in
  let j := p - 49 * floor (p * nsz * nsz) in
  let x_ := floor (j * nsz) in
  let y_ := floor (j - 7 * x_) in
  let x := x_ * nsx + nsy in
  let y := y_ * nsx + nsy in
  let h := 1 - Rabs x - Rabs y in
  let sh := - step h 0 in
  mk3 (x + (floor x * 2 + 1) * sh) (y + (floor y * 2 + 1) * sh) h.

(** The term one simplex corner contributes to the sum of [snoise]. *)
Definition corner (x g : vec3) : R :=
  let p := scale3 g (1.79284291400159 - 0.85373472095314 * dot3 g g) in
  let m := Rmax (0.6 - dot3 x x) 0 in
  let m := m * m in
  (m * m) * dot3 p x.

End Simplex3.

(** ** 4D simplex noise and fbm ([src/shaders/fragment.glsl], vertex shader) *)

Module Simplex4.

Definition mod289 (x : R) : R := x - floor (x * (1 / 289)) * 289.
Definition mod289v (x : vec4) : vec4 := map4 mod289 x.
Definition permute (x : R) : R := mod289 (((x * 34) + 10) * x).
Definition permutev (x : vec4) : vec4 := mod289v (map4 (fun c => ((c * 34) + 10) * c) x).
Definition taylorInvSqrt (r : R) : R := 1.79284291400159 - 0.85373472095314 * r.
Definition taylorInvSqrtv (r : vec4) : vec4 := map4 taylorInvSqrt r.

Definition grad4 (j : R) (ip : vec4) : vec4 :=
  let ones := mk4 1 1 1 (-1) in
  let pxyz := subs3 (scale3 (map3 floor
                (scale3 (map3 fract (mul3 (splat3 j) (xyz ip))) 7)) (qz ip)) 1 in
  let pw := 1.5 - dot3 (map3 Rabs pxyz) (xyz ones) in
  let s := map4 (fun c => lessThan c 0) (vec4_of pxyz pw) in
  let pxyz := add3 pxyz (scale3 (subs3 (scale3 (xyz s) 2) 1) (qw s)) in
  vec4_of pxyz pw.

Definition F4 : R := 0.309016994374947451.

(** [C = (G4, 2 G4, 3 G4, -1 + 4 G4)] as written in the source. *)
Definition C : vec4 :=
  mk4 0.138196601125011 0.276393202250021 0.414589803375032 (-0.447213595499958).

(** The rank vector [i0] of the components of [x0]. *)
Definition rank (x0 : vec4) : vec4 :=
  let isX := mk3 (step (qy x0) (qx x0)) (step (qz x0) (qx x0)) (step (qw x0) (qx x0)) in
  let isYZ := mk3 (step (qz x0) (qy x0)) (step (qw x0) (qy x0)) (step (qw x0) (qz x0)) in
  mk4 (vx isX + vy isX + vz isX)
      ((1 - vx isX) + (vx isYZ + vy isYZ))
      (((1 - vy isX) + (1 - vx isYZ)) + vz isYZ)
      (((1 - vz isX) + (1 - vy isYZ)) + (1 - vz isYZ)).

(** [j0] and [j1]: the hashed indices of the five simplex corners. *)
Definition hash0 (i : vec4) : R :=
  permute (permute (permute (permute (qw i) + qz i) + qy i) + qx i).
Definition hash1 (i i1 i2 i3 : vec4) : vec4 :=
  permutev (add4 (map4 (fun c => c + qx i)
    (permutev (add4 (map4 (fun c => c + qy i)
      (permutev (add4 (map4 (fun c => c + qz i)
        (permutev (map4 (fun c => qw i + c) (mk4 (qw i1) (qw i2) (qw i3) 1))))
        (mk4 (qz i1) (qz i2) (qz i3) 1))))
      (mk4 (qy i1) (qy i2) (qy i3) 1))))
    (mk4 (qx i1) (qx i2) (qx i3) 1)).

Definition snoise (v : vec4) : R :=
  let i := map4 floor (adds4 v (dot4 v (splat4 F4))) in
  let x0 := adds4 (sub4 v i) (dot4 i (splat4 (qx C))) in
  let i0 := rank x0 in
  let i3 := map4 (fun c => clamp c 0 1) i0 in
  let i2 := map4 (fun c => clamp (c - 1) 0 1) i0 in
  let i1 := map4 (fun c => clamp (c - 2) 0 1) i0 in
  let x1 := add4 (sub4 x0 i1) (splat4 (qx C)) in
  let x2 := add4 (sub4 x0 i2) (splat4 (qy C)) in
  let x3 := add4 (sub4 x0 i3) (splat4 (qz C)) in
  let x4 := add4 x0 (splat4 (qw C)) in
  let i := mod289v i in
  let j0 := hash0 i in
  let j1 := hash1 i i1 i2 i3 in
  let ip := mk4 (1 / 294) (1 / 49) (1 / 7) 0 in
  let p0 := grad4 j0 ip in
  let p1 := grad4 (qx j1) ip in
  let p2 := grad4 (qy j1) ip in
  let p3 := grad4 (qz j1) ip in
  let p4 := grad4 (qw j1) ip in
  let norm := taylorInvSqrtv
                (mk4 (dot4 p0 p0) (dot4 p1 p1) (dot4 p2 p2) (dot4 p3 p3)) in
  let p0 := scale4 p0 (qx norm) in
  let p1 := scale4 p1 (qy norm) in
  let p2 := scale4 p2 (qz norm) in
  let p3 := scale4 p3 (qw norm) in
  let p4 := scale4 p4 (taylorInvSqrt (dot4 p4 p4)) in
  let m0 := map3 (fun c => Rmax (0.6 - c) 0)
              (mk3 (dot4 x0 x0) (dot4 x1 x1) (dot4 x2 x2)) in
  let m1x := Rmax (0.6 - dot4 x3 x3) 0 in
  let m1y := Rmax (0.6 - dot4 x4 x4) 0 in
  let m0 := mul3 m0 m0 in
  let m1x := m1x * m1x in
  let m1y := m1y * m1y in
  49 * (dot3 (mul3 m0 m0) (mk3 (dot4 p0 x0) (dot4 p1 x1) (dot4 p2 x2))
        + ((m1x * m1x) * dot4 p3 x3 + (m1y * m1y) * dot4 p4 x4)).

(** The term one simplex corner contributes to the sum of [snoise]: the
    fourth power of [max(0.6 - dot(x,x), 0)] times the dot product of the
    rescaled gradient and the offset. *)
Definition corner (x g : vec4) : R :=
  let p := scale4 g (taylorInvSqrt (dot4 g g)) in
  let m := Rmax (0.6 - dot4 x x) 0 in
  let m := m * m in
  (m * m) * dot4 p x.

(** The constant [ip] of [snoise]. *)
Definition ip : vec4 := mk4 (1 / 294) (1 / 49) (1 / 7) 0.

(** *** Fractal Brownian motion *)

Record fbm_state : Type := mkFbm {
  value : R; amplitude : R; frequency : R; maxValue : R }.

Definition fbm_body (p : vec4) (st : fbm_state) : fbm_state :=
  mkFbm (value st + amplitude st * snoise (scale4 p (frequency st)))
        (amplitude st * 0.5)
        (frequency st * 2)
        (maxValue st + amplitude st).

(** [for (int i = 0; i < 4; i++) { if (i >= octaves) break; ... }]:
    [n] is the number of iterations the loop bound still allows. *)
Fixpoint fbm_loop (n : nat) (i octaves : Z) (p : vec4) (st : fbm_state) : fbm_state :=
  match n with
  | O => st
  | S n' => if (i >=? octaves)%Z then st
            else fbm_loop n' (i + 1)%Z octaves p (fbm_body p st)
  end.

Definition fbm (p : vec4) (octaves : Z) : R :=
  let st := fbm_loop 4 0%Z octaves p (mkFbm 0 0.5 1 0) in
  value st / maxValue st.

End Simplex4.

(** ** Vertex deformers *)

(** The matrices three.js supplies to every vertex shader. *)
Record Transforms : Type := mkTransforms {
  normalMatrix : mat3;
  modelMatrix : mat4;
  modelViewMatrix : mat4;
  projectionMatrix : mat4 }.

(** A mesh vertex: the [position] and [normal] attributes. *)
Record Vertex : Type := mkVertex { position : vec3; normal : vec3 }.

(** *** [src/shaders/fragment.glsl]: "Liquid Hero Deformation" (4D noise) *)

Module VertexGL.
Import Simplex4.

Record Uniforms : Type := mkUniforms {
  u_time : R; u_noiseScale : R; u_amplitude : R; u_viscosity : R }.

Record Out : Type := mkOut {
  v_displacement : R;
  v_normal : option vec3;
  v_position : option vec3;
  v_worldPosition : option vec3;
  gl_Position : option vec4 }.

Definition slowTime (u : Uniforms) : R := u_time u * u_viscosity u.

Definition verticalBias (pos : vec3) : R :=
  clamp (1 - (vy pos * 0.3 + 0.5)) 0.6 1.2.

Definition horizontalScale (pos : vec3) : R := 1 + (1 - Rabs (vy pos)) * 0.15.

Definition noiseInput (u : Uniforms) (pos : vec3) : vec4 :=
  mk4 (vx pos * u_noiseScale u * horizontalScale pos)
      (vy pos * u_noiseScale u * 0.7)
      (vz pos * u_noiseScale u * horizontalScale pos)
      (slowTime u).

Definition primaryNoise (u : Uniforms) (pos : vec3) : R :=
  fbm (noiseInput u pos) 3.

Definition detailInput (u : Uniforms) (pos : vec3) : vec4 :=
  vec4_of (scale3 (scale3 pos (u_noiseScale u)) 2.5) (slowTime u * 1.3).

Definition detailNoise (u : Uniforms) (pos : vec3) : R :=
  snoise (detailInput u pos) * 0.15.

Definition displacement (u : Uniforms) (pos : vec3) : R :=
  (primaryNoise u pos + detailNoise u pos) * u_amplitude u * verticalBias pos.

(** [pos + norm * displacement] *)
Definition newPosition (u : Uniforms) (vtx : Vertex) : option vec3 :=
  norm <- normalize (normal vtx) ;;
  Some (add3 (position vtx) (scale3 norm (displacement u (position vtx)))).

Definition main (t : Transforms) (u : Uniforms) (vtx : Vertex) : Out :=
  let np := newPosition u vtx in
  let clip := p <- np ;;
              Some (mulm4v (projectionMatrix t)
                      (mulm4v (modelViewMatrix t) (vec4_of p 1))) in
  mkOut (displacement u (position vtx))
        (norm <- normalize (normal vtx) ;; normalize (mulm3v (normalMatrix t) norm))
        np
        (p <- np ;; Some (xyz (mulm4v (modelMatrix t) (vec4_of p 1))))
        clip.

End VertexGL.

(** *** [src/main.js]: "Smooth Normals + Breathing" (3D noise and sines)

    The vertex shader string of [src/unnamed/part_000] is the same text. *)

Module VertexJS.
Import Simplex3.

Record Uniforms : Type := mkUniforms { u_time : R; u_amplitude : R }.

Record Out : Type := mkOut {
  v_normal : option vec3;
  v_smoothNormal : option vec3;
  v_localPosition : vec3;
  v_worldPosition : option vec3;
  gl_Position : option vec4 }.

Definition slowTime (u : Uniforms) : R := u_time u * 0.08.

Definition breathe (u : Uniforms) : R := sin (slowTime u * 12) * 0.08.
Definition pulse (u : Uniforms) (pos : vec3) : R :=
  sin (slowTime u * 10 + vy pos * 2.5) * 0.05.
Definition sway (u : Uniforms) (pos : vec3) : R :=
  sin (slowTime u * 7 + vx pos * 2) * 0.035.

Definition noise1 (u : Uniforms) (pos : vec3) : R :=
  snoise (adds3 (scale3 pos 0.8) (slowTime u * 0.7)) * 0.12.
Definition noise2 (u : Uniforms) (pos : vec3) : R :=
  snoise (adds3 (scale3 pos 1.5) (slowTime u * 0.5)) * 0.06.

Definition vertBias (pos : vec3) : R := (vy pos + 1) * 0.4 + 0.5.

Definition displacement (u : Uniforms) (pos : vec3) : R :=
  (breathe u + pulse u pos + sway u pos + noise1 u pos + noise2 u pos)
  * u_amplitude u * vertBias pos.

Definition newPosition (u : Uniforms) (vtx : Vertex) : option vec3 :=
  norm <- normalize (normal vtx) ;;
  Some (add3 (position vtx) (scale3 norm (displacement u (position vtx)))).

Definition main (t : Transforms) (u : Uniforms) (vtx : Vertex) : Out :=
  let np := newPosition u vtx in
  let n := norm <- normalize (normal vtx) ;;
           normalize (mulm3v (normalMatrix t) norm) in
  mkOut n n (position vtx)
        (p <- np ;; Some (xyz (mulm4v (modelMatrix t) (vec4_of p 1))))
        (p <- np ;; Some (mulm4v (projectionMatrix t)
                            (mulm4v (modelViewMatrix t) (vec4_of p 1)))).

End VertexJS.

(** ** Fragment shaders *)

Definition mix3 (a b : vec3) (t : R) : vec3 := zip3 (fun c d => mix c d t) a b.
Definition pow3 (c e : vec3) : vec3 := zip3 pow c e.

(** *** [src/shaders/fragment.glsl]: "Liquid Metal Material" *)

Module FragmentGL.

Record Uniforms : Type := mkUniforms {
  u_cameraPosition : vec3;
  u_keyLightPos : vec3;
  u_rimLightPos : vec3;
  u_keyLightColor : vec3;
  u_rimLightColor : vec3;
  u_keyLightIntensity : R;
  u_rimLightIntensity : R;
  u_fresnelPower : R;
  u_fresnelBias : R;
  u_absorption : R;
  u_time : R }.

Record Varyings : Type := mkVaryings {
  v_normal : vec3;
  v_position : vec3;
  v_worldPosition : vec3;
  v_displacement : R }.

Definition fresnel (viewDir normal : vec3) (power bias : R) : R :=
  let NdotV := Rmax (dot3 normal viewDir) 0 in
  let fresnel := bias + (1 - bias) * pow (1 - NdotV) power in
  clamp fresnel 0 1.

Definition specular (lightDir viewDir normal : vec3) (roughness : R) : option R :=
  halfDir <- normalize (add3 lightDir viewDir) ;;
  let NdotH := Rmax (dot3 normal halfDir) 0 in
  Some (pow NdotH (1 / (roughness * roughness + 0.001))).

Definition environmentGradient (reflectDir : vec3) : vec3 :=
  let y := vy reflectDir * 0.5 + 0.5 in
  let bottomColor := mk3 0.02 0.02 0.03 in
  let midColor := mk3 0.04 0.045 0.06 in
  let topColor := mk3 0.06 0.065 0.09 in
  let env := mix3 bottomColor midColor (smoothstep 0 0.5 y) in
  let env := mix3 env topColor (smoothstep 0.5 1 y) in
  let highlightZone :=
    smoothstep 0.6 0.9 y * smoothstep 0.3 0 (Rabs (vx reflectDir - 0.3)) in
  add3 env (scale3 (scale3 (mk3 0.08 0.07 0.05) highlightZone) 0.5).

Definition coreColor : vec3 := mk3 0.015 0.018 0.025.

Definition absorbedColor (u : Uniforms) (v : Varyings) : vec3 :=
  let depth := 1 - Rabs (v_displacement v) * 2 in
  let depth := clamp depth 0 1 in
  scale3 coreColor (1 - depth * u_absorption u * 0.5).

Definition edgeColor (normal : vec3) : vec3 :=
  let edgeColor := mk3 0.12 0.13 0.16 in
  let goldTint := scale3 (mk3 0.15 0.12 0.08) 0.3 in
  let blueTint := scale3 (mk3 0.08 0.10 0.14) 0.2 in
  let angleMix := dot3 normal (mk3 0 1 0) * 0.5 + 0.5 in
  mix3 (add3 edgeColor blueTint) (add3 edgeColor goldTint) angleMix.

Definition keyContribution (u : Uniforms) (normal viewDir keyLightDir : vec3)
  : option vec3 :=
  let keyDiffuse := Rmax (dot3 normal keyLightDir) 0 in
  let keyDiffuse := pow keyDiffuse 1.5 in
  keySpec <- specular keyLightDir viewDir normal 0.15 ;;
  let keySpec := pow keySpec 2 * 0.8 in
  Some (scale3 (scale3 (u_keyLightColor u) (u_keyLightIntensity u))
               (keyDiffuse * 0.15 + keySpec)).

Definition rimMask (normal viewDir : vec3) : R :=
  let rimMask := 1 - Rmax (dot3 viewDir normal) 0 in
  pow rimMask 3.

Definition rimContribution (u : Uniforms) (normal viewDir rimLightDir : vec3) : vec3 :=
  let rimDiffuse := Rmax (dot3 normal rimLightDir) 0 in
  scale3 (scale3 (scale3 (scale3 (u_rimLightColor u) (u_rimLightIntensity u))
                         rimDiffuse) (rimMask normal viewDir)) 0.4.

Definition surfaceFactor (v : Varyings) : R :=
  let surfaceVar := v_displacement v * 0.5 + 0.5 in
  0.95 + surfaceVar * 0.1.

(** The colour accumulated by "COMPOSITE" and "SUBTLE SURFACE VARIATION",
    given the normalised vectors and the two light terms. *)
Definition assemble (u : Uniforms) (v : Varyings) (normal viewDir : vec3)
    (key rim : vec3) : vec3 :=
  let reflectDir := reflect (neg3 viewDir) normal in
  let fresnelTerm := fresnel viewDir normal (u_fresnelPower u) (u_fresnelBias u) in
  let envColor := environmentGradient reflectDir in
  let finalColor := absorbedColor u v in
  let finalColor := add3 finalColor (scale3 (scale3 envColor fresnelTerm) 0.6) in
  let finalColor :=
    add3 finalColor
         (scale3 (scale3 (scale3 (edgeColor normal) fresnelTerm) fresnelTerm) 0.4) in
  let finalColor := add3 finalColor key in
  let finalColor := add3 finalColor rim in
  scale3 finalColor (surfaceFactor v).

(** [finalColor] as it reaches "TONE MAPPING & OUTPUT". *)
Definition composite (u : Uniforms) (v : Varyings) : option vec3 :=
  normal <- normalize (v_normal v) ;;
  viewDir <- normalize (sub3 (u_cameraPosition u) (v_worldPosition v)) ;;
  keyLightDir <- normalize (sub3 (u_keyLightPos u) (v_worldPosition v)) ;;
  key <- keyContribution u normal viewDir keyLightDir ;;
  rimLightDir <- normalize (sub3 (u_rimLightPos u) (v_worldPosition v)) ;;
  Some (assemble u v normal viewDir key
          (rimContribution u normal viewDir rimLightDir)).

(** Reinhard, then the contrast exponent. *)
Definition toneMap (finalColor : vec3) : vec3 :=
  let finalColor := div3 finalColor (add3 finalColor (splat3 1)) in
  pow3 finalColor (splat3 1.05).

(** [gl_FragColor.rgb]; the alpha channel is the constant 1.0. *)
Definition main (u : Uniforms) (v : Varyings) : option vec3 :=
  finalColor <- composite u v ;;
  Some (toneMap finalColor).

End FragmentGL.

(** *** The fragment shaders embedded in [src/main.js] and [src/unnamed/part_000]

    Both files declare the same uniforms, varyings and helper functions
    ([D_GGX], [F_Schlick], [sampleEnv]); only the body of [main] differs. *)

Module ShadingJS.

Record Uniforms : Type := mkUniforms { u_cameraPosition : vec3; u_time : R }.

Record Varyings : Type := mkVaryings {
  v_normal : vec3;
  v_worldPosition : vec3;
  v_localPosition : vec3;
  v_smoothNormal : vec3 }.

(** [const float PI = 3.14159265359;] *)
Definition PI : R := 3.14159265359.

(** [s * v] with the scalar on the left. *)
Definition smul3 (s : R) (v : vec3) : vec3 := map3 (fun c => s * c) v.

Definition D_GGX (NdotH roughness : R) : R :=
  let a := roughness * roughness in
  let a2 := a * a in
  let d := (NdotH * NdotH) * (a2 - 1) + 1 in
  a2 / (PI * d * d + 0.0001).

Definition F_Schlick (VdotH : R) (F0 : vec3) : vec3 :=
  add3 F0 (scale3 (map3 (fun c => 1 - c) F0) (pow (Rmax (1 - VdotH) 0) 5)).

Definition sampleEnv (R_ : vec3) : option vec3 :=
  let y := vy R_ * 0.5 + 0.5 in
  angle <- atan2 (vz R_) (vx R_) ;;
  let x := angle / (2 * PI) + 0.5 in
  let env := mk3 0.015 0.015 0.025 in
  let topZone := smoothstep 0.45 0.92 y in
  let env := add3 env (scale3 (mk3 0.6 0.45 0.18) topZone) in
  let leftWarm := smoothstep 0.5 0.08 x * smoothstep 0 0.5 y in
  let env := add3 env (scale3 (scale3 (mk3 0.6 0.35 0.1) leftWarm) 0.8) in
  let rightBlue := smoothstep 0.5 0.95 x * smoothstep 0.1 0.6 y in
  let env := add3 env (scale3 (scale3 (mk3 0.12 0.25 0.65) rightBlue) 0.6) in
  let topHL := smoothstep 0.72 0.99 y in
  Some (add3 env (scale3 (scale3 (mk3 1 0.94 0.8) topHL) 0.9)).

(** A specular lobe [D * F * NdotL * tint * k] for the fixed light [Ldir]. *)
Definition lobe (N V Ldir : vec3) (roughness : R) (F0 tint : vec3) (k : R)
  : option vec3 :=
  L <- normalize Ldir ;;
  H <- normalize (add3 V L) ;;
  let NdotH := Rmax (dot3 N H) 0 in
  let NdotL := Rmax (dot3 N L) 0 in
  let VdotH := Rmax (dot3 V H) 0 in
  let D := D_GGX NdotH roughness in
  let F := F_Schlick VdotH F0 in
  Some (scale3 (mul3 (scale3 (smul3 D F) NdotL) tint) k).

End ShadingJS.

(** *** [src/main.js]: "Reference Match" *)

Module FragmentJS.
Export ShadingJS.

Definition internalColor (NdotV yPos : R) : vec3 :=
  let navyZone := smoothstep 0.6 (-0.5) yPos in
  let navyColor := mk3 0.02 0.06 0.18 in
  let goldColor := mk3 0.25 0.16 0.05 in
  let internalColor := mix3 goldColor navyColor navyZone in
  let depthFade := pow NdotV 0.8 in
  let deepShadow := mk3 0.01 0.02 0.05 in
  mix3 deepShadow internalColor (0.5 + depthFade * 0.5).

Definition envReflection (edgeFactor : R) (R_ : vec3) : option vec3 :=
  let glassFresnel := pow edgeFactor 2 in
  envColor <- sampleEnv R_ ;;
  Some (scale3 (scale3 envColor glassFresnel) 1.2).

Definition rimColor (edgeFactor yPos : R) : vec3 :=
  let rimBand := pow edgeFactor 8 in
  let topMask := smoothstep (-0.2) 0.35 yPos in
  scale3 (scale3 (scale3 (mk3 1 0.96 0.88) rimBand) topMask) 2.5.

Definition leftHeight (yPos : R) : R := smoothstep (-0.6) 0.5 yPos.

Definition leftGlow (edgeFactor xPos yPos : R) : vec3 :=
  let leftEdge := smoothstep 0.3 (-0.7) xPos in
  let leftFresnel := pow edgeFactor 1.8 in
  let leftIntensity := leftEdge * leftHeight yPos * leftFresnel in
  scale3 (scale3 (mk3 1 0.65 0.25) leftIntensity) 1.8.

Definition leftWarm (edgeFactor xPos yPos : R) : vec3 :=
  let leftSoft := smoothstep 0.5 (-0.9) xPos * leftHeight yPos in
  scale3 (scale3 (scale3 (mk3 0.6 0.35 0.1) leftSoft) (pow edgeFactor 2.5)) 0.8.

Definition rightGlow (edgeFactor xPos yPos : R) : vec3 :=
  let rightEdge := smoothstep (-0.1) 0.7 xPos in
  let rightMid := smoothstep (-0.3) 0.4 yPos * (1 - smoothstep 0.5 0.9 yPos) in
  let rightFresnel := pow edgeFactor 2.2 in
  let rightIntensity := rightEdge * rightMid * rightFresnel in
  scale3 (scale3 (mk3 0.15 0.35 0.7) rightIntensity) 1.

Definition spec1 (N V : vec3) : option vec3 :=
  lobe N V (mk3 (-0.55) 0.8 0.35) 0.025 (mk3 1 0.92 0.75) (mk3 1 0.95 0.85) 1.2.

(** The secondary highlight has no Fresnel factor: [D2 * NdotL2 * tint * 0.25]. *)
Definition spec2 (N V : vec3) : option vec3 :=
  L2 <- normalize (mk3 0.5 0.5 0.5) ;;
  H2 <- normalize (add3 V L2) ;;
  let NdotH2 := Rmax (dot3 N H2) 0 in
  let NdotL2 := Rmax (dot3 N L2) 0 in
  let D2 := D_GGX NdotH2 0.05 in
  Some (scale3 (smul3 (D2 * NdotL2) (mk3 0.9 0.85 0.7)) 0.25).

Definition edgeHighlight (edgeFactor : R) : vec3 :=
  let edgeDefine := pow edgeFactor 3.5 in
  scale3 (scale3 (mk3 0.6 0.5 0.32) edgeDefine) 0.35.

(** [finalColor] as it reaches "TONE MAPPING". *)
Definition composite (u : Uniforms) (v : Varyings) : option vec3 :=
  N <- normalize (v_smoothNormal v) ;;
  V <- normalize (sub3 (u_cameraPosition u) (v_worldPosition v)) ;;
  let R_ := reflect (neg3 V) N in
  let NdotV := Rmax (dot3 N V) 0 in
  let edgeFactor := 1 - NdotV in
  let yPos := vy (v_localPosition v) in
  let xPos := vx (v_localPosition v) in
  env <- envReflection edgeFactor R_ ;;
  s1 <- spec1 N V ;;
  s2 <- spec2 N V ;;
  let finalColor := scale3 (internalColor NdotV yPos) 0.35 in
  let finalColor := add3 finalColor env in
  let finalColor := add3 finalColor (rimColor edgeFactor yPos) in
  let finalColor := add3 finalColor (leftGlow edgeFactor xPos yPos) in
  let finalColor := add3 finalColor (leftWarm edgeFactor xPos yPos) in
  let finalColor := add3 finalColor (rightGlow edgeFactor xPos yPos) in
  let finalColor := add3 finalColor s1 in
  let finalColor := add3 finalColor s2 in
  Some (add3 finalColor (edgeHighlight edgeFactor)).

(** The filmic curve, clamped, then the per-channel exponent. *)
Definition toneMap (finalColor : vec3) : vec3 :=
  let a := 2.4 in let b := 0.025 in let c := 2.2 in
  let d := 0.58 in let e := 0.13 in
  let finalColor :=
    map3 (fun x => clamp ((x * (a * x + b)) / (x * (c * x + d) + e)) 0 1)
         finalColor in
  pow3 finalColor (mk3 0.9 0.95 1).

Definition main (u : Uniforms) (v : Varyings) : option vec3 :=
  finalColor <- composite u v ;;
  Some (toneMap finalColor).

End FragmentJS.

(** *** [src/unnamed/part_000]: "Glass 2.0" *)

Module FragmentGlass.
Export ShadingJS.

Definition glassCore (NdotV yPos : R) : vec3 :=
  let depthZone := smoothstep 0.5 (-0.6) yPos in
  let deepBlue := mk3 0.015 0.04 0.12 in
  let warmAmber := mk3 0.15 0.09 0.025 in
  let glassCore := mix3 warmAmber deepBlue depthZone in
  let glassDepth := pow NdotV 1.2 in
  scale3 glassCore (0.4 + glassDepth * 0.6).

Definition reflection (fresnel : R) (R_ : vec3) : option vec3 :=
  let fresnelPow := pow fresnel 2.2 in
  env <- sampleEnv R_ ;;
  Some (scale3 (scale3 env fresnelPow) 0.85).

Definition rimLight (fresnel yPos : R) : vec3 :=
  let rim := pow fresnel 10 in
  let rimMask := smoothstep (-0.15) 0.4 yPos in
  scale3 (scale3 (scale3 (mk3 1 0.97 0.9) rim) rimMask) 1.8.

Definition leftLight (fresnel xPos yPos : R) : vec3 :=
  let leftF := smoothstep 0.2 (-0.65) xPos in
  let leftH := smoothstep (-0.5) 0.45 yPos in
  let leftInt := leftF * leftH * pow fresnel 2 in
  scale3 (scale3 (mk3 0.9 0.55 0.18) leftInt) 1.4.

Definition rightLight (fresnel xPos yPos : R) : vec3 :=
  let rightF := smoothstep (-0.05) 0.6 xPos in
  let rightH := smoothstep (-0.2) 0.35 yPos * (1 - smoothstep 0.5 0.85 yPos) in
  let rightInt := rightF * rightH * pow fresnel 2.5 in
  scale3 (scale3 (mk3 0.12 0.28 0.55) rightInt) 0.8.

Definition spec (N V : vec3) : option vec3 :=
  lobe N V (mk3 (-0.5) 0.75 0.4) 0.018 (mk3 0.95 0.88 0.7) (mk3 1 0.96 0.88) 0.9.

Definition edgeColor (fresnel : R) : vec3 :=
  let edge := pow fresnel 4 in
  scale3 (scale3 (mk3 0.5 0.4 0.25) edge) 0.3.

(** [color] as it reaches "Tone mapping (filmic)". *)
Definition composite (u : Uniforms) (v : Varyings) : option vec3 :=
  N <- normalize (v_smoothNormal v) ;;
  V <- normalize (sub3 (u_cameraPosition u) (v_worldPosition v)) ;;
  let R_ := reflect (neg3 V) N in
  let NdotV := Rmax (dot3 N V) 0 in
  let fresnel := 1 - NdotV in
  let yPos := vy (v_localPosition v) in
  let xPos := vx (v_localPosition v) in
  refl <- reflection fresnel R_ ;;
  s <- spec N V ;;
  let color := scale3 (glassCore NdotV yPos) 0.25 in
  let color := add3 color refl in
  let color := add3 color (rimLight fresnel yPos) in
  let color := add3 color (leftLight fresnel xPos yPos) in
  let color := add3 color (rightLight fresnel xPos yPos) in
  let color := add3 color s in
  Some (add3 color (edgeColor fresnel)).

Definition toneMap (color : vec3) : vec3 :=
  let color := map3 (fun c => c / (c + 0.5)) color in
  pow3 color (mk3 0.92 0.95 1).

Definition main (u : Uniforms) (v : Varyings) : option vec3 :=
  color <- composite u v ;;
  Some (toneMap color).

End FragmentGlass.

(** ** Vocabulary of the statements *)

Definition zero3 : vec3 := mk3 0 0 0.
Definition zero4 : vec4 := mk4 0 0 0 0.

(** Every channel of a colour is non-negative. *)
Definition nonneg3 (c : vec3) : Prop := 0 <= vx c /\ 0 <= vy c /\ 0 <= vz c.

(** Every channel of a colour lies in [[0,1]]. *)
Definition displayable (c : vec3) : Prop :=
  0 <= vx c <= 1 /\ 0 <= vy c <= 1 /\ 0 <= vz c <= 1.

Definition unit3 (v : vec3) : Prop := dot3 v v = 1.

(** A property of a value that may be undefined: it holds of the value
    whenever there is one. *)
Definition when_defined {A : Type} (P : A -> Prop) (o : option A) : Prop :=
  match o with
  | Some a => P a
  | None => True
  end.

Definition defined {A : Type} (o : option A) : Prop := exists a, o = Some a.

(** ** Concrete inputs used in the scenarios *)

Definition identity4 : mat4 :=
  mkm4 (mk4 1 0 0 0) (mk4 0 1 0 0) (mk4 0 0 1 0) (mk4 0 0 0 1).
Definition identity3 : mat3 := mkm3 (mk3 1 0 0) (mk3 0 1 0) (mk3 0 0 1).
Definition noTransform : Transforms :=
  mkTransforms identity3 identity4 identity4 identity4.

(** The top pole at rest: position (0,1,0), normal (0,1,0). *)
Definition topPole : Vertex := mkVertex (mk3 0 1 0) (mk3 0 1 0).

(** A fragment seen head-on from a camera on the z axis: normal (0,0,1),
    surface point at the origin, camera at (0,0,5). *)
Definition headOnGL (bias absorption disp : R) (keyI rimI : R)
  : FragmentGL.Uniforms * FragmentGL.Varyings :=
  (FragmentGL.mkUniforms (mk3 0 0 5) (mk3 0 3 0) (mk3 0 0 2)
     (mk3 1 1 1) (mk3 1 1 1) keyI rimI 3 bias absorption 0,
   FragmentGL.mkVaryings (mk3 0 0 1) (mk3 0 0 0) (mk3 0 0 0) disp).




(** The configurations for which the liquid-metal shader is meant: an
    absorption factor of at most 2, light colours that stay non-negative
    when scaled by their intensity, a displacement of at least -20 (so that
    the surface-variation factor is non-negative) and a positive Fresnel
    power. *)
Definition plausibleGL (u : FragmentGL.Uniforms) (v : FragmentGL.Varyings) : Prop :=
  FragmentGL.u_absorption u <= 2 /\
  nonneg3 (scale3 (FragmentGL.u_keyLightColor u) (FragmentGL.u_keyLightIntensity u)) /\
  nonneg3 (scale3 (FragmentGL.u_rimLightColor u) (FragmentGL.u_rimLightIntensity u)) /\
  -20 <= FragmentGL.v_displacement v /\
  0 < FragmentGL.u_fresnelPower u.


(** The same head-on fragment for the shaders of the JavaScript files; the
    local position is a point of the upper left part of the body. *)
Definition headOnJS : ShadingJS.Uniforms * ShadingJS.Varyings :=
  (ShadingJS.mkUniforms (mk3 0 0 5) 0,
   ShadingJS.mkVaryings (mk3 0 0 1) (mk3 0 0 0) (mk3 (-0.2) 0.3 1) (mk3 0 0 1)).



(** ** Screen-space shaders and mesh construction ([src/main.js])

    The vignette pass, the starfield background and the loop of
    [createGeometry] that turns the sphere into the egg-shaped body.
    [src/unnamed/part_000] contains the same text for all three. *)

(** Two-component vectors. *)
Record vec2 : Type := mk2 { ux : R; uy : R }.

Module Vec2.

Definition map2 (f : R -> R) (v : vec2) : vec2 := mk2 (f (ux v)) (f (uy v)).
Definition zip2 (f : R -> R -> R) (a b : vec2) : vec2 :=
  mk2 (f (ux a) (ux b)) (f (uy a) (uy b)).

Definition splat2 (s : R) : vec2 := mk2 s s.
Definition add2 := zip2 Rplus.
Definition sub2 := zip2 Rminus.
Definition mul2 := zip2 Rmult.
Definition scale2 (v : vec2) (s : R) : vec2 := map2 (fun c => c * s) v.
Definition adds2 (v : vec2) (s : R) : vec2 := map2 (fun c => c + s) v.
Definition subs2 (v : vec2) (s : R) : vec2 := map2 (fun c => c - s) v.

Definition dot2 (a b : vec2) : R := ux a * ux b + uy a * uy b.
Definition length2 (v : vec2) : R := sqrt (dot2 v v).
Definition distance2 (a b : vec2) : R := length2 (sub2 a b).

End Vec2.
Export Vec2.

(** *** [VignetteShader] *)

Module Vignette.

(** [tDiffuse] is the texture the pass reads: a colour for every
    coordinate. *)
Record Uniforms : Type := mkUniforms {
  tDiffuse : vec2 -> vec4; offset : R; darkness : R }.

(** The factor [vignette] the fragment shader multiplies the colour by. *)
Definition vignette (u : Uniforms) (vUv : vec2) : R :=
  let uv := scale2 (sub2 vUv (splat2 0.5)) 2 in
  let dist := length2 uv in
  let vignette := smoothstep (offset u + 0.5) (offset u - 0.3) dist in
  mix (1 - darkness u * 0.3) 1 vignette.

(** [gl_FragColor] *)
Definition main (u : Uniforms) (vUv : vec2) : vec4 :=
  let texel := tDiffuse u vUv in
  vec4_of (scale3 (xyz texel) (vignette u vUv)) (qw texel).

(** The uniforms as [VignetteShader.uniforms] initialises them. *)
Definition configured (texture : vec2 -> vec4) : Uniforms :=
  mkUniforms texture 0.85 1.1.

End Vignette.

(** *** [StarfieldShader] *)

(** [for (int i = lo; i <= hi; i++) acc = body(i, acc)], the first argument
    counting the iterations that remain. *)
Fixpoint for_loop (n : nat) (i : Z) (body : Z -> R -> R) (acc : R) : R :=
  match n with
  | O => acc
  | S k => for_loop k (i + 1)%Z body (body i acc)
  end.

Definition for_range (lo hi : Z) (body : Z -> R -> R) (acc : R) : R :=
  for_loop (Z.to_nat (hi - lo + 1)) lo body acc.

Module Starfield.

Record Uniforms : Type := mkUniforms { u_time : R; u_resolution : vec2 }.

Definition hash (p : vec2) : R :=
  let p := map2 fract (mul2 p (mk2 234.34 435.345)) in
  let p := adds2 p (dot2 p (adds2 p 34.23)) in
  fract (ux p * uy p).

(** The body of the two nested loops of [stars] for the neighbour cell
    [(x, y)]: the new value of [star]. *)
Definition cell (gv id : vec2) (time baseIntensity : R) (x y : Z) (star : R) : R :=
  let offset := mk2 (IZR x) (IZR y) in
  let cellId := add2 id offset in
  let n := hash cellId in
  if Rlt_dec 0.93 n then
    let starPos := subs2 (mk2 n (hash (adds2 cellId 1))) 0.5 in
    let diff := sub2 (sub2 gv offset) starPos in
    let d := length2 diff in
    let twinkleSpeed := 0.08 + hash (scale2 cellId 2) * 0.2 in
    let twinklePhase := hash (scale2 cellId 3) * 6.28 in
    let twinkle := sin (time * twinkleSpeed + twinklePhase) * 0.5 + 0.5 in
    let twinkle := 0.75 + twinkle * 0.25 in
    let brightness := hash (scale2 cellId 4) * 0.4 + 0.3 in
    let starGlow := baseIntensity * brightness * twinkle / (d * 20 + 0.12) in
    let starGlow := pow starGlow 1.5 in
    star + starGlow
  else star.

Definition stars (uv : vec2) (scale time baseIntensity : R) : R :=
  let gv := subs2 (map2 fract (scale2 uv scale)) 0.5 in
  let id := map2 floor (scale2 uv scale) in
  for_range (-1) 1
    (fun y star =>
       for_range (-1) 1 (fun x star => cell gv id time baseIntensity x y star) star)
    0.

Definition sunDist (vUv : vec2) : R := distance2 vUv (mk2 0.7 (-0.2)).

(** [sunGlow] after its second assignment. *)
Definition sunGlow (vUv : vec2) : R :=
  let sunGlow := 1 / (sunDist vUv * 1.8 + 0.4) in
  pow sunGlow 1.6 * 0.35.

(** [color] as it reaches "STARS": sky gradient, sunlight and atmosphere. *)
Definition atmosphere (vUv : vec2) : vec3 :=
  let skyTop := mk3 0.035 0.03 0.06 in
  let skyMid := mk3 0.015 0.015 0.035 in
  let skyBottom := mk3 0.008 0.008 0.018 in
  let color := mix3 skyBottom skyMid (smoothstep 0 0.5 (uy vUv)) in
  let color := mix3 color skyTop (smoothstep 0.5 1 (uy vUv)) in
  let sunColorInner := mk3 0.45 0.28 0.08 in
  let sunColorOuter := mk3 0.25 0.12 0.04 in
  let sunLight :=
    mix3 sunColorOuter sunColorInner (smoothstep 1.2 0.3 (sunDist vUv)) in
  let color := add3 color (scale3 sunLight (sunGlow vUv)) in
  let ambientWarmth := 1 / (sunDist vUv * 0.9 + 0.8) in
  let ambientWarmth := pow ambientWarmth 1.2 * 0.12 in
  let color := add3 color (scale3 (mk3 0.18 0.08 0.02) ambientWarmth) in
  let topLeft := (1 - ux vUv) * uy vUv in
  let purpleAtmosphere := mk3 0.06 0.035 0.10 in
  let color := mix3 color purpleAtmosphere (topLeft * 0.45) in
  let upperAtmosphere := smoothstep 0.4 0.9 (uy vUv) * (1 - ux vUv * 0.5) in
  add3 color (scale3 (scale3 (mk3 0.02 0.025 0.055) upperAtmosphere) 0.5).

(** [gl_FragColor.rgb]; the alpha channel is the constant 1.0. *)
Definition main (u : Uniforms) (vUv : vec2) : vec3 :=
  let uv := vUv in
  let aspect := mk2 (ux (u_resolution u) / uy (u_resolution u)) 1 in
  let uv := mul2 uv aspect in
  let color := atmosphere vUv in
  let starLayer1 := stars uv 28 (u_time u) 0.4 in
  let starLayer2 := stars (adds2 uv 100) 45 (u_time u * 0.75) 0.2 in
  let starDim := 1 - smoothstep 0.5 1.5 (sunGlow vUv * 3) in
  let color :=
    add3 color
         (scale3 (scale3 (scale3 (mk3 0.9 0.88 0.82) starLayer1) 0.4) starDim) in
  add3 color (scale3 (scale3 (scale3 (mk3 0.82 0.85 0.9) starLayer2) 0.3) starDim).

End Starfield.

(** *** [createGeometry]: the loop "Transform to egg shape"

    [positions] is the flat typed array of the position attribute, three
    numbers per vertex.  An element past the end of the array reads as
    [undefined] and a write past the end is ignored; arithmetic on
    [undefined] gives NaN.  The loop has no result in the model when it
    stores such a value into the array. *)

Module CreateGeometry.
Import List ListNotations.

(** [positions[i]] *)
Definition get (positions : list R) (i : nat) : option R := nth_error positions i.

(** [positions[i] = v] *)
Fixpoint put (positions : list R) (i : nat) (v : R) : list R :=
  match positions, i with
  | [], _ => []
  | _ :: rest, O => v :: rest
  | x :: rest, S k => x :: put rest k v
  end.

(** [positions[i] *= c]: past the end nothing is stored. *)
Definition scale (positions : list R) (i : nat) (c : R) : list R :=
  match get positions i with
  | Some x => put positions i (x * c)
  | None => positions
  end.

(** One iteration of the loop, at an index [i] below the length.  Without
    [positions[i + 1]] the height [y] is undefined and [positions[i]]
    receives NaN. *)
Definition body (i : nat) (positions : list R) : option (list R) :=
  y <- get positions (i + 1) ;;
  let positions := put positions (i + 1) (y * 1.5) in
  let taper := 1 - (y + 1) * 0.08 in
  let positions := scale positions i taper in
  let positions := scale positions (i + 2) taper in
  let bulge := 1 + (1 - Rabs y) * 0.06 in
  let positions := scale positions i bulge in
  Some (scale positions (i + 2) bulge).

(** [for (let i = 0; i < positions.length; i += 3) ...]; [fuel] bounds the
    number of iterations. *)
Fixpoint loop (fuel i : nat) (positions : list R) : option (list R) :=
  if (i <? length positions)%nat then
    match fuel with
    | O => None
    | S k => p <- body i positions ;; loop k (i + 3) p
    end
  else Some positions.

Definition transform (positions : list R) : option (list R) :=
  loop (length positions) 0 positions.

(** The array of a list of vertices. *)
Definition flatten (vertices : list vec3) : list R :=
  flat_map (fun v => [vx v; vy v; vz v]) vertices.

End CreateGeometry.

(** What the egg loop does to one vertex. *)
Definition eggVertex (v : vec3) : vec3 :=
  mk3 (vx v * (1 - (vy v + 1) * 0.08) * (1 + (1 - Rabs (vy v)) * 0.06))
      (vy v * 1.5)
      (vz v * (1 - (vy v + 1) * 0.08) * (1 + (1 - Rabs (vy v)) * 0.06)).

(** Channel by channel, a colour is at most another one. *)
Definition le3 (a b : vec3) : Prop :=
  vx a <= vx b /\ vy a <= vy b /\ vz a <= vz b.


(** A texture of one colour, for the scenarios of the vignette pass. *)
Definition flatTexture : vec2 -> vec4 := fun _ => mk4 0.2 0.4 0.6 1.

(** * Properties *)

(** ** Facts about the built-ins *)

Section Builtins.

Lemma floor_bound (x : R) : floor x <= x < floor x + 1.
Proof. unfold floor. apply Zfloor_bound. Qed.


Lemma floor_eq (n : Z) (x : R) : IZR n <= x < IZR n + 1 -> floor x = IZR n.
Proof. intros H. unfold floor. now rewrite (Zfloor_eq n x H). Qed.

Lemma fract_range (x : R) : 0 <= fract x < 1.
Proof. unfold fract. pose proof (floor_bound x). lra. Qed.

Lemma step_01 (e x : R) : step e x = 0 \/ step e x = 1.
Proof. unfold step. destruct (Rlt_dec x e); auto. Qed.

Lemma step_lt (e x : R) : x < e -> step e x = 0.
Proof. intros H. unfold step. destruct (Rlt_dec x e); [reflexivity | contradiction]. Qed.


Lemma lessThan_lt (a b : R) : a < b -> lessThan a b = 1.
Proof. intros H. unfold lessThan. destruct (Rlt_dec a b); [reflexivity | contradiction]. Qed.

Lemma lessThan_ge (a b : R) : b <= a -> lessThan a b = 0.
Proof. intros H. unfold lessThan. destruct (Rlt_dec a b); [lra | reflexivity]. Qed.

Lemma Rmax_0_nonneg (x : R) : 0 <= Rmax x 0.
Proof. apply Rmax_r. Qed.

Lemma clamp_range (x lo hi : R) : lo <= hi -> lo <= clamp x lo hi <= hi.
Proof.
  intros H. unfold clamp, Rmin, Rmax.
  destruct (Rle_dec x lo); destruct (Rle_dec _ hi); lra.
Qed.

Lemma clamp_id (x lo hi : R) : lo <= x <= hi -> clamp x lo hi = x.
Proof.
  intros H. unfold clamp, Rmin, Rmax.
  destruct (Rle_dec x lo); destruct (Rle_dec _ hi); lra.
Qed.

Lemma clamp_low (x lo hi : R) : x <= lo -> lo <= hi -> clamp x lo hi = lo.
Proof.
  intros H1 H2. unfold clamp, Rmin, Rmax.
  destruct (Rle_dec x lo); destruct (Rle_dec _ hi); lra.
Qed.

Lemma clamp_high (x lo hi : R) : hi <= x -> lo <= hi -> clamp x lo hi = hi.
Proof.
  intros H1 H2. unfold clamp, Rmin, Rmax.
  destruct (Rle_dec x lo); destruct (Rle_dec _ hi); lra.
Qed.

Lemma smoothstep_range (e0 e1 x : R) : 0 <= smoothstep e0 e1 x <= 1.
Proof.
  unfold smoothstep.
  pose proof (clamp_range ((x - e0) / (e1 - e0)) 0 1 ltac:(lra)) as H.
  cbv zeta. set (t := clamp _ 0 1) in *. split.
  - apply Rmult_le_pos; [nra | lra].
  - assert (0 <= (1 - t) * (1 - t) * (1 + 2 * t)) by (apply Rmult_le_pos; nra).
    lra.
Qed.

Lemma mix_between (a b t : R) :
  0 <= t <= 1 -> Rmin a b <= mix a b t <= Rmax a b.
Proof.
  intros H. unfold mix, Rmin, Rmax. destruct (Rle_dec a b); split; nra.
Qed.

Lemma mix_nonneg (a b t : R) : 0 <= a -> 0 <= b -> 0 <= t <= 1 -> 0 <= mix a b t.
Proof. intros Ha Hb Ht. unfold mix. nra. Qed.

(** *** [pow] *)

Lemma pow_nonneg (x y : R) : 0 <= pow x y.
Proof.
  unfold pow. destruct (Rle_dec x 0); [lra |].
  unfold Rpower. left. apply exp_pos.
Qed.

Lemma pow_0 (y : R) : pow 0 y = 0.
Proof. unfold pow. destruct (Rle_dec 0 0); [reflexivity | lra]. Qed.

Lemma pow_1 (y : R) : pow 1 y = 1.
Proof.
  unfold pow. destruct (Rle_dec 1 0); [lra |].
  unfold Rpower. rewrite ln_1, Rmult_0_r. apply exp_0.
Qed.

Lemma pow_le_1 (x y : R) : x <= 1 -> 0 <= y -> pow x y <= 1.
Proof.
  intros Hx Hy. unfold pow. destruct (Rle_dec x 0); [lra |].
  unfold Rpower. rewrite <- exp_0.
  assert (Hln : ln x <= 0).
  { rewrite <- ln_1. destruct (Req_dec x 1) as [-> | Hne]; [lra |].
    left. apply ln_increasing; lra. }
  destruct (Req_dec (y * ln x) 0) as [-> | Hne]; [lra |].
  left. apply exp_increasing. nra.
Qed.

Lemma pow_gt_1 (x y : R) : 1 < x -> 0 < y -> 1 < pow x y.
Proof.
  intros Hx Hy. unfold pow. destruct (Rle_dec x 0); [lra |].
  unfold Rpower. rewrite <- exp_0. apply exp_increasing.
  assert (0 < ln x) by (rewrite <- ln_1; apply ln_increasing; lra).
  nra.
Qed.

Lemma pow_unit_range (x y : R) : 0 <= x <= 1 -> 0 <= y -> 0 <= pow x y <= 1.
Proof. intros Hx Hy. split; [apply pow_nonneg | apply pow_le_1; lra]. Qed.

Lemma Rmax_cases (a b : R) : (a <= b /\ Rmax a b = b) \/ (b <= a /\ Rmax a b = a).
Proof. unfold Rmax. destruct (Rle_dec a b); [left | right]; split; lra. Qed.

Lemma Rmin_cases (a b : R) : (a <= b /\ Rmin a b = a) \/ (b <= a /\ Rmin a b = b).
Proof. unfold Rmin. destruct (Rle_dec a b); [left | right]; split; lra. Qed.

Lemma Rabs_cases (a : R) : (0 <= a /\ Rabs a = a) \/ (a <= 0 /\ Rabs a = - a).
Proof.
  unfold Rabs. destruct (Rcase_abs a); [right | left]; split; lra.
Qed.

Lemma step_cases (e x : R) : (x < e /\ step e x = 0) \/ (e <= x /\ step e x = 1).
Proof. unfold step. destruct (Rlt_dec x e); [left | right]; split; lra. Qed.

Lemma lessThan_cases (a b : R) :
  (a < b /\ lessThan a b = 1) \/ (b <= a /\ lessThan a b = 0).
Proof. unfold lessThan. destruct (Rlt_dec a b); [left | right]; split; lra. Qed.

End Builtins.

(** Case analysis on every [clamp], [Rmin], [Rmax], [Rabs], [step] and
    [lessThan] of the goal and the hypotheses. *)
Ltac minmax_case lem :=
  let Heq := fresh "Heq" in
  destruct lem as [[? Heq] | [? Heq]]; rewrite Heq in *; clear Heq.

Ltac minmax_split :=
  repeat match goal with
         | |- context [clamp _ _ _] => unfold clamp
         | H : context [clamp _ _ _] |- _ => unfold clamp in H
         | |- context [Rmax ?a ?b] => minmax_case (Rmax_cases a b)
         | H : context [Rmax ?a ?b] |- _ => minmax_case (Rmax_cases a b)
         | |- context [Rmin ?a ?b] => minmax_case (Rmin_cases a b)
         | H : context [Rmin ?a ?b] |- _ => minmax_case (Rmin_cases a b)
         | |- context [Rabs ?a] => minmax_case (Rabs_cases a)
         | H : context [Rabs ?a] |- _ => minmax_case (Rabs_cases a)
         | |- context [step ?a ?b] => minmax_case (step_cases a b)
         | H : context [step ?a ?b] |- _ => minmax_case (step_cases a b)
         | |- context [lessThan ?a ?b] => minmax_case (lessThan_cases a b)
         | H : context [lessThan ?a ?b] |- _ => minmax_case (lessThan_cases a b)
         end.

Ltac minmax_solve := minmax_split; lra.

(** Rewrites the components of concrete vectors. *)
Ltac vec_cbn :=
  cbn [vx vy vz qx qy qz qw map3 map4 zip3 zip4 add3 sub3 mul3 scale3 adds3 subs3
       add4 sub4 mul4 scale4 adds4 subs4 splat3 splat4 xyz vec4_of].

Ltac vec_cbn_in H :=
  cbn [vx vy vz qx qy qz qw map3 map4 zip3 zip4 add3 sub3 mul3 scale3 adds3 subs3
       add4 sub4 mul4 scale4 adds4 subs4 splat3 splat4 xyz vec4_of] in H.


(** ** Facts about vectors *)

Section Vectors.

Lemma vec3_eq (a b : vec3) : vx a = vx b -> vy a = vy b -> vz a = vz b -> a = b.
Proof. destruct a, b; simpl; intros; subst; reflexivity. Qed.

Lemma vec4_eq (a b : vec4) :
  qx a = qx b -> qy a = qy b -> qz a = qz b -> qw a = qw b -> a = b.
Proof. destruct a, b; simpl; intros; subst; reflexivity. Qed.

Lemma dot3_self_nonneg (v : vec3) : 0 <= dot3 v v.
Proof. unfold dot3. nra. Qed.

Lemma dot4_self_nonneg (v : vec4) : 0 <= dot4 v v.
Proof. unfold dot4. nra. Qed.

Lemma dot3_self_zero (v : vec3) : dot3 v v = 0 <-> v = zero3.
Proof.
  split.
  - intros H. unfold dot3 in H. apply vec3_eq; simpl; nra.
  - intros ->. unfold dot3, zero3; simpl. lra.
Qed.

Lemma length3_zero (v : vec3) : length3 v = 0 <-> v = zero3.
Proof.
  unfold length3. rewrite <- dot3_self_zero. split.
  - intros H. apply sqrt_eq_0; [apply dot3_self_nonneg | exact H].
  - intros ->. apply sqrt_0.
Qed.

Lemma length3_pos (v : vec3) : v <> zero3 -> 0 < length3 v.
Proof.
  intros H. destruct (Rle_lt_or_eq_dec 0 (length3 v)) as [Hlt | Heq].
  - apply sqrt_pos.
  - exact Hlt.
  - exfalso. apply H. now apply length3_zero.
Qed.

Lemma length3_sqr (v : vec3) : length3 v * length3 v = dot3 v v.
Proof. unfold length3. apply sqrt_sqrt, dot3_self_nonneg. Qed.

Lemma normalize_None (v : vec3) : normalize v = None <-> v = zero3.
Proof.
  unfold normalize. destruct (Req_dec_T (length3 v) 0) as [H | H].
  - split; [intros _; now apply length3_zero | reflexivity].
  - split; [discriminate | intros Hv; exfalso; apply H; now apply length3_zero].
Qed.


Lemma normalize_Some (v : vec3) :
  v <> zero3 -> normalize v = Some (map3 (fun c => c / length3 v) v).
Proof.
  intros H. unfold normalize. destruct (Req_dec_T (length3 v) 0) as [H0 | H0].
  - exfalso. apply H. now apply length3_zero.
  - reflexivity.
Qed.

Lemma normalize_defined (v : vec3) : v <> zero3 -> defined (normalize v).
Proof. intros H. eexists. now apply normalize_Some. Qed.

Lemma normalize_unit (v n : vec3) : normalize v = Some n -> unit3 n.
Proof.
  unfold normalize. destruct (Req_dec_T (length3 v) 0) as [H0 | H0]; [discriminate |].
  intros [= <-]. unfold unit3, dot3, map3; simpl.
  pose proof (length3_sqr v) as Hs. unfold dot3 in Hs.
  set (l := length3 v) in *.
  transitivity ((vx v * vx v + vy v * vy v + vz v * vz v) / (l * l)).
  - field. exact H0.
  - rewrite <- Hs. field. exact H0.
Qed.

Lemma normalize_nonzero (v n : vec3) : normalize v = Some n -> n <> zero3.
Proof.
  intros H Hn. apply normalize_unit in H. subst n.
  unfold unit3, dot3, zero3 in H; simpl in H. lra.
Qed.

(** Cauchy-Schwarz, in the form the shading terms need. *)
Lemma dot3_unit_range (a b : vec3) : unit3 a -> unit3 b -> -1 <= dot3 a b <= 1.
Proof.
  unfold unit3, dot3. intros Ha Hb.
  pose proof (pow2_ge_0 (vx a - vx b)). pose proof (pow2_ge_0 (vy a - vy b)).
  pose proof (pow2_ge_0 (vz a - vz b)). pose proof (pow2_ge_0 (vx a + vx b)).
  pose proof (pow2_ge_0 (vy a + vy b)). pose proof (pow2_ge_0 (vz a + vz b)).
  split; lra.
Qed.

Lemma unit3_vy_range (n : vec3) : unit3 n -> -1 <= vy n <= 1.
Proof. unfold unit3, dot3. intros H. split; nra. Qed.

Lemma normalize_axis_z (z : R) : 0 < z -> normalize (mk3 0 0 z) = Some (mk3 0 0 1).
Proof.
  intros Hz.
  assert (Hl : length3 (mk3 0 0 z) = z).
  { unfold length3, dot3; simpl.
    replace (0 * 0 + 0 * 0 + z * z) with (z * z) by ring.
    apply sqrt_square. lra. }
  unfold normalize. rewrite Hl.
  destruct (Req_dec_T z 0) as [H0 | H0]; [lra |].
  f_equal. apply vec3_eq; simpl; field; exact H0.
Qed.

Lemma normalize_axis_y (y : R) : 0 < y -> normalize (mk3 0 y 0) = Some (mk3 0 1 0).
Proof.
  intros Hy.
  assert (Hl : length3 (mk3 0 y 0) = y).
  { unfold length3, dot3; simpl.
    replace (0 * 0 + y * y + 0 * 0) with (y * y) by ring.
    apply sqrt_square. lra. }
  unfold normalize. rewrite Hl.
  destruct (Req_dec_T y 0) as [H0 | H0]; [lra |].
  f_equal. apply vec3_eq; simpl; field; exact H0.
Qed.


End Vectors.

(** ** The vertex deformers: rest position and shading normal *)

Section Deformers.





(** C10.  The shading normal written by both deformers is the normalised
    normal-matrix image of the normalised rest normal; it is the same for
    all values of the uniforms (time, amplitude, ...). *)
Theorem shading_normal_ignores_time_and_amplitude :
  forall (t : Transforms) (vtx : Vertex),
    let n := (norm <- normalize (normal vtx) ;;
              normalize (mulm3v (normalMatrix t) norm)) in
    (forall u, VertexGL.v_normal (VertexGL.main t u vtx) = n) /\
    (forall u, VertexJS.v_normal (VertexJS.main t u vtx) = n /\
               VertexJS.v_smoothNormal (VertexJS.main t u vtx) = n) /\
    (forall u1 u2,
        VertexGL.v_normal (VertexGL.main t u1 vtx)
        = VertexGL.v_normal (VertexGL.main t u2 vtx)) /\
    (forall u1 u2,
        VertexJS.v_normal (VertexJS.main t u1 vtx)
        = VertexJS.v_normal (VertexJS.main t u2 vtx)).
Proof.
  intros t vtx n. repeat split.
Qed.

End Deformers.



(** ** Zero-length vectors *)

Section Degenerate.

Lemma bind_None {A B : Type} (f : A -> option B) : bind None f = None.
Proof. reflexivity. Qed.








End Degenerate.

(** ** The Fresnel term of the liquid-metal shader *)

Section Fresnel.
Import FragmentGL.

Lemma exp_mono (x y : R) : x <= y -> exp x <= exp y.
Proof.
  intros [H | ->]; [left; now apply exp_increasing | right; reflexivity].
Qed.

Lemma bernoulli (n : nat) (d : R) : 0 <= d <= 1 -> 1 - INR n * d <= (1 - d) ^ n.
Proof.
  intros Hd. induction n as [| n IH].
  - simpl. lra.
  - rewrite S_INR. simpl.
    assert (0 <= (1 - d) ^ n) by (apply pow_le; lra).
    pose proof (pos_INR n). nra.
Qed.

(** Close to 1 the power stays close to 1, uniformly in the exponent up to [n]. *)
Lemma pow_near_one (d p : R) (n : nat) :
  0 <= d < 1 -> 0 <= p <= INR n -> 1 - INR n * d <= pow (1 - d) p.
Proof.
  intros Hd Hp. unfold pow. destruct (Rle_dec (1 - d) 0) as [H | H]; [lra |].
  apply Rle_trans with ((1 - d) ^ n).
  - apply bernoulli. lra.
  - rewrite <- Rpower_pow by lra. unfold Rpower. apply exp_mono.
    assert (ln (1 - d) <= 0).
    { rewrite <- ln_1. destruct (Req_dec d 0) as [-> | Hne].
      - replace (1 - 0) with 1 by ring. lra.
      - left. apply ln_increasing; lra. }
    nra.
Qed.

Lemma clamp01_above (x : R) : x <= 1 -> x <= clamp x 0 1 <= 1.
Proof.
  intros H. unfold clamp, Rmin, Rmax.
  destruct (Rle_dec x 0); destruct (Rle_dec _ 1); lra.
Qed.

Lemma fresnel_range (viewDir normal : vec3) (power bias : R) :
  0 <= fresnel viewDir normal power bias <= 1.
Proof. unfold fresnel. apply clamp_range. lra. Qed.

Lemma fresnel_head_on (viewDir normal : vec3) (power bias : R) :
  dot3 normal viewDir = 1 -> 0 <= bias <= 1 ->
  fresnel viewDir normal power bias = bias.
Proof.
  intros Hd Hb. unfold fresnel. rewrite Hd.
  replace (Rmax 1 0) with 1 by (unfold Rmax; destruct (Rle_dec 1 0); lra).
  replace (1 - 1) with 0 by ring. rewrite pow_0.
  replace (bias + (1 - bias) * 0) with bias by ring.
  now apply clamp_id.
Qed.

Lemma fresnel_grazing (viewDir normal : vec3) (power bias : R) :
  dot3 normal viewDir <= 0 -> fresnel viewDir normal power bias = 1.
Proof.
  intros Hd. unfold fresnel.
  replace (Rmax (dot3 normal viewDir) 0) with 0
    by (unfold Rmax; destruct (Rle_dec (dot3 normal viewDir) 0); lra).
  replace (1 - 0) with 1 by ring. rewrite pow_1.
  replace (bias + (1 - bias) * 1) with 1 by ring.
  apply clamp_id. lra.
Qed.

Lemma fresnel_near_grazing (power bias eps : R) :
  0 < power -> 0 <= bias <= 1 -> 0 < eps ->
  exists delta, 0 < delta /\
    forall viewDir normal,
      dot3 normal viewDir < delta ->
      Rabs (fresnel viewDir normal power bias - 1) < eps.
Proof.
  intros Hp Hb He.
  set (n := Z.to_nat (up power)).
  assert (Hn : power <= INR n /\ 0 < INR n).
  { destruct (archimed power) as [Hup _].
    assert (0 < up power)%Z by (apply lt_IZR; lra).
    unfold n. rewrite INR_IZR_INZ, Z2Nat.id by lia. lra. }
  destruct Hn as [Hpn Hn0].
  exists (Rmin (1 / 2) (eps / INR n)). split.
  - apply Rmin_glb_lt; [lra | now apply Rdiv_lt_0_compat].
  - intros viewDir normal Hd.
    assert (Hd1 : dot3 normal viewDir < 1 / 2)
      by (eapply Rlt_le_trans; [exact Hd | apply Rmin_l]).
    assert (Hd2 : dot3 normal viewDir < eps / INR n)
      by (eapply Rlt_le_trans; [exact Hd | apply Rmin_r]).
    unfold fresnel. set (d := Rmax (dot3 normal viewDir) 0).
    assert (Hd0 : 0 <= d < 1 / 2 /\ INR n * d < eps).
    { unfold d, Rmax. destruct (Rle_dec (dot3 normal viewDir) 0).
      - split; [lra |]. lra.
      - split; [lra |].
        apply Rmult_lt_reg_r with (/ INR n); [now apply Rinv_0_lt_compat |].
        replace (INR n * dot3 normal viewDir * / INR n) with (dot3 normal viewDir)
          by (field; lra).
        exact Hd2. }
    destruct Hd0 as [Hd0 Hnd].
    pose proof (pow_near_one d power n ltac:(lra) ltac:(lra)) as Hlow.
    pose proof (pow_le_1 (1 - d) power ltac:(lra) ltac:(lra)) as Hhigh.
    set (t := pow (1 - d) power) in *.
    assert (Hx : 1 - eps < bias + (1 - bias) * t <= 1) by (split; nra).
    pose proof (clamp01_above (bias + (1 - bias) * t) ltac:(lra)) as Hc.
    apply Rabs_def1; lra.
Qed.

(** C6.  For a positive power and a bias in [[0,1]] the Fresnel term lies in
    [[0,1]], equals the bias when the normal is the (unit) view direction,
    equals 1 at grazing incidence (dot product 0) and tends to 1 as the dot
    product of normal and view direction tends to 0. *)
Theorem fresnel_bias_head_on_one_at_grazing :
  forall power bias : R,
    0 < power -> 0 <= bias <= 1 ->
    (forall viewDir normal, 0 <= fresnel viewDir normal power bias <= 1) /\
    (forall viewDir, unit3 viewDir -> fresnel viewDir viewDir power bias = bias) /\
    (forall viewDir normal,
        dot3 normal viewDir = 0 -> fresnel viewDir normal power bias = 1) /\
    (forall eps, 0 < eps ->
       exists delta, 0 < delta /\
         forall viewDir normal,
           unit3 viewDir -> unit3 normal ->
           0 <= dot3 normal viewDir < delta ->
           Rabs (fresnel viewDir normal power bias - 1) < eps).
Proof.
  intros power bias Hp Hb. repeat split.
  - apply fresnel_range.
  - apply fresnel_range.
  - intros viewDir Hu. apply fresnel_head_on; assumption.
  - intros viewDir normal Hd. apply fresnel_grazing. lra.
  - intros eps He.
    destruct (fresnel_near_grazing power bias eps Hp Hb He) as (delta & Hdelta & H).
    exists delta. split; [exact Hdelta |].
    intros viewDir normal _ _ Hd. apply H. lra.
Qed.

(** The theorem at power 3 and bias 0.1, the head-on view along the z axis. *)
Lemma fresnel_bias_head_on_witness :
  fresnel (mk3 0 0 1) (mk3 0 0 1) 3 0.1 = 0.1.
Proof.
  destruct (fresnel_bias_head_on_one_at_grazing 3 0.1 ltac:(lra) ltac:(lra))
    as (_ & H & _).
  apply H. unfold unit3, dot3; simpl. lra.
Defined.

End Fresnel.

(** ** 4D simplex noise: structure and evaluation *)

Section Noise4.
Import Simplex4.

(** [snoise] as the sum of its five corner terms. *)
Lemma snoise_corners (v : vec4) :
  let i := map4 floor (adds4 v (dot4 v (splat4 F4))) in
  let x0 := adds4 (sub4 v i) (dot4 i (splat4 (qx C))) in
  let i0 := rank x0 in
  let i3 := map4 (fun c => clamp c 0 1) i0 in
  let i2 := map4 (fun c => clamp (c - 1) 0 1) i0 in
  let i1 := map4 (fun c => clamp (c - 2) 0 1) i0 in
  let x1 := add4 (sub4 x0 i1) (splat4 (qx C)) in
  let x2 := add4 (sub4 x0 i2) (splat4 (qy C)) in
  let x3 := add4 (sub4 x0 i3) (splat4 (qz C)) in
  let x4 := add4 x0 (splat4 (qw C)) in
  let j0 := hash0 (mod289v i) in
  let j1 := hash1 (mod289v i) i1 i2 i3 in
  snoise v =
  49 * ((corner x0 (grad4 j0 ip) + corner x1 (grad4 (qx j1) ip)
         + corner x2 (grad4 (qy j1) ip))
        + (corner x3 (grad4 (qz j1) ip) + corner x4 (grad4 (qw j1) ip))).
Proof. reflexivity. Qed.







End Noise4.

(** ** Fractal Brownian motion *)

Section Fbm.
Import Simplex4.

(** The loop unrolled: one, two, three and four (or more) octaves. *)
Lemma fbm_1 (p : vec4) :
  fbm p 1 = (0 + 0.5 * snoise (scale4 p 1)) / (0 + 0.5).
Proof. reflexivity. Qed.

Lemma fbm_2 (p : vec4) :
  fbm p 2 = (0 + 0.5 * snoise (scale4 p 1)
             + 0.5 * 0.5 * snoise (scale4 p (1 * 2)))
            / (0 + 0.5 + 0.5 * 0.5).
Proof. reflexivity. Qed.

Lemma fbm_3 (p : vec4) :
  fbm p 3 = (0 + 0.5 * snoise (scale4 p 1)
             + 0.5 * 0.5 * snoise (scale4 p (1 * 2))
             + 0.5 * 0.5 * 0.5 * snoise (scale4 p (1 * 2 * 2)))
            / (0 + 0.5 + 0.5 * 0.5 + 0.5 * 0.5 * 0.5).
Proof. reflexivity. Qed.

Lemma fbm_loop_4 (p : vec4) (octaves : Z) (st : fbm_state) :
  (4 <= octaves)%Z ->
  fbm_loop 4 0 octaves p st = fbm_body p (fbm_body p (fbm_body p (fbm_body p st))).
Proof.
  intros H. simpl.
  repeat match goal with
         | |- context [(?a >=? octaves)%Z] =>
             replace (a >=? octaves)%Z with false
               by (symmetry; rewrite Z.geb_leb; apply Z.leb_gt; lia)
         end.
  reflexivity.
Qed.

Lemma fbm_4 (p : vec4) (octaves : Z) :
  (4 <= octaves)%Z ->
  fbm p octaves
  = (0 + 0.5 * snoise (scale4 p 1)
     + 0.5 * 0.5 * snoise (scale4 p (1 * 2))
     + 0.5 * 0.5 * 0.5 * snoise (scale4 p (1 * 2 * 2))
     + 0.5 * 0.5 * 0.5 * 0.5 * snoise (scale4 p (1 * 2 * 2 * 2)))
    / (0 + 0.5 + 0.5 * 0.5 + 0.5 * 0.5 * 0.5 + 0.5 * 0.5 * 0.5 * 0.5).
Proof. intros H. unfold fbm. rewrite (fbm_loop_4 p octaves _ H). reflexivity. Qed.

(** A weighted mean of values in [[-S,S]] lies in [[-S,S]]. *)
Lemma weighted_mean_range (S num den : R) :
  0 < den -> - (S * den) <= num <= S * den -> - S <= num / den <= S.
Proof.
  intros Hd Hn. split.
  - apply Rmult_le_reg_r with den; [exact Hd |].
    unfold Rdiv. rewrite Rmult_assoc, Rinv_l by lra. lra.
  - apply Rmult_le_reg_r with den; [exact Hd |].
    unfold Rdiv. rewrite Rmult_assoc, Rinv_l by lra. lra.
Qed.

Lemma fbm_range_scaled (S : R) (p : vec4) (octaves : Z) :
  (1 <= octaves)%Z ->
  (forall k : nat, (k < 4)%nat -> (Z.of_nat k < octaves)%Z ->
                   - S <= snoise (scale4 p (2 ^ k)) <= S) ->
  - S <= fbm p octaves <= S.
Proof.
  intros Ho Hs.
  assert (H0 : (0 < octaves)%Z -> - S <= snoise (scale4 p 1) <= S).
  { intros H. apply (Hs 0%nat); [lia | exact H]. }
  assert (H1 : (1 < octaves)%Z -> - S <= snoise (scale4 p (1 * 2)) <= S).
  { intros H. replace (1 * 2) with (2 ^ 1) by ring. apply Hs; [lia | exact H]. }
  assert (H2 : (2 < octaves)%Z -> - S <= snoise (scale4 p (1 * 2 * 2)) <= S).
  { intros H. replace (1 * 2 * 2) with (2 ^ 2) by ring. apply Hs; [lia | exact H]. }
  assert (H3 : (3 < octaves)%Z -> - S <= snoise (scale4 p (1 * 2 * 2 * 2)) <= S).
  { intros H. replace (1 * 2 * 2 * 2) with (2 ^ 3) by ring. apply Hs; [lia | exact H]. }
  destruct (Z.eq_dec octaves 1) as [-> | N1].
  { rewrite fbm_1. specialize (H0 ltac:(lia)).
    apply weighted_mean_range; lra. }
  destruct (Z.eq_dec octaves 2) as [-> | N2].
  { rewrite fbm_2. specialize (H0 ltac:(lia)). specialize (H1 ltac:(lia)).
    apply weighted_mean_range; lra. }
  destruct (Z.eq_dec octaves 3) as [-> | N3].
  { rewrite fbm_3. specialize (H0 ltac:(lia)). specialize (H1 ltac:(lia)).
    specialize (H2 ltac:(lia)).
    apply weighted_mean_range; lra. }
  rewrite fbm_4 by lia.
  specialize (H0 ltac:(lia)). specialize (H1 ltac:(lia)).
  specialize (H2 ltac:(lia)). specialize (H3 ltac:(lia)).
  apply weighted_mean_range; lra.
Qed.




End Fbm.

(** ** 3D simplex noise: structure and evaluation *)

Section Noise3.
Import Simplex3.

Lemma gradients_components (p : vec4) :
  gradients p = (gradient (qx p), gradient (qy p), gradient (qz p), gradient (qw p)).
Proof. reflexivity. Qed.








End Noise3.


(** ** Accumulated colour: no negative light *)

Section NonNegative.

Lemma nonneg3_add3 (a b : vec3) : nonneg3 a -> nonneg3 b -> nonneg3 (add3 a b).
Proof. unfold nonneg3; simpl. intros (? & ? & ?) (? & ? & ?). repeat split; lra. Qed.

Lemma nonneg3_scale3 (a : vec3) (s : R) : nonneg3 a -> 0 <= s -> nonneg3 (scale3 a s).
Proof.
  unfold nonneg3; simpl. intros (? & ? & ?) Hs.
  repeat split; apply Rmult_le_pos; assumption.
Qed.

Lemma nonneg3_smul3 (a : vec3) (s : R) :
  nonneg3 a -> 0 <= s -> nonneg3 (ShadingJS.smul3 s a).
Proof.
  unfold nonneg3; simpl. intros (? & ? & ?) Hs.
  repeat split; apply Rmult_le_pos; assumption.
Qed.

Lemma nonneg3_mul3 (a b : vec3) : nonneg3 a -> nonneg3 b -> nonneg3 (mul3 a b).
Proof.
  unfold nonneg3; simpl. intros (? & ? & ?) (? & ? & ?).
  repeat split; apply Rmult_le_pos; assumption.
Qed.

Lemma nonneg3_mix3 (a b : vec3) (t : R) :
  nonneg3 a -> nonneg3 b -> 0 <= t <= 1 -> nonneg3 (mix3 a b t).
Proof.
  unfold nonneg3; simpl. intros (? & ? & ?) (? & ? & ?) Ht.
  repeat split; apply mix_nonneg; assumption.
Qed.

Lemma nonneg3_const (x y z : R) : 0 <= x -> 0 <= y -> 0 <= z -> nonneg3 (mk3 x y z).
Proof. unfold nonneg3; simpl. auto. Qed.

Lemma when_defined_bind {A B : Type} (P : B -> Prop) (o : option A) (f : A -> option B) :
  (forall a, o = Some a -> when_defined P (f a)) -> when_defined P (bind o f).
Proof. destruct o as [a |]; simpl; [intros H; now apply H | trivial]. Qed.

(** *** The liquid-metal shader *)

Lemma environmentGradient_nonneg (r : vec3) :
  nonneg3 (FragmentGL.environmentGradient r).
Proof.
  unfold FragmentGL.environmentGradient. cbv zeta.
  apply nonneg3_add3.
  - apply nonneg3_mix3; [| apply nonneg3_const; lra | apply smoothstep_range].
    apply nonneg3_mix3; [| | apply smoothstep_range]; apply nonneg3_const; lra.
  - apply nonneg3_scale3; [| lra].
    apply nonneg3_scale3; [apply nonneg3_const; lra |].
    apply Rmult_le_pos; apply smoothstep_range.
Qed.

Lemma edgeColor_nonneg (n : vec3) : unit3 n -> nonneg3 (FragmentGL.edgeColor n).
Proof.
  intros Hn. unfold FragmentGL.edgeColor. cbv zeta.
  pose proof (unit3_vy_range n Hn).
  apply nonneg3_mix3.
  - unfold nonneg3; simpl; lra.
  - unfold nonneg3; simpl; lra.
  - unfold dot3; simpl. lra.
Qed.

Lemma absorbedColor_nonneg (u : FragmentGL.Uniforms) (v : FragmentGL.Varyings) :
  FragmentGL.u_absorption u <= 2 -> nonneg3 (FragmentGL.absorbedColor u v).
Proof.
  intros Ha. unfold FragmentGL.absorbedColor. cbv zeta.
  apply nonneg3_scale3; [unfold FragmentGL.coreColor; apply nonneg3_const; lra |].
  pose proof (clamp_range (1 - Rabs (FragmentGL.v_displacement v) * 2) 0 1 ltac:(lra)).
  set (d := clamp _ 0 1) in *. nra.
Qed.

Lemma keyContribution_nonneg (u : FragmentGL.Uniforms) (n vd kl : vec3) :
  nonneg3 (scale3 (FragmentGL.u_keyLightColor u) (FragmentGL.u_keyLightIntensity u)) ->
  when_defined nonneg3 (FragmentGL.keyContribution u n vd kl).
Proof.
  intros Hc. unfold FragmentGL.keyContribution. cbv zeta.
  apply when_defined_bind. intros ks _. simpl.
  apply nonneg3_scale3; [exact Hc |].
  pose proof (pow_nonneg (Rmax (dot3 n kl) 0) 1.5).
  pose proof (pow_nonneg ks 2). lra.
Qed.

Lemma rimContribution_nonneg (u : FragmentGL.Uniforms) (n vd rl : vec3) :
  nonneg3 (scale3 (FragmentGL.u_rimLightColor u) (FragmentGL.u_rimLightIntensity u)) ->
  nonneg3 (FragmentGL.rimContribution u n vd rl).
Proof.
  intros Hc. unfold FragmentGL.rimContribution. cbv zeta.
  apply nonneg3_scale3; [| lra].
  apply nonneg3_scale3; [| unfold FragmentGL.rimMask; apply pow_nonneg].
  apply nonneg3_scale3; [exact Hc | apply Rmax_0_nonneg].
Qed.

Lemma assemble_nonneg (u : FragmentGL.Uniforms) (v : FragmentGL.Varyings)
    (n vd key rim : vec3) :
  FragmentGL.u_absorption u <= 2 -> -20 <= FragmentGL.v_displacement v ->
  unit3 n -> nonneg3 key -> nonneg3 rim ->
  nonneg3 (FragmentGL.assemble u v n vd key rim).
Proof.
  intros Ha Hd Hn Hk Hr. unfold FragmentGL.assemble. cbv zeta.
  pose proof (fresnel_range vd n (FragmentGL.u_fresnelPower u)
                (FragmentGL.u_fresnelBias u)) as Hf.
  apply nonneg3_scale3; [| unfold FragmentGL.surfaceFactor; lra].
  repeat apply nonneg3_add3; try assumption.
  - now apply absorbedColor_nonneg.
  - apply nonneg3_scale3; [| lra].
    apply nonneg3_scale3; [apply environmentGradient_nonneg | lra].
  - apply nonneg3_scale3; [| lra].
    apply nonneg3_scale3; [| lra].
    apply nonneg3_scale3; [now apply edgeColor_nonneg | lra].
Qed.

Lemma compositeGL_nonneg (u : FragmentGL.Uniforms) (v : FragmentGL.Varyings) :
  plausibleGL u v -> when_defined nonneg3 (FragmentGL.composite u v).
Proof.
  intros (Ha & Hk & Hr & Hd & _). unfold FragmentGL.composite.
  apply when_defined_bind. intros n Hn.
  apply when_defined_bind. intros vd Hvd.
  apply when_defined_bind. intros kl Hkl.
  pose proof (keyContribution_nonneg u n vd kl Hk) as Hkey.
  apply when_defined_bind. intros key Hkeyeq. rewrite Hkeyeq in Hkey.
  apply when_defined_bind. intros rl Hrl. simpl.
  apply assemble_nonneg; try assumption.
  - eapply normalize_unit; eassumption.
  - now apply rimContribution_nonneg.
Qed.

End NonNegative.

Ltac nonneg_const := apply nonneg3_const; lra.

(** *** The two shaders of the JavaScript files *)

Section NonNegativeJS.
Import ShadingJS.

Lemma PI_pos : 0 < PI.
Proof. unfold PI. lra. Qed.

Lemma D_GGX_nonneg (NdotH roughness : R) : 0 <= D_GGX NdotH roughness.
Proof.
  unfold D_GGX. cbv zeta.
  set (a2 := roughness * roughness * (roughness * roughness)).
  set (d := NdotH * NdotH * (a2 - 1) + 1).
  assert (0 <= a2) by (unfold a2; nra).
  assert (0 < PI * d * d + 0.0001).
  { pose proof PI_pos. assert (0 <= PI * (d * d)) by (apply Rmult_le_pos; nra). lra. }
  apply Rmult_le_pos; [assumption | left; now apply Rinv_0_lt_compat].
Qed.

Lemma F_Schlick_nonneg (VdotH : R) (F0 : vec3) :
  nonneg3 F0 -> nonneg3 (map3 (fun c => 1 - c) F0) -> nonneg3 (F_Schlick VdotH F0).
Proof.
  intros H0 H1. unfold F_Schlick.
  apply nonneg3_add3; [exact H0 |].
  apply nonneg3_scale3; [exact H1 | apply pow_nonneg].
Qed.

Lemma sampleEnv_nonneg (r : vec3) : when_defined nonneg3 (sampleEnv r).
Proof.
  unfold sampleEnv. cbv zeta.
  apply when_defined_bind. intros angle _. cbn [when_defined].
  repeat apply nonneg3_add3.
  - nonneg_const.
  - apply nonneg3_scale3; [nonneg_const | apply smoothstep_range].
  - apply nonneg3_scale3; [| lra].
    apply nonneg3_scale3; [nonneg_const |].
    apply Rmult_le_pos; apply smoothstep_range.
  - apply nonneg3_scale3; [| lra].
    apply nonneg3_scale3; [nonneg_const |].
    apply Rmult_le_pos; apply smoothstep_range.
  - apply nonneg3_scale3; [| lra].
    apply nonneg3_scale3; [nonneg_const | apply smoothstep_range].
Qed.

Lemma lobe_nonneg (N V Ldir : vec3) (roughness : R) (F0 tint : vec3) (k : R) :
  nonneg3 F0 -> nonneg3 (map3 (fun c => 1 - c) F0) -> nonneg3 tint -> 0 <= k ->
  when_defined nonneg3 (lobe N V Ldir roughness F0 tint k).
Proof.
  intros H0 H1 Ht Hk. unfold lobe.
  apply when_defined_bind. intros L _.
  apply when_defined_bind. intros H _. simpl.
  apply nonneg3_scale3; [| exact Hk].
  apply nonneg3_mul3; [| exact Ht].
  apply nonneg3_scale3; [| apply Rmax_0_nonneg].
  apply nonneg3_smul3; [now apply F_Schlick_nonneg | apply D_GGX_nonneg].
Qed.

(** [1 - max(dot(N,V), 0)] for unit vectors. *)
Lemma edge_factor_range (N V : vec3) :
  unit3 N -> unit3 V ->
  0 <= Rmax (dot3 N V) 0 <= 1 /\ 0 <= 1 - Rmax (dot3 N V) 0 <= 1.
Proof.
  intros HN HV. pose proof (dot3_unit_range N V HN HV). minmax_solve.
Qed.

Lemma one_minus_smoothstep (e0 e1 x : R) : 0 <= 1 - smoothstep e0 e1 x.
Proof. pose proof (smoothstep_range e0 e1 x). lra. Qed.

Ltac nonneg_product :=
  repeat first
    [ lra
    | apply pow_nonneg
    | apply smoothstep_range
    | apply one_minus_smoothstep
    | apply Rmult_le_pos ].

Ltac nonneg_term :=
  repeat first
    [ apply nonneg3_const; lra
    | assumption
    | apply nonneg3_scale3
    | progress nonneg_product ].

Lemma compositeJS_nonneg (u : Uniforms) (v : Varyings) :
  when_defined nonneg3 (FragmentJS.composite u v).
Proof.
  unfold FragmentJS.composite.
  apply when_defined_bind. intros N HN.
  apply when_defined_bind. intros V HV. cbv zeta.
  destruct (edge_factor_range N V (normalize_unit _ _ HN) (normalize_unit _ _ HV))
    as [Hnv He].
  apply when_defined_bind. intros env Henv.
  assert (Henv' : nonneg3 env).
  { unfold FragmentJS.envReflection in Henv. cbv zeta in Henv.
    pose proof (sampleEnv_nonneg (reflect (neg3 V) N)) as Hse.
    destruct (sampleEnv (reflect (neg3 V) N)) as [e |]; [| discriminate].
    cbn [bind] in Henv. injection Henv as <-. cbn [when_defined] in Hse.
    nonneg_term. }
  assert (Hs1 : when_defined nonneg3 (FragmentJS.spec1 N V)).
  { unfold FragmentJS.spec1. apply lobe_nonneg; unfold nonneg3; simpl; lra. }
  assert (Hs2 : when_defined nonneg3 (FragmentJS.spec2 N V)).
  { unfold FragmentJS.spec2.
    apply when_defined_bind. intros L2 _.
    apply when_defined_bind. intros H2 _. simpl.
    apply nonneg3_scale3; [| lra].
    apply nonneg3_smul3; [nonneg_const |].
    apply Rmult_le_pos; [apply D_GGX_nonneg | apply Rmax_0_nonneg]. }
  apply when_defined_bind. intros s1 Hs1eq. rewrite Hs1eq in Hs1.
  apply when_defined_bind. intros s2 Hs2eq. rewrite Hs2eq in Hs2. simpl in Hs1, Hs2.
  cbn [when_defined]. repeat apply nonneg3_add3; try assumption.
  - apply nonneg3_scale3; [| lra].
    unfold FragmentJS.internalColor. cbv zeta.
    pose proof (pow_unit_range (Rmax (dot3 N V) 0) 0.8 Hnv ltac:(lra)).
    apply nonneg3_mix3; [nonneg_const | | lra].
    apply nonneg3_mix3; [nonneg_const | nonneg_const | apply smoothstep_range].
  - unfold FragmentJS.rimColor. nonneg_term.
  - unfold FragmentJS.leftGlow, FragmentJS.leftHeight. nonneg_term.
  - unfold FragmentJS.leftWarm, FragmentJS.leftHeight. nonneg_term.
  - unfold FragmentJS.rightGlow. nonneg_term.
  - unfold FragmentJS.edgeHighlight. nonneg_term.
Qed.

Lemma compositeGlass_nonneg (u : Uniforms) (v : Varyings) :
  when_defined nonneg3 (FragmentGlass.composite u v).
Proof.
  unfold FragmentGlass.composite.
  apply when_defined_bind. intros N HN.
  apply when_defined_bind. intros V HV. cbv zeta.
  destruct (edge_factor_range N V (normalize_unit _ _ HN) (normalize_unit _ _ HV))
    as [Hnv He].
  apply when_defined_bind. intros refl Hrefl.
  assert (Hrefl' : nonneg3 refl).
  { unfold FragmentGlass.reflection in Hrefl. cbv zeta in Hrefl.
    pose proof (sampleEnv_nonneg (reflect (neg3 V) N)) as Hse.
    destruct (sampleEnv (reflect (neg3 V) N)) as [e |]; [| discriminate].
    cbn [bind] in Hrefl. injection Hrefl as <-. cbn [when_defined] in Hse.
    nonneg_term. }
  assert (Hs : when_defined nonneg3 (FragmentGlass.spec N V)).
  { unfold FragmentGlass.spec. apply lobe_nonneg; unfold nonneg3; simpl; lra. }
  apply when_defined_bind. intros s Hseq. rewrite Hseq in Hs. simpl in Hs.
  cbn [when_defined]. repeat apply nonneg3_add3; try assumption.
  - apply nonneg3_scale3; [| lra].
    unfold FragmentGlass.glassCore. cbv zeta.
    pose proof (pow_nonneg (Rmax (dot3 N V) 0) 1.2).
    apply nonneg3_scale3; [| lra].
    apply nonneg3_mix3; [nonneg_const | nonneg_const | apply smoothstep_range].
  - unfold FragmentGlass.rimLight. nonneg_term.
  - unfold FragmentGlass.leftLight. nonneg_term.
  - unfold FragmentGlass.rightLight. nonneg_term.
  - unfold FragmentGlass.edgeColor. nonneg_term.
Qed.

End NonNegativeJS.

(** ** Tone mapping *)

Section ToneMapping.

Lemma reinhard_range (c k : R) : 0 <= c -> 0 < k -> 0 <= c / (c + k) <= 1.
Proof.
  intros Hc Hk. assert (0 < / (c + k)) by (apply Rinv_0_lt_compat; lra).
  split.
  - apply Rmult_le_pos; lra.
  - apply Rmult_le_reg_r with (c + k); [lra |].
    unfold Rdiv. rewrite Rmult_assoc, Rinv_l by lra. lra.
Qed.

Lemma toneMapGL_displayable (c : vec3) :
  nonneg3 c -> displayable (FragmentGL.toneMap c).
Proof.
  intros (Hx & Hy & Hz). unfold FragmentGL.toneMap, displayable; simpl.
  repeat split;
    try apply pow_nonneg;
    apply pow_le_1; try lra; apply reinhard_range; lra.
Qed.

Lemma toneMapJS_displayable (c : vec3) : displayable (FragmentJS.toneMap c).
Proof.
  unfold FragmentJS.toneMap, displayable. cbv zeta. unfold pow3, zip3, map3.
  cbn [vx vy vz].
  repeat split;
    try apply pow_nonneg;
    apply pow_le_1; try lra; apply clamp_range; lra.
Qed.

Lemma toneMapGlass_displayable (c : vec3) :
  nonneg3 c -> displayable (FragmentGlass.toneMap c).
Proof.
  intros (Hx & Hy & Hz). unfold FragmentGlass.toneMap, displayable.
  cbv zeta. unfold pow3, zip3, map3. cbn [vx vy vz].
  repeat split;
    try apply pow_nonneg;
    apply pow_le_1; try lra; apply reinhard_range; lra.
Qed.

Lemma when_defined_map {A B : Type} (P : A -> Prop) (Q : B -> Prop)
    (f : A -> B) (o : option A) :
  (forall a, P a -> Q (f a)) ->
  when_defined P o -> when_defined Q (bind o (fun a => Some (f a))).
Proof. intros H. destruct o; simpl; auto. Qed.

Lemma mainGL_displayable (u : FragmentGL.Uniforms) (v : FragmentGL.Varyings) :
  plausibleGL u v -> when_defined displayable (FragmentGL.main u v).
Proof.
  intros H. unfold FragmentGL.main.
  apply (when_defined_map nonneg3); [exact toneMapGL_displayable |].
  now apply compositeGL_nonneg.
Qed.

Lemma mainJS_displayable (u : ShadingJS.Uniforms) (v : ShadingJS.Varyings) :
  when_defined displayable (FragmentJS.main u v).
Proof.
  unfold FragmentJS.main.
  apply (when_defined_map (fun _ => True)); [intros; apply toneMapJS_displayable |].
  destruct (FragmentJS.composite u v); exact I.
Qed.

Lemma mainGlass_displayable (u : ShadingJS.Uniforms) (v : ShadingJS.Varyings) :
  when_defined displayable (FragmentGlass.main u v).
Proof.
  unfold FragmentGlass.main.
  apply (when_defined_map nonneg3); [exact toneMapGlass_displayable |].
  apply compositeGlass_nonneg.
Qed.

End ToneMapping.

(** ** The head-on, unlit fragment of the liquid-metal shader *)

Section HeadOn.
Import FragmentGL.

Lemma add3_zero_r (a : vec3) : add3 a zero3 = a.
Proof. apply vec3_eq; simpl; ring. Qed.

Lemma keyContribution_unlit (u : Uniforms) (n vd kl h : vec3) :
  normalize (add3 kl vd) = Some h -> u_keyLightIntensity u = 0 ->
  keyContribution u n vd kl = Some zero3.
Proof.
  intros Hh Hi. unfold keyContribution, specular. rewrite Hh. cbn [bind].
  f_equal. apply vec3_eq; cbn [scale3 map3 vx vy vz zero3]; rewrite Hi; ring.
Qed.

Lemma rimContribution_unlit (u : Uniforms) (n vd rl : vec3) :
  u_rimLightIntensity u = 0 -> rimContribution u n vd rl = zero3.
Proof.
  intros Hi. unfold rimContribution.
  apply vec3_eq; cbn [scale3 map3 vx vy vz zero3]; rewrite Hi; ring.
Qed.

Lemma rimMask_head_on (n vd : vec3) : dot3 vd n = 1 -> rimMask n vd = 0.
Proof.
  intros H. unfold rimMask. rewrite H.
  replace (1 - Rmax 1 0) with 0 by minmax_solve. apply pow_0.
Qed.

Lemma reflect_head_on : reflect (neg3 (mk3 0 0 1)) (mk3 0 0 1) = mk3 0 0 1.
Proof. apply vec3_eq; unfold reflect, dot3; simpl; ring. Qed.

(** Everything the shader adds for a fragment seen head-on along the z axis
    when both light intensities are 0. *)
Lemma compositeGL_head_on_unlit (u : Uniforms) (v : Varyings) (kl h rl : vec3) :
  normalize (v_normal v) = Some (mk3 0 0 1) ->
  normalize (sub3 (u_cameraPosition u) (v_worldPosition v)) = Some (mk3 0 0 1) ->
  normalize (sub3 (u_keyLightPos u) (v_worldPosition v)) = Some kl ->
  normalize (add3 kl (mk3 0 0 1)) = Some h ->
  normalize (sub3 (u_rimLightPos u) (v_worldPosition v)) = Some rl ->
  u_keyLightIntensity u = 0 -> u_rimLightIntensity u = 0 ->
  0 <= u_fresnelBias u <= 1 ->
  composite u v
  = Some (scale3
            (add3 (add3 (absorbedColor u v)
                        (scale3 (scale3 (environmentGradient (mk3 0 0 1))
                                        (u_fresnelBias u)) 0.6))
                  (scale3 (scale3 (scale3 (edgeColor (mk3 0 0 1)) (u_fresnelBias u))
                                  (u_fresnelBias u)) 0.4))
            (surfaceFactor v)).
Proof.
  intros Hn Hv Hkl Hh Hrl Hki Hri Hb. unfold composite.
  rewrite Hn, Hv, Hkl. cbn [bind].
  rewrite (keyContribution_unlit u _ _ kl h Hh Hki). cbn [bind].
  rewrite Hrl. cbn [bind].
  rewrite (rimContribution_unlit u _ _ rl Hri).
  unfold assemble. cbv zeta.
  rewrite reflect_head_on, !add3_zero_r.
  rewrite (fresnel_head_on (mk3 0 0 1) (mk3 0 0 1) _ _) by (unfold dot3; simpl; lra || exact Hb).
  reflexivity.
Qed.

Lemma edgeColor_z : edgeColor (mk3 0 0 1) = mk3 0.1505 0.158 0.186.
Proof. apply vec3_eq; unfold edgeColor, dot3, mix3, mix; simpl; lra. Qed.

(** The concrete head-on fragment: every [normalize] of the shader is defined. *)
Lemma headOnGL_normalized (bias absorption disp keyI rimI : R) :
  let u := fst (headOnGL bias absorption disp keyI rimI) in
  let v := snd (headOnGL bias absorption disp keyI rimI) in
  normalize (v_normal v) = Some (mk3 0 0 1) /\
  normalize (sub3 (u_cameraPosition u) (v_worldPosition v)) = Some (mk3 0 0 1) /\
  normalize (sub3 (u_keyLightPos u) (v_worldPosition v)) = Some (mk3 0 1 0) /\
  defined (normalize (add3 (mk3 0 1 0) (mk3 0 0 1))) /\
  normalize (sub3 (u_rimLightPos u) (v_worldPosition v)) = Some (mk3 0 0 1).
Proof.
  cbn [headOnGL fst snd v_normal u_cameraPosition v_worldPosition u_keyLightPos
       u_rimLightPos].
  repeat split.
  - apply normalize_axis_z. lra.
  - replace (sub3 (mk3 0 0 5) (mk3 0 0 0)) with (mk3 0 0 5)
      by (apply vec3_eq; simpl; ring).
    apply normalize_axis_z. lra.
  - replace (sub3 (mk3 0 3 0) (mk3 0 0 0)) with (mk3 0 3 0)
      by (apply vec3_eq; simpl; ring).
    apply normalize_axis_y. lra.
  - apply normalize_defined. intros H. apply (f_equal vy) in H. simpl in H. lra.
  - replace (sub3 (mk3 0 0 2) (mk3 0 0 0)) with (mk3 0 0 2)
      by (apply vec3_eq; simpl; ring).
    apply normalize_axis_z. lra.
Qed.

Lemma compositeGL_headOn (bias absorption disp : R) :
  0 <= bias <= 1 ->
  let u := fst (headOnGL bias absorption disp 0 0) in
  let v := snd (headOnGL bias absorption disp 0 0) in
  composite u v
  = Some (scale3
            (add3 (add3 (absorbedColor u v)
                        (scale3 (scale3 (environmentGradient (mk3 0 0 1)) bias) 0.6))
                  (scale3 (scale3 (scale3 (edgeColor (mk3 0 0 1)) bias) bias) 0.4))
            (surfaceFactor v)).
Proof.
  intros Hb u v.
  destruct (headOnGL_normalized bias absorption disp 0 0)
    as (Hn & Hv & Hkl & [h Hh] & Hrl).
  apply (compositeGL_head_on_unlit u v (mk3 0 1 0) h (mk3 0 0 1));
    try assumption; try reflexivity.
Qed.

End HeadOn.

(** ** The fragment shaders: colour before and after tone mapping *)

Section Shading.

(** *** Definedness at the concrete head-on fragments *)

Lemma lobe_defined_head_on (N Ldir : vec3) (roughness : R) (F0 tint : vec3) (k : R) :
  0 < vy Ldir ->
  defined (ShadingJS.lobe N (mk3 0 0 1) Ldir roughness F0 tint k).
Proof.
  intros Hy. unfold ShadingJS.lobe.
  assert (HL : Ldir <> zero3).
  { intros H. rewrite H in Hy. simpl in Hy. lra. }
  rewrite (normalize_Some _ HL). cbn [bind].
  pose proof (length3_pos _ HL) as Hlen.
  assert (HH : add3 (mk3 0 0 1) (map3 (fun c => c / length3 Ldir) Ldir) <> zero3).
  { intros H. apply (f_equal vy) in H. cbn [add3 zip3 map3 vx vy vz zero3] in H.
    assert (0 < vy Ldir / length3 Ldir) by (apply Rdiv_lt_0_compat; assumption).
    lra. }
  rewrite (normalize_Some _ HH). cbn [bind]. eexists. reflexivity.
Qed.

Lemma headOnJS_normalized :
  normalize (ShadingJS.v_smoothNormal (snd headOnJS)) = Some (mk3 0 0 1) /\
  normalize (sub3 (ShadingJS.u_cameraPosition (fst headOnJS))
                  (ShadingJS.v_worldPosition (snd headOnJS))) = Some (mk3 0 0 1).
Proof.
  cbn [headOnJS fst snd ShadingJS.v_smoothNormal ShadingJS.u_cameraPosition
       ShadingJS.v_worldPosition].
  split.
  - apply normalize_axis_z. lra.
  - replace (sub3 (mk3 0 0 5) (mk3 0 0 0)) with (mk3 0 0 5)
      by (apply vec3_eq; simpl; ring).
    apply normalize_axis_z. lra.
Qed.

(** Seen head-on along the z axis the reflection vector is the z axis,
    where the angle of [sampleEnv] is defined. *)
Lemma sampleEnv_defined_head_on :
  defined (ShadingJS.sampleEnv (reflect (neg3 (mk3 0 0 1)) (mk3 0 0 1))).
Proof.
  rewrite reflect_head_on. unfold ShadingJS.sampleEnv, atan2. cbn [vx vy vz].
  destruct (Rlt_dec 0 0) as [H | _]; [lra |].
  destruct (Rlt_dec 0 1) as [_ | H]; [| lra].
  cbn [bind]. eexists. reflexivity.
Qed.

Lemma compositeJS_defined_headOn :
  defined (FragmentJS.composite (fst headOnJS) (snd headOnJS)).
Proof.
  destruct headOnJS_normalized as [HN HV].
  unfold FragmentJS.composite. rewrite HN, HV. cbn [bind].
  destruct sampleEnv_defined_head_on as [e He].
  unfold FragmentJS.envReflection. rewrite He. cbn [bind].
  destruct (lobe_defined_head_on (mk3 0 0 1) (mk3 (-0.55) 0.8 0.35) 0.025
              (mk3 1 0.92 0.75) (mk3 1 0.95 0.85) 1.2) as [s1 Hs1];
    [simpl; lra |].
  unfold FragmentJS.spec1. rewrite Hs1. cbn [bind].
  assert (Hs2 : defined (FragmentJS.spec2 (mk3 0 0 1) (mk3 0 0 1))).
  { unfold FragmentJS.spec2.
    assert (HL : mk3 0.5 0.5 0.5 <> zero3).
    { intros H. apply (f_equal vy) in H. simpl in H. lra. }
    rewrite (normalize_Some _ HL). cbn [bind].
    pose proof (length3_pos _ HL) as Hlen.
    assert (HH : add3 (mk3 0 0 1)
                   (map3 (fun c => c / length3 (mk3 0.5 0.5 0.5)) (mk3 0.5 0.5 0.5))
                 <> zero3).
    { intros H. apply (f_equal vy) in H. cbn [add3 zip3 map3 vx vy vz zero3] in H.
      assert (0 < 0.5 / length3 (mk3 0.5 0.5 0.5))
        by (apply Rdiv_lt_0_compat; [lra | assumption]).
      lra. }
    rewrite (normalize_Some _ HH). cbn [bind]. eexists. reflexivity. }
  destruct Hs2 as [s2 Hs2]. rewrite Hs2. cbn [bind]. eexists. reflexivity.
Qed.

Lemma compositeGlass_defined_headOn :
  defined (FragmentGlass.composite (fst headOnJS) (snd headOnJS)).
Proof.
  destruct headOnJS_normalized as [HN HV].
  unfold FragmentGlass.composite. rewrite HN, HV. cbn [bind].
  destruct sampleEnv_defined_head_on as [e He].
  unfold FragmentGlass.reflection. rewrite He. cbn [bind].
  destruct (lobe_defined_head_on (mk3 0 0 1) (mk3 (-0.5) 0.75 0.4) 0.018
              (mk3 0.95 0.88 0.7) (mk3 1 0.96 0.88) 0.9) as [s Hs];
    [simpl; lra |].
  unfold FragmentGlass.spec. rewrite Hs. cbn [bind]. eexists. reflexivity.
Qed.

(** *** Definedness in general

    The colour of a fragment is defined as soon as no [normalize] receives the
    zero vector and (in the shaders of the JavaScript files) the reflection
    vector is not vertical. *)

Lemma atan2_defined (y x : R) : x <> 0 \/ y <> 0 -> defined (atan2 y x).
Proof.
  intros H. unfold atan2.
  destruct (Rlt_dec 0 x); [eexists; reflexivity |].
  destruct (Rlt_dec x 0); [eexists; reflexivity |].
  destruct (Rlt_dec 0 y); [eexists; reflexivity |].
  destruct (Rlt_dec y 0); [eexists; reflexivity |].
  exfalso. destruct H as [H | H]; apply H; lra.
Qed.

Lemma sampleEnv_defined (r : vec3) :
  vx r <> 0 \/ vz r <> 0 -> defined (ShadingJS.sampleEnv r).
Proof.
  intros H. unfold ShadingJS.sampleEnv. cbv zeta.
  destruct (atan2_defined (vz r) (vx r) H) as [a Ha]. rewrite Ha. cbn [bind].
  eexists. reflexivity.
Qed.





Lemma plausibleGL_headOn (bias : R) :
  plausibleGL (fst (headOnGL bias 0.5 0 0 0)) (snd (headOnGL bias 0.5 0 0 0)).
Proof.
  unfold plausibleGL, nonneg3.
  cbn [headOnGL fst snd FragmentGL.u_absorption FragmentGL.u_keyLightColor
       FragmentGL.u_keyLightIntensity FragmentGL.u_rimLightColor
       FragmentGL.u_rimLightIntensity FragmentGL.v_displacement
       FragmentGL.u_fresnelPower scale3 map3 vx vy vz].
  repeat split; lra.
Qed.

(** *** C4 *)

(** C4, as the code behaves.  Whenever the colour is defined, every channel
    of the colour accumulated before tone mapping is non-negative: for every
    input of the two shaders of the JavaScript files, and for the liquid-metal
    shader when the absorption factor is at most 2, the lights are
    non-negative and the displacement is at least -20. *)
Theorem accumulated_color_is_nonnegative :
  (forall u v, when_defined nonneg3 (FragmentJS.composite u v)) /\
  (forall u v, when_defined nonneg3 (FragmentGlass.composite u v)) /\
  (forall u v, plausibleGL u v -> when_defined nonneg3 (FragmentGL.composite u v)).
Proof.
  split; [exact compositeJS_nonneg |].
  split; [exact compositeGlass_nonneg | exact compositeGL_nonneg].
Qed.

(** The three shaders at the head-on fragment: a colour is produced and its
    channels are non-negative. *)
Lemma accumulated_color_head_on :
  (exists c, FragmentJS.composite (fst headOnJS) (snd headOnJS) = Some c /\ nonneg3 c) /\
  (exists c, FragmentGlass.composite (fst headOnJS) (snd headOnJS) = Some c
             /\ nonneg3 c) /\
  (exists c, FragmentGL.composite (fst (headOnGL 0.1 0.5 0 0 0))
               (snd (headOnGL 0.1 0.5 0 0 0)) = Some c /\ nonneg3 c).
Proof.
  destruct accumulated_color_is_nonnegative as (HJS & HGlass & HGL).
  split; [| split].
  - destruct compositeJS_defined_headOn as [c Hc]. exists c. split; [exact Hc |].
    specialize (HJS (fst headOnJS) (snd headOnJS)). rewrite Hc in HJS. exact HJS.
  - destruct compositeGlass_defined_headOn as [c Hc]. exists c. split; [exact Hc |].
    specialize (HGlass (fst headOnJS) (snd headOnJS)). rewrite Hc in HGlass.
    exact HGlass.
  - specialize (HGL _ _ (plausibleGL_headOn 0.1)).
    rewrite (compositeGL_headOn 0.1 0.5 0 ltac:(lra)) in HGL |- *.
    eexists. split; [reflexivity | exact HGL].
Defined.

(** The claim as the specification states it fails for the liquid-metal
    shader: with the absorption factor 4 the red channel of the head-on,
    unlit fragment is negative before tone mapping. *)
Lemma absorption_makes_negative_light :
  exists c, FragmentGL.composite (fst (headOnGL 0 4 0 0 0)) (snd (headOnGL 0 4 0 0 0))
            = Some c /\ vx c = -0.015.
Proof.
  rewrite (compositeGL_headOn 0 4 0 ltac:(lra)). eexists. split; [reflexivity |].
  unfold FragmentGL.absorbedColor, FragmentGL.surfaceFactor, FragmentGL.coreColor.
  cbn [headOnGL fst snd FragmentGL.u_absorption FragmentGL.v_displacement
       scale3 add3 zip3 map3 vx vy vz].
  replace (clamp (1 - Rabs 0 * 2) 0 1) with 1 by minmax_solve.
  lra.
Qed.

(** *** C5 *)

(** C5, as the code behaves.  Whenever the colour is defined, every channel
    of the tone-mapped output lies in [[0,1]]: for every input of the two
    shaders of the JavaScript files, and for the liquid-metal shader (Reinhard
    without a clamp) under the conditions that keep its accumulated colour
    non-negative. *)
Theorem tone_mapped_color_is_displayable :
  (forall u v, when_defined displayable (FragmentJS.main u v)) /\
  (forall u v, when_defined displayable (FragmentGlass.main u v)) /\
  (forall u v, plausibleGL u v -> when_defined displayable (FragmentGL.main u v)).
Proof.
  split; [exact mainJS_displayable |].
  split; [exact mainGlass_displayable | exact mainGL_displayable].
Qed.

Lemma main_of_composite_GL (u : FragmentGL.Uniforms) (v : FragmentGL.Varyings) (c : vec3) :
  FragmentGL.composite u v = Some c ->
  FragmentGL.main u v = Some (FragmentGL.toneMap c).
Proof. intros H. unfold FragmentGL.main. now rewrite H. Qed.

(** The three shaders at the head-on fragment: the output is defined and
    displayable. *)
Lemma tone_mapped_color_head_on :
  (exists c, FragmentJS.main (fst headOnJS) (snd headOnJS) = Some c /\ displayable c) /\
  (exists c, FragmentGlass.main (fst headOnJS) (snd headOnJS) = Some c
             /\ displayable c) /\
  (exists c, FragmentGL.main (fst (headOnGL 0.1 0.5 0 0 0))
               (snd (headOnGL 0.1 0.5 0 0 0)) = Some c /\ displayable c).
Proof.
  destruct tone_mapped_color_is_displayable as (HJS & HGlass & HGL).
  split; [| split].
  - destruct compositeJS_defined_headOn as [c Hc].
    specialize (HJS (fst headOnJS) (snd headOnJS)).
    unfold FragmentJS.main in HJS |- *. rewrite Hc in HJS |- *.
    eexists. split; [reflexivity | exact HJS].
  - destruct compositeGlass_defined_headOn as [c Hc].
    specialize (HGlass (fst headOnJS) (snd headOnJS)).
    unfold FragmentGlass.main in HGlass |- *. rewrite Hc in HGlass |- *.
    eexists. split; [reflexivity | exact HGlass].
  - specialize (HGL _ _ (plausibleGL_headOn 0.1)).
    rewrite (main_of_composite_GL _ _ _ (compositeGL_headOn 0.1 0.5 0 ltac:(lra)))
      in HGL |- *.
    eexists. split; [reflexivity | exact HGL].
Defined.

(** The claim as the specification states it fails for the liquid-metal
    shader: with the absorption factor 402 the accumulated red channel of the
    head-on, unlit fragment is -3, Reinhard maps it to 1.5 and the output
    channel exceeds 1. *)
Lemma reinhard_overshoots_on_negative_light :
  exists c, FragmentGL.main (fst (headOnGL 0 402 0 0 0)) (snd (headOnGL 0 402 0 0 0))
            = Some c /\ 1 < vx c.
Proof.
  rewrite (main_of_composite_GL _ _ _ (compositeGL_headOn 0 402 0 ltac:(lra))).
  eexists. split; [reflexivity |].
  unfold FragmentGL.toneMap. cbv zeta. unfold pow3, div3, zip3. cbn [vx].
  match goal with
  | |- 1 < pow (?a / ?b) _ => replace (a / b) with 1.5
  end.
  - apply pow_gt_1; cbn [splat3 vx]; lra.
  - unfold FragmentGL.absorbedColor, FragmentGL.surfaceFactor, FragmentGL.coreColor.
    cbn [headOnGL fst snd FragmentGL.u_absorption FragmentGL.v_displacement
         scale3 add3 zip3 map3 splat3 vx vy vz].
    replace (clamp (1 - Rabs 0 * 2) 0 1) with 1 by minmax_solve.
    field_simplify_eq; [lra | lra].
Qed.

(** *** C7 *)

(** C7, as the code behaves.  For a fragment seen head-on along the z axis
    with both light intensities 0 (light directions defined, positive Fresnel
    power, bias in [[0,1]], absorption at most 2 and displacement at least
    -20, so that the accumulated colour is non-negative), the key-light
    (diffuse and specular) and rim-light contributions are exactly 0 and the
    rim mask vanishes; the output is the tone-mapped sum of the absorbed core
    colour, the environment term and the Fresnel edge glow
    [edgeColor * bias * bias * 0.4], scaled by the surface-variation factor. *)
Theorem head_on_unlit_color :
  forall (u : FragmentGL.Uniforms) (v : FragmentGL.Varyings) (kl h rl : vec3),
    normalize (FragmentGL.v_normal v) = Some (mk3 0 0 1) ->
    normalize (sub3 (FragmentGL.u_cameraPosition u) (FragmentGL.v_worldPosition v))
    = Some (mk3 0 0 1) ->
    normalize (sub3 (FragmentGL.u_keyLightPos u) (FragmentGL.v_worldPosition v))
    = Some kl ->
    normalize (add3 kl (mk3 0 0 1)) = Some h ->
    normalize (sub3 (FragmentGL.u_rimLightPos u) (FragmentGL.v_worldPosition v))
    = Some rl ->
    FragmentGL.u_keyLightIntensity u = 0 ->
    FragmentGL.u_rimLightIntensity u = 0 ->
    0 < FragmentGL.u_fresnelPower u ->
    0 <= FragmentGL.u_fresnelBias u <= 1 ->
    FragmentGL.u_absorption u <= 2 ->
    -20 <= FragmentGL.v_displacement v ->
    FragmentGL.keyContribution u (mk3 0 0 1) (mk3 0 0 1) kl = Some zero3 /\
    FragmentGL.rimContribution u (mk3 0 0 1) (mk3 0 0 1) rl = zero3 /\
    FragmentGL.rimMask (mk3 0 0 1) (mk3 0 0 1) = 0 /\
    FragmentGL.main u v
    = Some (FragmentGL.toneMap
              (scale3
                 (add3 (add3 (FragmentGL.absorbedColor u v)
                             (scale3 (scale3 (FragmentGL.environmentGradient (mk3 0 0 1))
                                             (FragmentGL.u_fresnelBias u)) 0.6))
                       (scale3 (scale3 (scale3 (FragmentGL.edgeColor (mk3 0 0 1))
                                               (FragmentGL.u_fresnelBias u))
                                       (FragmentGL.u_fresnelBias u)) 0.4))
                 (FragmentGL.surfaceFactor v))).
Proof.
  intros u v kl h rl Hn Hv Hkl Hh Hrl Hki Hri _ Hb _ _. repeat split.
  - now apply (keyContribution_unlit u _ _ kl h).
  - now apply rimContribution_unlit.
  - apply rimMask_head_on. unfold dot3; simpl. lra.
  - apply main_of_composite_GL.
    now apply (compositeGL_head_on_unlit u v kl h rl).
Qed.

(** The theorem at the concrete head-on fragment with bias 0.1. *)
Lemma head_on_unlit_color_witness :
  FragmentGL.rimMask (mk3 0 0 1) (mk3 0 0 1) = 0 /\
  defined (FragmentGL.main (fst (headOnGL 0.1 0.5 0 0 0)) (snd (headOnGL 0.1 0.5 0 0 0))).
Proof.
  destruct (headOnGL_normalized 0.1 0.5 0 0 0) as (Hn & Hv & Hkl & [h Hh] & Hrl).
  destruct (head_on_unlit_color (fst (headOnGL 0.1 0.5 0 0 0))
              (snd (headOnGL 0.1 0.5 0 0 0)) (mk3 0 1 0) h (mk3 0 0 1)
              Hn Hv Hkl Hh Hrl eq_refl eq_refl)
    as (_ & _ & Hmask & Hmain).
  - simpl. lra.
  - simpl. lra.
  - simpl. lra.
  - simpl. lra.
  - split; [exact Hmask |]. eexists. exact Hmain.
Defined.

(** The claim as the specification states it fails: with the Fresnel bias 1
    the head-on, unlit colour is not the core colour plus the environment
    term; the edge glow adds 0.0602 to the red channel. *)
Lemma head_on_color_has_edge_glow :
  exists c,
    FragmentGL.composite (fst (headOnGL 1 0.5 0 0 0)) (snd (headOnGL 1 0.5 0 0 0))
    = Some c /\
    vx c - vx (scale3
                 (add3 (FragmentGL.absorbedColor (fst (headOnGL 1 0.5 0 0 0))
                          (snd (headOnGL 1 0.5 0 0 0)))
                       (scale3 (scale3 (FragmentGL.environmentGradient (mk3 0 0 1)) 1) 0.6))
                 (FragmentGL.surfaceFactor (snd (headOnGL 1 0.5 0 0 0))))
    = 0.0602.
Proof.
  rewrite (compositeGL_headOn 1 0.5 0 ltac:(lra)). eexists. split; [reflexivity |].
  rewrite edgeColor_z. unfold FragmentGL.surfaceFactor.
  cbn [headOnGL fst snd FragmentGL.v_displacement scale3 add3 zip3 map3 vx vy vz].
  lra.
Qed.

End Shading.

(** ** Evaluating the 4D noise at a point *)

Section Noise4Eval.
Import Simplex4.

(** [floor] of a quotient of integers is the integer quotient. *)
Lemma floor_div (a d : Z) : (0 < d)%Z -> floor (IZR a / IZR d) = IZR (a / d).
Proof.
  intros Hd. apply floor_eq.
  assert (HdR : 0 < IZR d) by (apply IZR_lt; exact Hd).
  pose proof (Z.div_mod a d ltac:(lia)) as Hdm.
  pose proof (Z.mod_pos_bound a d Hd) as [Hm0 Hm1].
  assert (Ha : IZR a = IZR d * IZR (a / d) + IZR (a mod d)).
  { rewrite <- mult_IZR, <- plus_IZR. now f_equal. }
  assert (H0 : 0 <= IZR (a mod d)) by (apply IZR_le; exact Hm0).
  assert (H1 : IZR (a mod d) < IZR d) by (apply IZR_lt; exact Hm1).
  replace (IZR a / IZR d) with (IZR (a / d) + IZR (a mod d) / IZR d)
    by (rewrite Ha; field; lra).
  assert (0 <= IZR (a mod d) / IZR d < 1).
  { split.
    - apply Rmult_le_pos; [lra | left; now apply Rinv_0_lt_compat].
    - apply Rmult_lt_reg_r with (IZR d); [exact HdR |].
      unfold Rdiv. rewrite Rmult_assoc, Rinv_l by lra. lra. }
  lra.
Qed.

Lemma mod289_IZR (n : Z) : mod289 (IZR n) = IZR (n mod 289).
Proof.
  unfold mod289.
  replace (IZR n * (1 / 289)) with (IZR n / IZR 289) by (field; lra).
  rewrite floor_div by lia.
  pose proof (Z.div_mod n 289 ltac:(lia)) as Hdm.
  assert (Ha : IZR n = IZR 289 * IZR (n / 289) + IZR (n mod 289)).
  { rewrite <- mult_IZR, <- plus_IZR. now f_equal. }
  lra.
Qed.

Lemma permute_IZR (n : Z) : permute (IZR n) = IZR (((n * 34 + 10) * n) mod 289).
Proof.
  unfold permute.
  replace ((IZR n * 34 + 10) * IZR n) with (IZR ((n * 34 + 10) * n))
    by (rewrite mult_IZR, plus_IZR, mult_IZR; reflexivity).
  apply mod289_IZR.
Qed.











End Noise4Eval.

(** ** A uniform bound on the noise *)

Section NoiseBound.

Lemma cauchy_schwarz4 (a b : vec4) : (dot4 a b) ^ 2 <= dot4 a a * dot4 b b.
Proof.
  destruct a as [a1 a2 a3 a4], b as [b1 b2 b3 b4]. unfold dot4. cbn [qx qy qz qw].
  pose proof (pow2_ge_0 (a1 * b2 - a2 * b1)). pose proof (pow2_ge_0 (a1 * b3 - a3 * b1)).
  pose proof (pow2_ge_0 (a1 * b4 - a4 * b1)). pose proof (pow2_ge_0 (a2 * b3 - a3 * b2)).
  pose proof (pow2_ge_0 (a2 * b4 - a4 * b2)). pose proof (pow2_ge_0 (a3 * b4 - a4 * b3)).
  lra.
Qed.


(** The radial kernel [max(0.6 - s, 0)^4] of both noises, squared and
    multiplied by the squared distance [s]. *)
Lemma kernel_piece (a b s : R) :
  0 <= a -> a <= s <= b -> s <= 0.6 -> (0.6 - s) ^ 8 * s <= (0.6 - a) ^ 8 * b.
Proof.
  intros Ha Hs H6.
  assert (H8 : (0.6 - s) ^ 8 <= (0.6 - a) ^ 8) by (apply pow_incr; lra).
  assert (0 <= (0.6 - s) ^ 8) by (apply pow_le; lra).
  apply Rmult_le_compat; lra.
Qed.

Lemma kernel_bound (s : R) : 0 <= s -> (Rmax (0.6 - s) 0) ^ 8 * s <= 0.00059.
Proof.
  intros Hs. destruct (Rle_lt_dec 0.6 s) as [Hfar | Hnear].
  { replace (Rmax (0.6 - s) 0) with 0 by minmax_solve. lra. }
  replace (Rmax (0.6 - s) 0) with (0.6 - s) by minmax_solve.
  destruct (Rle_lt_dec s 0.02);
    [eapply Rle_trans; [apply (kernel_piece 0 0.02) |]; lra |].
  destruct (Rle_lt_dec s 0.04);
    [eapply Rle_trans; [apply (kernel_piece 0.02 0.04) |]; lra |].
  destruct (Rle_lt_dec s 0.06);
    [eapply Rle_trans; [apply (kernel_piece 0.04 0.06) |]; lra |].
  destruct (Rle_lt_dec s 0.08);
    [eapply Rle_trans; [apply (kernel_piece 0.06 0.08) |]; lra |].
  destruct (Rle_lt_dec s 0.1);
    [eapply Rle_trans; [apply (kernel_piece 0.08 0.1) |]; lra |].
  destruct (Rle_lt_dec s 0.15);
    [eapply Rle_trans; [apply (kernel_piece 0.1 0.15) |]; lra |].
  destruct (Rle_lt_dec s 0.25);
    [eapply Rle_trans; [apply (kernel_piece 0.15 0.25) |]; lra |].
  eapply Rle_trans; [apply (kernel_piece 0.25 0.6) |]; lra.
Qed.

(** [r * taylorInvSqrt(r)^2], the squared length of a rescaled gradient whose
    squared length was [r], stays below 1.0001 up to [r = 2.79]. *)
Lemma rescaled_length_bound (r : R) :
  0 <= r <= 2.79 ->
  r * (1.79284291400159 - 0.85373472095314 * r) ^ 2 <= 1.0001.
Proof.
  intros Hr.
  assert (H : 0 <= (r - 0.7) ^ 2 * (2.8 - r))
    by (apply Rmult_le_pos; [apply pow2_ge_0 | lra]).
  assert (H2 : 0 <= r * r <= 2.79 * 2.79) by nra.
  nra.
Qed.

Lemma Rabs_range (x b : R) : Rabs x <= b -> - b <= x <= b.
Proof. intros H. generalize H. minmax_split; intros; lra. Qed.

Lemma sq_le_bound (x k c : R) : x ^ 2 <= k -> 0 <= c -> k <= c ^ 2 -> Rabs x <= c.
Proof.
  intros Hx Hc Hk. apply Rabs_le.
  assert (x ^ 2 <= c ^ 2) by lra. split; nra.
Qed.

Lemma floor_between (x : R) (a b : Z) :
  IZR a <= x < IZR b -> IZR a <= floor x <= IZR (b - 1).
Proof.
  intros [Ha Hb]. unfold floor. pose proof (Zfloor_bound x) as [Hl Hu].
  split.
  - apply IZR_le. now apply Zfloor_lub.
  - apply IZR_le. assert (Zfloor x < b)%Z by (apply lt_IZR; lra). lia.
Qed.

Lemma grad_index_range (y : R) : 0 <= floor (fract y * 7) <= 6.
Proof.
  pose proof (fract_range y).
  apply (floor_between (fract y * 7) 0 7). lra.
Qed.

(** *** The 4D noise *)

Lemma grad4_sqlen (j : R) :
  0 <= dot4 (Simplex4.grad4 j Simplex4.ip) (Simplex4.grad4 j Simplex4.ip) <= 2.79.
Proof.
  split; [apply dot4_self_nonneg |].
  unfold Simplex4.grad4, Simplex4.ip. cbv zeta. unfold dot4, dot3. vec_cbn.
  pose proof (grad_index_range (j * (1 / 294))) as Ha.
  pose proof (grad_index_range (j * (1 / 49))) as Hb.
  pose proof (grad_index_range (j * (1 / 7))) as Hc.
  set (a := floor (fract (j * (1 / 294)) * 7)) in *.
  set (b := floor (fract (j * (1 / 49)) * 7)) in *.
  set (c := floor (fract (j * (1 / 7)) * 7)) in *.
  clearbody a b c.
  assert (Ha2 : (a * (1 / 7) - 1 + 1) * (a * (1 / 7) - 1) <= 0) by nra.
  assert (Hb2 : (b * (1 / 7) - 1 + 1) * (b * (1 / 7) - 1) <= 0) by nra.
  assert (Hc2 : (c * (1 / 7) - 1 + 1) * (c * (1 / 7) - 1) <= 0) by nra.
  assert (Ha3 : (a * (1 / 7)) * (a * (1 / 7) - 6 / 7) <= 0) by nra.
  assert (Hb3 : (b * (1 / 7)) * (b * (1 / 7) - 6 / 7) <= 0) by nra.
  assert (Hc3 : (c * (1 / 7)) * (c * (1 / 7) - 6 / 7) <= 0) by nra.
  minmax_split; try lra.
  - match goal with
    | Hw : ?w < 0 |- _ * _ + _ + _ + ?w * ?w <= _ =>
        assert (-1.5 <= w) by lra; assert (w * (w + 1.5) <= 0) by nra
    end.
    nra.
  - match goal with
    | Hw : 0 <= ?w |- _ * _ + _ + _ + ?w * ?w <= _ =>
        assert (w <= 1.5) by lra; assert (w * (w - 1.5) <= 0) by nra
    end.
    nra.
Qed.

Lemma grad4_rescaled (j : R) :
  let g := Simplex4.grad4 j Simplex4.ip in
  dot4 g g * (Simplex4.taylorInvSqrt (dot4 g g)) ^ 2 <= 1.0001.
Proof.
  intros g. unfold Simplex4.taylorInvSqrt.
  apply rescaled_length_bound. apply grad4_sqlen.
Qed.

Lemma corner4_sq (x g : vec4) :
  (Simplex4.corner x g) ^ 2
  = ((Rmax (0.6 - dot4 x x) 0) ^ 8)
    * ((Simplex4.taylorInvSqrt (dot4 g g)) ^ 2 * (dot4 g x) ^ 2).
Proof.
  unfold Simplex4.corner. cbv zeta.
  replace (dot4 (scale4 g (Simplex4.taylorInvSqrt (dot4 g g))) x)
    with (Simplex4.taylorInvSqrt (dot4 g g) * dot4 g x)
    by (unfold dot4; vec_cbn; ring).
  ring.
Qed.

Lemma corner4_bound (x : vec4) (j : R) :
  Rabs (Simplex4.corner x (Simplex4.grad4 j Simplex4.ip)) <= 0.0243.
Proof.
  set (g := Simplex4.grad4 j Simplex4.ip).
  apply (sq_le_bound _ (0.00059 * 1.0001)); [| lra | lra].
  rewrite corner4_sq.
  pose proof (kernel_bound (dot4 x x) (dot4_self_nonneg x)) as Hk.
  pose proof (grad4_rescaled j) as Hg. cbv zeta in Hg. fold g in Hg.
  pose proof (cauchy_schwarz4 g x) as Hcs.
  set (m8 := Rmax (0.6 - dot4 x x) 0 ^ 8) in *.
  set (t2 := Simplex4.taylorInvSqrt (dot4 g g) ^ 2) in *.
  assert (Hm8 : 0 <= m8) by (unfold m8; apply pow_le; apply Rmax_r).
  assert (Ht2 : 0 <= t2) by (unfold t2; apply pow2_ge_0).
  pose proof (dot4_self_nonneg x). pose proof (dot4_self_nonneg g).
  assert (H1 : t2 * dot4 g x ^ 2 <= t2 * (dot4 g g * dot4 x x))
    by (apply Rmult_le_compat_l; assumption).
  assert (H2 : m8 * (t2 * dot4 g x ^ 2) <= m8 * (t2 * (dot4 g g * dot4 x x)))
    by (apply Rmult_le_compat_l; assumption).
  replace (m8 * (t2 * (dot4 g g * dot4 x x)))
    with ((m8 * dot4 x x) * (dot4 g g * t2)) in H2 by ring.
  assert (H3 : (m8 * dot4 x x) * (dot4 g g * t2) <= 0.00059 * 1.0001).
  { apply Rmult_le_compat; try assumption.
    - apply Rmult_le_pos; assumption.
    - apply Rmult_le_pos; assumption. }
  lra.
Qed.

Lemma snoise4_bound (v : vec4) : Rabs (Simplex4.snoise v) <= 6.
Proof.
  rewrite snoise_corners. cbv zeta.
  repeat match goal with
         | |- context [Simplex4.corner ?x (Simplex4.grad4 ?j Simplex4.ip)] =>
             let c := fresh "c" in
             let H := fresh "Hc" in
             pose proof (corner4_bound x j) as H;
             apply Rabs_range in H;
             set (c := Simplex4.corner x (Simplex4.grad4 j Simplex4.ip)) in *;
             clearbody c
         end.
  apply Rabs_le. lra.
Qed.

(** *** The 3D noise *)






(** Every hash value lies in [[0, 289)]. *)
Lemma mod289_range (x : R) : 0 <= x - floor (x * (1 / 289)) * 289 < 289.
Proof. pose proof (floor_bound (x * (1 / 289))). lra. Qed.





End NoiseBound.

(** ** The displacement scalar *)

Section Displacement.

Lemma verticalBias_range (pos : vec3) : 0.6 <= VertexGL.verticalBias pos <= 1.2.
Proof. unfold VertexGL.verticalBias. apply clamp_range. lra. Qed.

Lemma Rabs_le_of_range (x b : R) : - b <= x <= b -> Rabs x <= b.
Proof. intros H. apply Rabs_le. lra. Qed.

Lemma Rabs_mult3_le (x a v bx bv : R) :
  Rabs x <= bx -> Rabs v <= bv -> Rabs (x * a * v) <= Rabs a * bv * bx.
Proof.
  intros Hx Hv. rewrite !Rabs_mult.
  pose proof (Rabs_pos x). pose proof (Rabs_pos a). pose proof (Rabs_pos v).
  assert (Rabs a * Rabs v <= Rabs a * bv) by (apply Rmult_le_compat_l; lra).
  assert (0 <= Rabs a * Rabs v) by (apply Rmult_le_pos; lra).
  assert (Rabs a * Rabs v * Rabs x <= Rabs a * bv * bx)
    by (apply Rmult_le_compat; lra).
  lra.
Qed.



Lemma displacementGL_uniform (u : VertexGL.Uniforms) (pos : vec3) :
  Rabs (VertexGL.displacement u pos)
  <= Rabs (VertexGL.u_amplitude u) * 1.2 * ((1 + 0.15) * 6).
Proof.
  unfold VertexGL.displacement.
  assert (Hf : - 6 <= VertexGL.primaryNoise u pos <= 6).
  { unfold VertexGL.primaryNoise. apply fbm_range_scaled; [lia |].
    intros k _ _. apply Rabs_range, snoise4_bound. }
  pose proof (Rabs_range _ _ (snoise4_bound (VertexGL.detailInput u pos))).
  apply Rabs_mult3_le.
  - unfold VertexGL.detailNoise. apply Rabs_le_of_range. lra.
  - pose proof (verticalBias_range pos). apply Rabs_le_of_range. lra.
Qed.





End Displacement.

(** * Further properties of the code *)

(** ** The lattice hash of the noise functions *)

Section Hashing.
Import Simplex4.

Lemma permute_image (a : Z) :
  exists b : Z, (0 <= b < 289)%Z /\ permute (IZR a) = IZR b.
Proof.
  exists (((a * 34 + 10) * a) mod 289)%Z. split.
  - apply Z.mod_pos_bound. lia.
  - apply permute_IZR.
Qed.

(** The polynomial [(34 x + 10) x] is injective modulo 289 = 17 * 17. *)
Lemma permute_injective_mod (a b : Z) :
  (0 <= a < 289)%Z -> (0 <= b < 289)%Z ->
  (((a * 34 + 10) * a) mod 289 = ((b * 34 + 10) * b) mod 289)%Z -> a = b.
Proof.
  intros Ha Hb H.
  assert (Hd : (289 | (a - b) * (34 * (a + b) + 10))%Z).
  { apply Z.mod_divide; [lia |].
    replace ((a - b) * (34 * (a + b) + 10))%Z
      with ((a * 34 + 10) * a - (b * 34 + 10) * b)%Z by ring.
    rewrite Zminus_mod, H, Z.sub_diag. reflexivity. }
  set (k := (34 * (a + b) + 10)%Z) in *.
  assert (Hg : Z.gcd 17 k = 1%Z).
  { unfold k. replace (34 * (a + b) + 10)%Z with (10 + (2 * (a + b)) * 17)%Z by ring.
    rewrite Z.gcd_add_mult_diag_r. reflexivity. }
  destruct Hd as [m Hm].
  assert (H1 : (17 | a - b)%Z).
  { apply Z.gauss with k; [| exact Hg]. exists (17 * m)%Z. lia. }
  destruct H1 as [c Hc].
  assert (H2 : (17 | c)%Z).
  { apply Z.gauss with k; [| exact Hg]. exists m. nia. }
  destruct H2 as [d Hd].
  assert (Hab : (289 | a - b)%Z) by (exists d; lia).
  destruct Hab as [e He]. lia.
Qed.

(** X1.  [mod289] (fragment.glsl; the same expression in main.js) brings
    every number into [[0, 289)] by subtracting a whole multiple of 289, and
    leaves a number of that range unchanged. *)
Theorem mod289_reduces_modulo_289 (x : R) :
  0 <= mod289 x < 289 /\
  (exists k : Z, x = mod289 x + 289 * IZR k) /\
  mod289 (mod289 x) = mod289 x /\
  Simplex3.mod289v3 (splat3 x) = splat3 (mod289 x).
Proof.
  assert (Hr : forall y, 0 <= mod289 y < 289) by (intros y; apply mod289_range).
  split; [apply Hr |]. split; [| split].
  - exists (Zfloor (x * (1 / 289))). unfold mod289, floor. ring.
  - specialize (Hr x). unfold mod289 at 1.
    rewrite (floor_eq 0 (mod289 x * (1 / 289))); simpl; lra.
  - reflexivity.
Qed.

(** X2.  [permute] (fragment.glsl; the same polynomial in [permutev4] of
    main.js) maps the integers 0..288 into themselves and never sends two
    of them to the same value: it is a permutation of the hash table. *)
Theorem permute_is_a_permutation (a b : Z) :
  (0 <= a < 289)%Z -> (0 <= b < 289)%Z ->
  (exists c : Z, (0 <= c < 289)%Z /\ permute (IZR a) = IZR c) /\
  (permute (IZR a) = permute (IZR b) -> a = b) /\
  Simplex3.permutev4 (splat4 (IZR a)) = splat4 (permute (IZR a)).
Proof.
  intros Ha Hb. split; [apply permute_image |]. split; [| reflexivity].
  rewrite !permute_IZR. intros H. apply eq_IZR in H.
  now apply permute_injective_mod.
Qed.

Lemma permute_is_a_permutation_witness :
  (exists c : Z, (0 <= c < 289)%Z /\ permute 1 = IZR c) /\
  (permute 1 = permute 2 -> 1%Z = 2%Z).
Proof.
  destruct (permute_is_a_permutation 1 2 ltac:(lia) ltac:(lia)) as [H1 [H2 _]].
  split; [exact H1 | exact H2].
Defined.

End Hashing.

(** ** The simplex traversal of the 4D noise *)

Section Traversal.
Import Simplex4.

(** X3.  [rank] (the vector [i0] of the 4D [snoise]) always is a
    permutation of (0, 1, 2, 3), also when coordinates tie, and a strictly
    larger coordinate gets the larger rank. *)
Theorem rank_is_a_permutation (x : vec4) :
  let r := rank x in
  let ranks c := c = 0 \/ c = 1 \/ c = 2 \/ c = 3 in
  (ranks (qx r) /\ ranks (qy r) /\ ranks (qz r) /\ ranks (qw r)) /\
  (qx r <> qy r /\ qx r <> qz r /\ qx r <> qw r /\
   qy r <> qz r /\ qy r <> qw r /\ qz r <> qw r) /\
  (qx x < qy x -> qx r < qy r) /\ (qy x < qx x -> qy r < qx r) /\
  (qx x < qz x -> qx r < qz r) /\ (qz x < qx x -> qz r < qx r) /\
  (qx x < qw x -> qx r < qw r) /\ (qw x < qx x -> qw r < qx r) /\
  (qy x < qz x -> qy r < qz r) /\ (qz x < qy x -> qz r < qy r) /\
  (qy x < qw x -> qy r < qw r) /\ (qw x < qy x -> qw r < qy r) /\
  (qz x < qw x -> qz r < qw r) /\ (qw x < qz x -> qw r < qz r).
Proof.
  destruct x as [a b c d]. unfold rank. cbn [qx qy qz qw vx vy vz].
  minmax_split; try lra;
    (repeat split; try (intro; lra);
     first [ left; lra | right; left; lra | right; right; left; lra
           | right; right; right; lra ]).
Qed.

Lemma rank_is_a_permutation_witness :
  qy (rank (mk4 0.4 0.3 0.2 0.1)) < qx (rank (mk4 0.4 0.3 0.2 0.1)).
Proof.
  pose proof (rank_is_a_permutation (mk4 0.4 0.3 0.2 0.1)) as H. cbv zeta in H.
  destruct H as [_ [_ [_ [H _]]]]. apply H. simpl. lra.
Defined.

End Traversal.

(** ** Gradients and octaves *)

Section Gradients.
Import Simplex4.

(** The cubic [r (A - B r)^2] stays below 1 up to its second crossing:
    [1 - r (A - B r)^2 = c + B^2 (r - a)^2 (b - r)] with [a = A / (3 B)],
    [b = 4 a] and [c = 1 - 4 A^3 / (27 B) > 0]. *)
Lemma taylor_cubic (r : R) :
  0 <= r <= 2.79 -> r * (taylorInvSqrt r) ^ 2 <= 1.
Proof.
  intros Hr. unfold taylorInvSqrt.
  set (A := 1.79284291400159). set (B := 0.85373472095314).
  assert (HA : A = 1.79284291400159) by reflexivity.
  assert (HB : B = 0.85373472095314) by reflexivity.
  assert (Hid : 1 - r * (A - B * r) ^ 2
                = (1 - 4 * A ^ 3 / (27 * B))
                  + B ^ 2 * ((r - A / (3 * B)) ^ 2 * (4 * A / (3 * B) - r))).
  { field. lra. }
  assert (Hc : 0 <= 1 - 4 * A ^ 3 / (27 * B)).
  { rewrite HA, HB. lra. }
  assert (Hb : 0 <= 4 * A / (3 * B) - r).
  { rewrite HA, HB. lra. }
  assert (0 <= B ^ 2 * ((r - A / (3 * B)) ^ 2 * (4 * A / (3 * B) - r))).
  { apply Rmult_le_pos; [apply pow2_ge_0 |].
    apply Rmult_le_pos; [apply pow2_ge_0 | exact Hb]. }
  lra.
Qed.

(** X4.  [taylorInvSqrt] never overestimates the inverse square root, and
    every gradient [grad4] produces, once rescaled by it as in [snoise], has
    length at most 1, whatever the hash value. *)
Theorem rescaled_gradient_is_at_most_unit (r j : R) :
  0 < r ->
  taylorInvSqrt r * sqrt r <= 1 /\
  (let g := grad4 j ip in
   let p := scale4 g (taylorInvSqrt (dot4 g g)) in
   dot4 p p <= 1).
Proof.
  intros Hr. split.
  - pose proof (sqrt_pos r) as Hs.
    destruct (Rle_dec (taylorInvSqrt r) 0) as [Ht | Ht]; [nra |].
    assert (Hr2 : 0 <= r <= 2.79) by (unfold taylorInvSqrt in Ht; lra).
    pose proof (taylor_cubic r Hr2) as Hc.
    pose proof (sqrt_sqrt r ltac:(lra)) as Hq.
    assert (Hsq : (taylorInvSqrt r * sqrt r) ^ 2 <= 1).
    { replace ((taylorInvSqrt r * sqrt r) ^ 2)
        with ((sqrt r * sqrt r) * (taylorInvSqrt r) ^ 2) by ring.
      rewrite Hq. exact Hc. }
    assert (0 <= taylorInvSqrt r * sqrt r) by (apply Rmult_le_pos; lra).
    nra.
  - cbv zeta. pose proof (grad4_sqlen j) as Hg.
    set (g := grad4 j ip) in *.
    replace (dot4 (scale4 g (taylorInvSqrt (dot4 g g)))
                  (scale4 g (taylorInvSqrt (dot4 g g))))
      with (dot4 g g * (taylorInvSqrt (dot4 g g)) ^ 2)
      by (unfold dot4; vec_cbn; ring).
    apply taylor_cubic. lra.
Qed.

Lemma rescaled_gradient_is_at_most_unit_witness :
  taylorInvSqrt 0.7 * sqrt 0.7 <= 1.
Proof.
  apply (rescaled_gradient_is_at_most_unit 0.7 0). lra.
Defined.

Lemma scale4_one (p : vec4) : scale4 p 1 = p.
Proof. destruct p. unfold scale4, map4; simpl. f_equal; ring. Qed.

(** X5.  [fbm] never samples more than four octaves: every octave count
    from 4 on gives the four-octave value.  One octave is the plain noise,
    and the three octaves the deformer asks for weigh the samples at
    frequencies 1, 2 and 4 by 4/7, 2/7 and 1/7. *)
Theorem fbm_octave_count_is_capped (p : vec4) (octaves : Z) :
  (4 <= octaves)%Z ->
  fbm p octaves = fbm p 4 /\
  fbm p 1 = snoise p /\
  fbm p 3 = (4 * snoise p + 2 * snoise (scale4 p 2) + snoise (scale4 p 4)) / 7.
Proof.
  intros H. split; [| split].
  - rewrite (fbm_4 p octaves H), (fbm_4 p 4 ltac:(lia)). reflexivity.
  - rewrite fbm_1, scale4_one. field. lra.
  - rewrite fbm_3, scale4_one.
    replace (scale4 p (1 * 2 * 2)) with (scale4 p 4) by (f_equal; lra).
    replace (scale4 p (1 * 2)) with (scale4 p 2) by (f_equal; lra).
    generalize (snoise p), (snoise (scale4 p 2)), (snoise (scale4 p 4)).
    intros a b c. lra.
Qed.

Lemma fbm_octave_count_is_capped_witness : fbm zero4 7 = fbm zero4 4.
Proof.
  apply (fbm_octave_count_is_capped zero4 7). lia.
Defined.

End Gradients.

(** ** The liquid-metal shader: highlight and environment *)

Section LiquidMetal.
Import FragmentGL.




(** X7.  [environmentGradient] is dark and bounded for every argument, unit
    or not: each channel stays between the bottom colour and the top colour
    plus half the highlight colour. *)
Theorem environment_gradient_is_bounded (reflectDir : vec3) :
  let env := environmentGradient reflectDir in
  0.02 <= vx env <= 0.06 + 0.04 /\
  0.02 <= vy env <= 0.065 + 0.035 /\
  0.03 <= vz env <= 0.09 + 0.025.
Proof.
  unfold environmentGradient. cbv zeta.
  set (y := vy reflectDir * 0.5 + 0.5).
  pose proof (smoothstep_range 0 0.5 y) as H1.
  pose proof (smoothstep_range 0.5 1 y) as H2.
  pose proof (smoothstep_range 0.6 0.9 y) as H3.
  pose proof (smoothstep_range 0.3 0 (Rabs (vx reflectDir - 0.3))) as H4.
  set (s1 := smoothstep 0 0.5 y) in *. set (s2 := smoothstep 0.5 1 y) in *.
  set (s3 := smoothstep 0.6 0.9 y) in *.
  set (s4 := smoothstep 0.3 0 (Rabs (vx reflectDir - 0.3))) in *.
  assert (H34 : 0 <= s3 * s4 <= 1) by nra.
  set (h := s3 * s4) in *.
  assert (H12 : 0 <= s1 * s2 <= 1) by nra.
  assert (H12' : s1 * s2 <= s2) by nra.
  unfold mix3, mix. vec_cbn.
  repeat split; nra.
Qed.

End LiquidMetal.

(** ** The glass shaders: highlights, Fresnel and environment *)

Section Glass.
Import ShadingJS.

Lemma pow_le_mono (x y e : R) : 0 <= e -> x <= y -> pow x e <= pow y e.
Proof.
  intros He Hxy. unfold pow.
  destruct (Rle_dec x 0) as [Hx | Hx]; destruct (Rle_dec y 0) as [Hy | Hy];
    try lra.
  - left. apply exp_pos.
  - apply Rle_Rpower_l; lra.
Qed.

Lemma D_GGX_bound (NdotH roughness : R) :
  0 <= D_GGX NdotH roughness <= 10000 * roughness ^ 4.
Proof.
  split; [apply D_GGX_nonneg |].
  unfold D_GGX. cbv zeta.
  set (a2 := roughness * roughness * (roughness * roughness)).
  set (d := NdotH * NdotH * (a2 - 1) + 1).
  assert (Ha : 0 <= a2) by (unfold a2; nra).
  assert (Hq : 0.0001 <= PI * d * d + 0.0001).
  { pose proof PI_pos. assert (0 <= PI * (d * d)) by (apply Rmult_le_pos; nra). lra. }
  replace (roughness ^ 4) with a2 by (unfold a2; ring).
  replace (10000 * a2) with (a2 / 0.0001) by lra.
  unfold Rdiv. apply Rmult_le_compat_l; [exact Ha |].
  apply Rinv_le_contravar; lra.
Qed.

Lemma F_Schlick_range (VdotH : R) (F0 : vec3) :
  0 <= VdotH -> le3 zero3 F0 -> le3 F0 (splat3 1) ->
  le3 F0 (F_Schlick VdotH F0) /\ le3 (F_Schlick VdotH F0) (splat3 1).
Proof.
  intros Hv [H0x [H0y H0z]] [H1x [H1y H1z]].
  unfold F_Schlick, le3 in *. vec_cbn. cbn [vx vy vz zero3 splat3] in *.
  assert (Hp : 0 <= pow (Rmax (1 - VdotH) 0) 5 <= 1).
  { apply pow_unit_range; [minmax_solve | lra]. }
  set (p := pow _ 5) in *. repeat split; nra.
Qed.

Lemma lobe_bound (N V Ldir : vec3) (roughness : R) (F0 tint : vec3) (k : R) :
  unit3 N -> le3 zero3 F0 -> le3 F0 (splat3 1) ->
  le3 zero3 tint -> le3 tint (splat3 1) -> 0 <= k ->
  when_defined (fun c => le3 c (splat3 (10000 * roughness ^ 4 * k)))
    (lobe N V Ldir roughness F0 tint k).
Proof.
  intros HN HF0 HF1 [Htx [Hty Htz]] [Htx' [Hty' Htz']] Hk. unfold lobe.
  apply when_defined_bind. intros L HL.
  apply when_defined_bind. intros H _. cbv zeta. cbn [when_defined].
  pose proof (D_GGX_bound (Rmax (dot3 N H) 0) roughness) as HD.
  set (D := D_GGX _ roughness) in *.
  assert (HNL : 0 <= Rmax (dot3 N L) 0 <= 1).
  { pose proof (dot3_unit_range N L HN (normalize_unit _ _ HL)). minmax_solve. }
  set (NdotL := Rmax (dot3 N L) 0) in *.
  destruct (F_Schlick_range (Rmax (dot3 V H) 0) F0 (Rmax_0_nonneg _) HF0 HF1)
    as [[Hax [Hay Haz]] [Hbx [Hby Hbz]]].
  destruct HF0 as [H0x [H0y H0z]].
  set (F := F_Schlick _ F0) in *.
  set (B := 10000 * roughness ^ 4) in *.
  cbn [vx vy vz zero3 splat3] in *.
  assert (Hc : forall f t, 0 <= f <= 1 -> 0 <= t <= 1 ->
                           D * f * NdotL * t * k <= B * k).
  { intros f t Hf Ht.
    assert (0 <= D * f <= B) by nra.
    assert (0 <= D * f * NdotL <= B) by nra.
    assert (0 <= D * f * NdotL * t <= B) by nra.
    nra. }
  unfold le3, smul3. vec_cbn. repeat split; apply Hc; lra.
Qed.

(** X8.  The GGX term never exceeds 10000 times the fourth power of the
    roughness, because of the constant 0.0001 in its denominator.  With the
    roughness values the shaders use, every specular highlight of main.js and
    part_000 therefore stays below half a percent (the secondary one of
    main.js below 1.5 percent) in every channel. *)
Theorem specular_highlights_are_faint (N V : vec3) (NdotH roughness : R) :
  unit3 N ->
  0 <= D_GGX NdotH roughness <= 10000 * roughness ^ 4 /\
  when_defined (fun c => le3 c (splat3 0.0047)) (FragmentJS.spec1 N V) /\
  when_defined (fun c => le3 c (splat3 0.0141)) (FragmentJS.spec2 N V) /\
  when_defined (fun c => le3 c (splat3 0.00095)) (FragmentGlass.spec N V).
Proof.
  intros HN. split; [apply D_GGX_bound |]. split; [| split].
  - pose proof (lobe_bound N V (mk3 (-0.55) 0.8 0.35) 0.025 (mk3 1 0.92 0.75)
                  (mk3 1 0.95 0.85) 1.2 HN) as H.
    unfold FragmentJS.spec1.
    destruct (lobe N V _ 0.025 _ _ 1.2) as [c |]; [| exact I].
    cbn [when_defined] in *. unfold le3 in *. cbn [vx vy vz zero3 splat3] in *.
    specialize (H ltac:(lra) ltac:(lra) ltac:(lra) ltac:(lra) ltac:(lra)).
    lra.
  - unfold FragmentJS.spec2.
    apply when_defined_bind. intros L2 HL2.
    apply when_defined_bind. intros H2 _. cbv zeta. cbn [when_defined].
    pose proof (D_GGX_bound (Rmax (dot3 N H2) 0) 0.05) as HD.
    set (D := D_GGX _ 0.05) in *.
    assert (HNL : 0 <= Rmax (dot3 N L2) 0 <= 1).
    { pose proof (dot3_unit_range N L2 HN (normalize_unit _ _ HL2)). minmax_solve. }
    set (NdotL := Rmax (dot3 N L2) 0) in *.
    assert (0 <= D * NdotL <= 0.0625) by nra.
    unfold le3, smul3. vec_cbn. repeat split; nra.
  - pose proof (lobe_bound N V (mk3 (-0.5) 0.75 0.4) 0.018 (mk3 0.95 0.88 0.7)
                  (mk3 1 0.96 0.88) 0.9 HN) as H.
    unfold FragmentGlass.spec.
    destruct (lobe N V _ 0.018 _ _ 0.9) as [c |]; [| exact I].
    cbn [when_defined] in *. unfold le3 in *. cbn [vx vy vz zero3 splat3] in *.
    specialize (H ltac:(lra) ltac:(lra) ltac:(lra) ltac:(lra) ltac:(lra)).
    lra.
Qed.

Lemma specular_highlights_are_faint_witness :
  0 <= D_GGX 1 0.025 <= 10000 * 0.025 ^ 4 /\
  exists c, FragmentJS.spec1 (mk3 0 0 1) (mk3 0 0 1) = Some c /\ le3 c (splat3 0.0047).
Proof.
  destruct (specular_highlights_are_faint (mk3 0 0 1) (mk3 0 0 1) 1 0.025)
    as [HD [H1 _]].
  - unfold unit3, dot3; simpl; lra.
  - split; [exact HD |].
    destruct (lobe_defined_head_on (mk3 0 0 1) (mk3 (-0.55) 0.8 0.35) 0.025
                (mk3 1 0.92 0.75) (mk3 1 0.95 0.85) 1.2) as [c Hc].
    + simpl; lra.
    + exists c. unfold FragmentJS.spec1 in *. rewrite Hc in H1.
      split; [exact Hc | exact H1].
Defined.

(** X9.  [F_Schlick], for a reflectance [F0] with channels in [[0, 1]] and a
    cosine [VdotH >= 0] as [main] passes it, stays between [F0] and white;
    it is [F0] when the cosine is 1 and white when it is 0, and it does not
    increase with the cosine. *)
Theorem schlick_term_between_base_and_white (VdotH VdotH' : R) (F0 : vec3) :
  0 <= VdotH <= VdotH' -> le3 zero3 F0 -> le3 F0 (splat3 1) ->
  le3 F0 (F_Schlick VdotH F0) /\ le3 (F_Schlick VdotH F0) (splat3 1) /\
  le3 (F_Schlick VdotH' F0) (F_Schlick VdotH F0) /\
  F_Schlick 1 F0 = F0 /\ F_Schlick 0 F0 = splat3 1.
Proof.
  intros Hv H0 H1.
  destruct (F_Schlick_range VdotH F0 ltac:(lra) H0 H1) as [Ha Hb].
  split; [exact Ha |]. split; [exact Hb |]. split; [| split].
  - destruct H0 as [H0x [H0y H0z]]. destruct H1 as [H1x [H1y H1z]].
    unfold F_Schlick, le3 in *. vec_cbn. cbn [vx vy vz zero3 splat3] in *.
    assert (Hp : pow (Rmax (1 - VdotH') 0) 5 <= pow (Rmax (1 - VdotH) 0) 5).
    { apply pow_le_mono; [lra | minmax_solve]. }
    repeat split; nra.
  - unfold F_Schlick. replace (Rmax (1 - 1) 0) with 0 by minmax_solve.
    rewrite pow_0. apply vec3_eq; vec_cbn; ring.
  - unfold F_Schlick. replace (Rmax (1 - 0) 0) with 1 by minmax_solve.
    rewrite pow_1. apply vec3_eq; vec_cbn; cbn [vx vy vz splat3]; ring.
Qed.

Lemma schlick_term_between_base_and_white_witness :
  le3 (mk3 1 0.92 0.75) (F_Schlick 0.5 (mk3 1 0.92 0.75)).
Proof.
  apply (schlick_term_between_base_and_white 0.5 1 (mk3 1 0.92 0.75));
    unfold le3; simpl; lra.
Defined.





Lemma reflect_back (N : vec3) : unit3 N -> reflect (neg3 N) N = N.
Proof.
  unfold unit3, reflect, neg3, dot3. intros H.
  set (s := vx N * vx N + vy N * vy N + vz N * vz N) in H.
  apply vec3_eq; vec_cbn.
  - transitivity (- vx N + 2 * vx N * s); [unfold s; ring | rewrite H; ring].
  - transitivity (- vy N + 2 * vy N * s); [unfold s; ring | rewrite H; ring].
  - transitivity (- vz N + 2 * vz N * s); [unfold s; ring | rewrite H; ring].
Qed.

Lemma scale3_zero (c : vec3) (k : R) : scale3 (scale3 c 0) k = zero3.
Proof. apply vec3_eq; simpl; ring. Qed.

(** X11.  Seen head-on (view direction equal to the normal, not vertical)
    every edge term of the two glass shaders vanishes: the colour before
    tone mapping is the internal colour (weight 0.35, resp. 0.25) plus the
    specular highlights, and nothing else. *)
Theorem head_on_glass_has_no_edge_terms (u : Uniforms) (v : Varyings) (N : vec3) :
  normalize (v_smoothNormal v) = Some N ->
  normalize (sub3 (u_cameraPosition u) (v_worldPosition v)) = Some N ->
  vx N <> 0 \/ vz N <> 0 ->
  FragmentJS.composite u v
  = (s1 <- FragmentJS.spec1 N N ;;
     s2 <- FragmentJS.spec2 N N ;;
     Some (add3 (add3 (scale3 (FragmentJS.internalColor 1 (vy (v_localPosition v)))
                              0.35) s1) s2)) /\
  FragmentGlass.composite u v
  = (s <- FragmentGlass.spec N N ;;
     Some (add3 (scale3 (FragmentGlass.glassCore 1 (vy (v_localPosition v))) 0.25) s)).
Proof.
  intros HN HV Hnv.
  pose proof (normalize_unit _ _ HN) as Hu.
  assert (Hd : Rmax (dot3 N N) 0 = 1).
  { unfold unit3 in Hu. rewrite Hu. minmax_solve. }
  destruct (sampleEnv_defined N Hnv) as [env Henv].
  split.
  - unfold FragmentJS.composite. rewrite HN, HV. cbn [bind]. cbv zeta.
    rewrite Hd, (reflect_back N Hu). replace (1 - 1) with 0 by ring.
    unfold FragmentJS.envReflection. cbv zeta. rewrite Henv. cbn [bind].
    destruct (FragmentJS.spec1 N N) as [s1 |]; [| reflexivity]. cbn [bind].
    destruct (FragmentJS.spec2 N N) as [s2 |]; [| reflexivity]. cbn [bind].
    f_equal.
    unfold FragmentJS.rimColor, FragmentJS.leftGlow, FragmentJS.leftWarm,
      FragmentJS.rightGlow, FragmentJS.edgeHighlight. cbv zeta.
    rewrite !pow_0. apply vec3_eq; vec_cbn; ring.
  - unfold FragmentGlass.composite. rewrite HN, HV. cbn [bind]. cbv zeta.
    rewrite Hd, (reflect_back N Hu). replace (1 - 1) with 0 by ring.
    unfold FragmentGlass.reflection. cbv zeta. rewrite Henv. cbn [bind].
    destruct (FragmentGlass.spec N N) as [s |]; [| reflexivity]. cbn [bind].
    f_equal.
    unfold FragmentGlass.rimLight, FragmentGlass.leftLight,
      FragmentGlass.rightLight, FragmentGlass.edgeColor. cbv zeta.
    rewrite !pow_0. apply vec3_eq; vec_cbn; ring.
Qed.

Lemma head_on_glass_has_no_edge_terms_witness :
  FragmentJS.composite (fst headOnJS) (snd headOnJS)
  = (s1 <- FragmentJS.spec1 (mk3 0 0 1) (mk3 0 0 1) ;;
     s2 <- FragmentJS.spec2 (mk3 0 0 1) (mk3 0 0 1) ;;
     Some (add3 (add3 (scale3 (FragmentJS.internalColor 1 0.3) 0.35) s1) s2)).
Proof.
  destruct headOnJS_normalized as [HN HV].
  apply (head_on_glass_has_no_edge_terms (fst headOnJS) (snd headOnJS) (mk3 0 0 1)
           HN HV).
  right. simpl. lra.
Defined.

End Glass.

(** ** The three tone maps *)

Section ToneMaps.

Lemma div_le_cross (a b c d : R) : 0 < b -> 0 < d -> a * d <= c * b -> a / b <= c / d.
Proof.
  intros Hb Hd H.
  apply (Rmult_le_reg_r (b * d)); [nra |].
  replace (a / b * (b * d)) with (a * d) by (field; lra).
  replace (c / d * (b * d)) with (c * b) by (field; lra).
  exact H.
Qed.

Lemma pow_lt_1 (x e : R) : x < 1 -> 0 < e -> pow x e < 1.
Proof.
  intros Hx He. unfold pow. destruct (Rle_dec x 0); [lra |].
  unfold Rpower. rewrite <- exp_0. apply exp_increasing.
  assert (ln x < 0) by (rewrite <- ln_1; apply ln_increasing; lra).
  nra.
Qed.

Lemma reinhard_mono (k x y : R) : 0 < k -> 0 <= x <= y -> x / (x + k) <= y / (y + k).
Proof. intros Hk H. apply div_le_cross; nra. Qed.

Lemma reinhard_lt_1 (k x : R) : 0 < k -> 0 <= x -> x / (x + k) < 1.
Proof.
  intros Hk Hx. apply (Rmult_lt_reg_r (x + k)); [lra |].
  replace (x / (x + k) * (x + k)) with x by (field; lra). lra.
Qed.

(** The filmic curve of main.js before the clamp. *)
Lemma filmic_mono (x y : R) :
  0 <= x <= y ->
  (x * (2.4 * x + 0.025)) / (x * (2.2 * x + 0.58) + 0.13)
  <= (y * (2.4 * y + 0.025)) / (y * (2.2 * y + 0.58) + 0.13).
Proof.
  intros H. apply div_le_cross; [nra | nra |].
  assert (0 <= (y - x) * (x * y)) by (apply Rmult_le_pos; nra).
  assert (0 <= (y - x) * (x + y)) by (apply Rmult_le_pos; nra).
  nra.
Qed.

Lemma filmic_saturates (x : R) :
  3 <= x -> 1 <= (x * (2.4 * x + 0.025)) / (x * (2.2 * x + 0.58) + 0.13).
Proof.
  intros H. replace 1 with (1 / 1) at 1 by lra.
  apply div_le_cross; [lra | nra | nra].
Qed.

Lemma clamp_mono (x y lo hi : R) : x <= y -> clamp x lo hi <= clamp y lo hi.
Proof. intros H. minmax_solve. Qed.

(** X12.  All three tone maps keep the order of non-negative colours
    channel by channel (a brighter input never gives a darker output) and
    map black to black.  The Reinhard maps of fragment.glsl and part_000
    stay strictly below 1; the clamped filmic curve of main.js gives
    exactly 1 in every channel whose input is 3 or more. *)
Theorem tone_maps_keep_order (c d : vec3) :
  le3 zero3 c -> le3 c d ->
  (le3 (FragmentGL.toneMap c) (FragmentGL.toneMap d) /\
   le3 (FragmentJS.toneMap c) (FragmentJS.toneMap d) /\
   le3 (FragmentGlass.toneMap c) (FragmentGlass.toneMap d)) /\
  (vx (FragmentGL.toneMap c) < 1 /\ vy (FragmentGL.toneMap c) < 1 /\
   vz (FragmentGL.toneMap c) < 1 /\ vx (FragmentGlass.toneMap c) < 1 /\
   vy (FragmentGlass.toneMap c) < 1 /\ vz (FragmentGlass.toneMap c) < 1) /\
  ((3 <= vx c -> vx (FragmentJS.toneMap c) = 1) /\
   (3 <= vy c -> vy (FragmentJS.toneMap c) = 1) /\
   (3 <= vz c -> vz (FragmentJS.toneMap c) = 1)) /\
  (FragmentGL.toneMap zero3 = zero3 /\ FragmentJS.toneMap zero3 = zero3 /\
   FragmentGlass.toneMap zero3 = zero3).
Proof.
  intros [H0x [H0y H0z]] [Hx [Hy Hz]].
  cbn [vx vy vz zero3] in H0x, H0y, H0z.
  split; [split; [| split] |].
  - unfold FragmentGL.toneMap, le3, pow3, div3. cbv zeta. vec_cbn.
    repeat split; apply pow_le_mono; try lra; apply reinhard_mono; lra.
  - unfold FragmentJS.toneMap, le3, pow3. cbv zeta. vec_cbn.
    repeat split; apply pow_le_mono; try lra; apply clamp_mono, filmic_mono; lra.
  - unfold FragmentGlass.toneMap, le3, pow3. cbv zeta. vec_cbn.
    repeat split; apply pow_le_mono; try lra; apply reinhard_mono; lra.
  - split; [| split].
    + unfold FragmentGL.toneMap, FragmentGlass.toneMap, pow3, div3. cbv zeta. vec_cbn.
      repeat split; apply pow_lt_1; try lra; apply reinhard_lt_1; lra.
    + unfold FragmentJS.toneMap, pow3. cbv zeta. vec_cbn.
      repeat split; intros H3;
        rewrite clamp_high by (try lra; apply filmic_saturates; assumption);
        apply pow_1.
    + unfold FragmentGL.toneMap, FragmentJS.toneMap, FragmentGlass.toneMap,
        pow3, div3, zero3. cbv zeta.
      repeat split; apply vec3_eq; vec_cbn;
        match goal with
        | |- pow ?a _ = 0 => replace a with 0 by minmax_solve; apply pow_0
        end.
Qed.

Lemma tone_maps_keep_order_witness :
  le3 (FragmentJS.toneMap (mk3 0.1 0.2 0.3)) (FragmentJS.toneMap (mk3 0.2 0.4 0.6)) /\
  vx (FragmentJS.toneMap (mk3 3 0.4 0.6)) = 1.
Proof.
  split.
  - apply (tone_maps_keep_order (mk3 0.1 0.2 0.3) (mk3 0.2 0.4 0.6));
      unfold le3; simpl; lra.
  - destruct (tone_maps_keep_order (mk3 3 0.4 0.6) (mk3 3 0.4 0.6))
      as [_ [_ [[H _] _]]]; try (unfold le3; simpl; lra).
    apply H. simpl. lra.
Defined.

End ToneMaps.

(** ** The deformers: direction and size of the move *)

Section AlongNormal.

Lemma length3_scale_unit (n : vec3) (d : R) :
  unit3 n -> length3 (scale3 n d) = Rabs d.
Proof.
  intros Hn. unfold length3.
  replace (dot3 (scale3 n d) (scale3 n d)) with (Rsqr d).
  - apply sqrt_Rsqr_abs.
  - unfold unit3, dot3 in *. vec_cbn. unfold Rsqr.
    transitivity (d * d * (vx n * vx n + vy n * vy n + vz n * vz n));
      [rewrite Hn; ring | ring].
Qed.

Lemma add3_sub3_cancel (p q : vec3) : sub3 (add3 p q) p = q.
Proof. apply vec3_eq; simpl; ring. Qed.

(** X13.  Both deformers move a vertex along its normalised rest normal
    only: the offset of the new position from the rest position is the unit
    normal times the displacement scalar, so its length is the absolute
    value of that scalar (and [v_displacement] of fragment.glsl is the
    signed distance of [v_position] from the rest position). *)
Theorem vertex_moves_along_its_normal
    (t : Transforms) (u : VertexGL.Uniforms) (uj : VertexJS.Uniforms) (vtx : Vertex) :
  normal vtx <> zero3 ->
  exists n, normalize (normal vtx) = Some n /\ unit3 n /\
    (exists p, VertexGL.v_position (VertexGL.main t u vtx) = Some p /\
       sub3 p (position vtx)
       = scale3 n (VertexGL.v_displacement (VertexGL.main t u vtx)) /\
       length3 (sub3 p (position vtx))
       = Rabs (VertexGL.v_displacement (VertexGL.main t u vtx))) /\
    (exists p, VertexJS.newPosition uj vtx = Some p /\
       sub3 p (position vtx) = scale3 n (VertexJS.displacement uj (position vtx)) /\
       length3 (sub3 p (position vtx))
       = Rabs (VertexJS.displacement uj (position vtx))).
Proof.
  intros Hn. destruct (normalize_defined _ Hn) as [n Hnorm].
  pose proof (normalize_unit _ _ Hnorm) as Hu.
  exists n. split; [exact Hnorm |]. split; [exact Hu |]. split.
  - eexists. cbn [VertexGL.main VertexGL.v_position VertexGL.v_displacement].
    unfold VertexGL.newPosition. rewrite Hnorm. cbn [bind].
    split; [reflexivity |]. rewrite add3_sub3_cancel.
    split; [reflexivity | now apply length3_scale_unit].
  - eexists. unfold VertexJS.newPosition. rewrite Hnorm. cbn [bind].
    split; [reflexivity |]. rewrite add3_sub3_cancel.
    split; [reflexivity | now apply length3_scale_unit].
Qed.

Lemma vertex_moves_along_its_normal_witness :
  exists n, normalize (normal topPole) = Some n /\ unit3 n /\
    exists p, VertexJS.newPosition (VertexJS.mkUniforms 1 0.25) topPole = Some p /\
      length3 (sub3 p (position topPole))
      = Rabs (VertexJS.displacement (VertexJS.mkUniforms 1 0.25) (position topPole)).
Proof.
  destruct (vertex_moves_along_its_normal noTransform
              (VertexGL.mkUniforms 1 1 0.25 0.1) (VertexJS.mkUniforms 1 0.25) topPole)
    as [n [Hn [Hu [_ [p [Hp [_ Hl]]]]]]].
  - unfold topPole, zero3; simpl. intros H. injection H as H. lra.
  - exists n. split; [exact Hn |]. split; [exact Hu |].
    exists p. split; [exact Hp | exact Hl].
Defined.

End AlongNormal.

(** ** The vignette pass *)

Section VignettePass.
Import Vignette.

Lemma length2_nonneg (v : vec2) : 0 <= length2 v.
Proof. apply sqrt_pos. Qed.

(** The Hermite polynomial is monotone on [[0, 1]]. *)
Lemma hermite_mono (a b : R) :
  0 <= a <= b -> b <= 1 -> a * a * (3 - 2 * a) <= b * b * (3 - 2 * b).
Proof.
  intros Ha Hb.
  assert (0 <= (b - a) * (3 * (a + b) - 2 * (a * a + a * b + b * b))).
  { apply Rmult_le_pos; [lra |]. nra. }
  nra.
Qed.

(** [smoothstep] falls when its edges are given in decreasing order. *)
Lemma smoothstep_falling (e0 e1 x y : R) :
  e1 < e0 -> x <= y -> smoothstep e0 e1 y <= smoothstep e0 e1 x.
Proof.
  intros He Hxy. unfold smoothstep. cbv zeta.
  assert (Hq : (y - e0) / (e1 - e0) <= (x - e0) / (e1 - e0)).
  { unfold Rdiv. assert (/ (e1 - e0) < 0) by (apply Rinv_lt_0_compat; lra).
    nra. }
  pose proof (clamp_range ((x - e0) / (e1 - e0)) 0 1 ltac:(lra)).
  pose proof (clamp_range ((y - e0) / (e1 - e0)) 0 1 ltac:(lra)).
  pose proof (clamp_mono _ _ 0 1 Hq).
  apply hermite_mono; lra.
Qed.

(** The vignette's [smoothstep] on its two plateaus. *)
Lemma vignette_step_inside (o x : R) :
  x <= o - 0.3 -> smoothstep (o + 0.5) (o - 0.3) x = 1.
Proof.
  intros H. unfold smoothstep. cbv zeta.
  replace (o - 0.3 - (o + 0.5)) with (- 0.8) by lra.
  rewrite clamp_high by lra. ring.
Qed.

Lemma vignette_step_outside (o x : R) :
  o + 0.5 <= x -> smoothstep (o + 0.5) (o - 0.3) x = 0.
Proof.
  intros H. unfold smoothstep. cbv zeta.
  replace (o - 0.3 - (o + 0.5)) with (- 0.8) by lra.
  rewrite clamp_low by lra. ring.
Qed.

(** X14.  The vignette pass keeps alpha and multiplies the colour by a
    factor between [1 - 0.3 darkness] and 1.  A pixel whose distance from
    the centre of the frame (in units of half the frame) is at most
    [offset - 0.3] passes unchanged; from [offset + 0.5] on the factor is
    exactly [1 - 0.3 darkness].  (The shader gives [smoothstep] its edges in
    decreasing order; the formula is evaluated as it stands.) *)
Theorem vignette_plateaus (u : Uniforms) (vUv : vec2) :
  0 <= darkness u ->
  let dist := length2 (scale2 (sub2 vUv (splat2 0.5)) 2) in
  1 - darkness u * 0.3 <= vignette u vUv <= 1 /\
  qw (main u vUv) = qw (tDiffuse u vUv) /\
  (dist <= offset u - 0.3 -> main u vUv = tDiffuse u vUv) /\
  (offset u + 0.5 <= dist ->
   xyz (main u vUv) = scale3 (xyz (tDiffuse u vUv)) (1 - darkness u * 0.3)).
Proof.
  intros Hd dist. unfold main, vignette. cbv zeta. fold dist.
  pose proof (smoothstep_range (offset u + 0.5) (offset u - 0.3) dist) as Hs.
  split; [unfold mix; split; nra |]. split; [reflexivity |]. split.
  - intros H. rewrite (vignette_step_inside _ _ H). unfold mix.
    destruct (tDiffuse u vUv). apply vec4_eq; simpl; ring.
  - intros H. rewrite (vignette_step_outside _ _ H). unfold mix.
    apply vec3_eq; simpl; ring.
Qed.

Lemma centre_distance : length2 (scale2 (sub2 (mk2 0.5 0.5) (splat2 0.5)) 2) = 0.
Proof.
  unfold length2, dot2, scale2, sub2, zip2, map2, splat2; simpl.
  replace ((0.5 - 0.5) * 2 * ((0.5 - 0.5) * 2) + (0.5 - 0.5) * 2 * ((0.5 - 0.5) * 2))
    with 0 by lra.
  apply sqrt_0.
Qed.

Lemma vignette_plateaus_witness :
  main (configured flatTexture) (mk2 0.5 0.5) = flatTexture (mk2 0.5 0.5).
Proof.
  apply (vignette_plateaus (configured flatTexture) (mk2 0.5 0.5)).
  - simpl. lra.
  - rewrite centre_distance. simpl. lra.
Defined.

(** X15.  The vignette never brightens towards the border: of two pixels,
    the one farther from the centre of the frame gets the smaller (or the
    same) factor, and no pixel gets a larger factor than the centre. *)
Theorem vignette_darkens_outwards (u : Uniforms) (a b : vec2) :
  0 <= darkness u ->
  length2 (scale2 (sub2 a (splat2 0.5)) 2) <= length2 (scale2 (sub2 b (splat2 0.5)) 2) ->
  vignette u b <= vignette u a /\ vignette u a <= vignette u (mk2 0.5 0.5).
Proof.
  intros Hd Hab.
  assert (Hm : forall p q,
             length2 (scale2 (sub2 p (splat2 0.5)) 2)
             <= length2 (scale2 (sub2 q (splat2 0.5)) 2) ->
             vignette u q <= vignette u p).
  { intros p q H. unfold vignette. cbv zeta.
    pose proof (smoothstep_falling (offset u + 0.5) (offset u - 0.3) _ _
                  ltac:(lra) H) as Hs.
    unfold mix. nra. }
  split; [now apply Hm |].
  apply Hm. rewrite centre_distance. apply length2_nonneg.
Qed.

Lemma vignette_darkens_outwards_witness :
  vignette (configured flatTexture) (mk2 0 0)
  <= vignette (configured flatTexture) (mk2 0.5 0.5).
Proof.
  apply (vignette_darkens_outwards (configured flatTexture) (mk2 0.5 0.5) (mk2 0 0)).
  - simpl. lra.
  - rewrite centre_distance. apply length2_nonneg.
Defined.

End VignettePass.

(** ** The starfield background *)

Section StarfieldBackground.
Import Starfield.

Lemma pow_mult (a b e : R) : 0 <= a -> 0 <= b -> pow (a * b) e = pow a e * pow b e.
Proof.
  intros Ha Hb. unfold pow.
  destruct (Rle_dec a 0) as [Ha0 | Ha0].
  - assert (a = 0) by lra. subst a. rewrite Rmult_0_l.
    destruct (Rle_dec 0 0); [ring | lra].
  - destruct (Rle_dec b 0) as [Hb0 | Hb0].
    + assert (b = 0) by lra. subst b. rewrite Rmult_0_r.
      destruct (Rle_dec 0 0); [ring | lra].
    + destruct (Rle_dec (a * b) 0); [nra |].
      symmetry. apply Rpower_mult_distr; lra.
Qed.

Lemma hash_range (p : vec2) : 0 <= hash p < 1.
Proof. unfold hash. apply fract_range. Qed.

Lemma for_range_3 (body : Z -> R -> R) (acc : R) :
  for_range (-1) 1 body acc = body 1%Z (body 0%Z (body (-1)%Z acc)).
Proof. reflexivity. Qed.

(** The twinkle factor of a star. *)
Lemma twinkle_range (a : R) : 0.75 <= 0.75 + (sin a * 0.5 + 0.5) * 0.25 <= 1.
Proof. pose proof (SIN_bound a). lra. Qed.

(** What one neighbour cell adds to [star], at two moments. *)
Lemma cell_step (gv id : vec2) (t1 t2 base : R) (x y : Z) :
  0 <= base ->
  exists g1 g2 : R,
    0 <= g1 <= pow (base * 0.7 / 0.12) 1.5 /\
    0 <= g2 /\ pow 0.75 1.5 * g2 <= g1 /\
    (forall star, cell gv id t1 base x y star = star + g1) /\
    (forall star, cell gv id t2 base x y star = star + g2).
Proof.
  intros Hb. unfold cell. cbv zeta.
  destruct (Rlt_dec 0.93 (hash (add2 id (mk2 (IZR x) (IZR y))))) as [Hs | Hs].
  - set (cellId := add2 id (mk2 (IZR x) (IZR y))) in *.
    set (d := length2 _).
    assert (Hd : 0 <= d) by apply length2_nonneg.
    pose proof (hash_range (scale2 cellId 4)) as Hh.
    set (brightness := hash (scale2 cellId 4) * 0.4 + 0.3).
    assert (Hbr : 0.3 <= brightness <= 0.7) by (unfold brightness; lra).
    set (speed := 0.08 + hash (scale2 cellId 2) * 0.2).
    set (phase := hash (scale2 cellId 3) * 6.28).
    pose proof (twinkle_range (t1 * speed + phase)) as H1.
    pose proof (twinkle_range (t2 * speed + phase)) as H2.
    set (w1 := 0.75 + (sin (t1 * speed + phase) * 0.5 + 0.5) * 0.25) in *.
    set (w2 := 0.75 + (sin (t2 * speed + phase) * 0.5 + 0.5) * 0.25) in *.
    assert (Hi : 0 < / (d * 20 + 0.12) <= / 0.12).
    { split; [apply Rinv_0_lt_compat; lra | apply Rinv_le_contravar; lra]. }
    set (K := base * brightness * / (d * 20 + 0.12)).
    assert (HK : 0 <= K <= base * 0.7 / 0.12).
    { unfold K, Rdiv. assert (0 <= base * brightness <= base * 0.7) by nra.
      split; [apply Rmult_le_pos; lra |].
      apply Rmult_le_compat; lra. }
    assert (E1 : base * brightness * w1 / (d * 20 + 0.12) = K * w1)
      by (unfold K, Rdiv; ring).
    assert (E2 : base * brightness * w2 / (d * 20 + 0.12) = K * w2)
      by (unfold K, Rdiv; ring).
    rewrite E1, E2.
    exists (pow (K * w1) 1.5), (pow (K * w2) 1.5).
    split; [split; [apply pow_nonneg | apply pow_le_mono; [lra | nra]] |].
    split; [apply pow_nonneg |]. split; [| split; reflexivity].
    rewrite <- pow_mult by (try apply pow_nonneg; nra || lra).
    + apply pow_le_mono; [lra | nra].
  - exists 0, 0. split; [split; [lra | apply pow_nonneg] |].
    split; [lra |]. split; [lra |]. split; intros star; ring.
Qed.

Lemma stars_step (uv : vec2) (scale t1 t2 base : R) :
  0 <= base ->
  0 <= stars uv scale t1 base <= 9 * pow (base * 0.7 / 0.12) 1.5 /\
  pow 0.75 1.5 * stars uv scale t2 base <= stars uv scale t1 base.
Proof.
  intros Hb. unfold stars. cbv zeta.
  set (gv := subs2 (map2 fract (scale2 uv scale)) 0.5).
  set (id := map2 floor (scale2 uv scale)).
  rewrite !for_range_3. cbv beta. rewrite ?for_range_3.
  pose proof (pow_nonneg 0.75 1.5) as Hk. set (k := pow 0.75 1.5) in *.
  set (cap := pow (base * 0.7 / 0.12) 1.5).
  destruct (cell_step gv id t1 t2 base (-1) (-1) Hb) as (a1 & b1 & Ha1 & Hb1 & Hc1 & E1 & F1).
  destruct (cell_step gv id t1 t2 base 0 (-1) Hb) as (a2 & b2 & Ha2 & Hb2 & Hc2 & E2 & F2).
  destruct (cell_step gv id t1 t2 base 1 (-1) Hb) as (a3 & b3 & Ha3 & Hb3 & Hc3 & E3 & F3).
  destruct (cell_step gv id t1 t2 base (-1) 0 Hb) as (a4 & b4 & Ha4 & Hb4 & Hc4 & E4 & F4).
  destruct (cell_step gv id t1 t2 base 0 0 Hb) as (a5 & b5 & Ha5 & Hb5 & Hc5 & E5 & F5).
  destruct (cell_step gv id t1 t2 base 1 0 Hb) as (a6 & b6 & Ha6 & Hb6 & Hc6 & E6 & F6).
  destruct (cell_step gv id t1 t2 base (-1) 1 Hb) as (a7 & b7 & Ha7 & Hb7 & Hc7 & E7 & F7).
  destruct (cell_step gv id t1 t2 base 0 1 Hb) as (a8 & b8 & Ha8 & Hb8 & Hc8 & E8 & F8).
  destruct (cell_step gv id t1 t2 base 1 1 Hb) as (a9 & b9 & Ha9 & Hb9 & Hc9 & E9 & F9).
  fold cap in Ha1, Ha2, Ha3, Ha4, Ha5, Ha6, Ha7, Ha8, Ha9.
  fold k in Hc1, Hc2, Hc3, Hc4, Hc5, Hc6, Hc7, Hc8, Hc9.
  rewrite E1, E2, E3, E4, E5, E6, E7, E8, E9, F1, F2, F3, F4, F5, F6, F7, F8, F9.
  split; [split |]; lra.
Qed.

Lemma star_layer_bounds (uv : vec2) (scale time base : R) :
  0 <= base ->
  0 <= stars uv scale time base <= 9 * pow (base * 0.7 / 0.12) 1.5.
Proof. intros Hb. apply (stars_step uv scale time time base Hb). Qed.

(** X16.  A star layer is never negative and never brighter than nine
    times the peak of a single star, [(0.7 baseIntensity / 0.12)^1.5], for
    every coordinate, scale and time. *)
Theorem star_layer_is_bounded (uv : vec2) (scale time baseIntensity : R) :
  0 <= baseIntensity ->
  0 <= stars uv scale time baseIntensity
  <= 9 * pow (baseIntensity * 0.7 / 0.12) 1.5.
Proof. intros Hb. now apply star_layer_bounds. Qed.

Lemma star_layer_is_bounded_witness :
  0 <= stars (mk2 0.3 0.6) 28 2 0.4 <= 9 * pow (0.4 * 0.7 / 0.12) 1.5.
Proof. apply (star_layer_is_bounded (mk2 0.3 0.6) 28 2 0.4). lra. Defined.

Lemma pow_075 : 0.64 <= pow 0.75 1.5.
Proof.
  unfold pow. destruct (Rle_dec 0.75 0); [lra |].
  replace 1.5 with (1 + / 2) by lra.
  rewrite Rpower_plus, Rpower_1, Rpower_sqrt by lra.
  assert (0.86 <= sqrt 0.75).
  { rewrite <- (sqrt_square 0.86) by lra. apply sqrt_le_1; lra. }
  lra.
Qed.

(** X17.  Twinkling never removes a star: at any two moments the value of
    a star layer at one is at least 0.64 times (the factor is 0.75^1.5) its
    value at the other. *)
Theorem twinkle_keeps_two_thirds (uv : vec2) (scale t1 t2 baseIntensity : R) :
  0 <= baseIntensity ->
  0.64 * stars uv scale t2 baseIntensity <= stars uv scale t1 baseIntensity.
Proof.
  intros Hb. destruct (stars_step uv scale t1 t2 baseIntensity Hb) as [_ H].
  destruct (stars_step uv scale t2 t2 baseIntensity Hb) as [[H0 _] _].
  pose proof pow_075. nra.
Qed.

Lemma twinkle_keeps_two_thirds_witness :
  0.64 * stars (mk2 0.3 0.6) 28 0 0.4 <= stars (mk2 0.3 0.6) 28 10 0.4.
Proof. apply (twinkle_keeps_two_thirds (mk2 0.3 0.6) 28 10 0 0.4). lra. Defined.

Lemma le3_mix3 (m a b : vec3) (t : R) :
  le3 m a -> le3 m b -> 0 <= t <= 1 -> le3 m (mix3 a b t).
Proof.
  unfold le3, mix3, mix. intros [? [? ?]] [? [? ?]] Ht. vec_cbn.
  repeat split; nra.
Qed.

Lemma le3_add3_nonneg (m a b : vec3) : le3 m a -> nonneg3 b -> le3 m (add3 a b).
Proof.
  unfold le3, nonneg3. intros [? [? ?]] [? [? ?]]. vec_cbn. repeat split; lra.
Qed.

Lemma le3_refl (a : vec3) : le3 a a.
Proof. unfold le3. repeat split; lra. Qed.

(** X18.  On the unit square of texture coordinates the background is
    never darker than the bottom sky colour (0.008, 0.008, 0.018), at every
    time and resolution, and the two star layers only add light to the
    atmosphere. *)
Theorem starfield_is_never_black (u : Uniforms) (vUv : vec2) :
  0 <= ux vUv <= 1 -> 0 <= uy vUv <= 1 -> 0 < uy (u_resolution u) ->
  le3 (mk3 0.008 0.008 0.018) (atmosphere vUv) /\
  le3 (atmosphere vUv) (main u vUv) /\
  le3 (mk3 0.008 0.008 0.018) (main u vUv).
Proof.
  intros Hx Hy Hr.
  enough (H : le3 (mk3 0.008 0.008 0.018) (atmosphere vUv) /\
              le3 (atmosphere vUv) (main u vUv)).
  { destruct H as [H1 H2]. split; [exact H1 |]. split; [exact H2 |].
    destruct H1 as [? [? ?]]. destruct H2 as [? [? ?]].
    unfold le3. repeat split; lra. }
  split.
  - unfold atmosphere. cbv zeta.
    apply le3_add3_nonneg.
    + apply le3_mix3.
      * apply le3_add3_nonneg; [apply le3_add3_nonneg |].
        -- apply le3_mix3; [| unfold le3; simpl; lra | apply smoothstep_range].
           apply le3_mix3; [apply le3_refl | unfold le3; simpl; lra
                           | apply smoothstep_range].
        -- apply nonneg3_scale3.
           ++ apply nonneg3_mix3; [nonneg_const | nonneg_const
                                  | apply smoothstep_range].
           ++ unfold sunGlow. cbv zeta.
              apply Rmult_le_pos; [apply pow_nonneg | lra].
        -- apply nonneg3_scale3; [nonneg_const |].
           apply Rmult_le_pos; [apply pow_nonneg | lra].
      * unfold le3; simpl; lra.
      * nra.
    + apply nonneg3_scale3; [| lra].
      apply nonneg3_scale3; [nonneg_const |].
      apply Rmult_le_pos; [apply smoothstep_range | lra].
  - unfold main. cbv zeta.
    set (a := atmosphere vUv).
    assert (Hd : 0 <= 1 - smoothstep 0.5 1.5 (sunGlow vUv * 3)).
    { pose proof (smoothstep_range 0.5 1.5 (sunGlow vUv * 3)). lra. }
    set (dim := 1 - smoothstep 0.5 1.5 (sunGlow vUv * 3)) in *.
    destruct (star_layer_bounds (mul2 vUv (mk2 (ux (u_resolution u) / uy (u_resolution u)) 1))
                28 (u_time u) 0.4 ltac:(lra)) as [H1 _].
    destruct (star_layer_bounds
                (adds2 (mul2 vUv (mk2 (ux (u_resolution u) / uy (u_resolution u)) 1)) 100)
                45 (u_time u * 0.75) 0.2 ltac:(lra)) as [H2 _].
    apply le3_add3_nonneg; [apply le3_add3_nonneg; [apply le3_refl |] |].
    + apply nonneg3_scale3; [| exact Hd].
      apply nonneg3_scale3; [| lra].
      apply nonneg3_scale3; [nonneg_const | exact H1].
    + apply nonneg3_scale3; [| exact Hd].
      apply nonneg3_scale3; [| lra].
      apply nonneg3_scale3; [nonneg_const | exact H2].
Qed.

Lemma starfield_is_never_black_witness :
  le3 (mk3 0.008 0.008 0.018) (atmosphere (mk2 0.5 0.5)) /\
  le3 (atmosphere (mk2 0.5 0.5))
      (main (mkUniforms 3 (mk2 1920 1080)) (mk2 0.5 0.5)) /\
  le3 (mk3 0.008 0.008 0.018) (main (mkUniforms 3 (mk2 1920 1080)) (mk2 0.5 0.5)).
Proof.
  apply (starfield_is_never_black (mkUniforms 3 (mk2 1920 1080)) (mk2 0.5 0.5));
    simpl; lra.
Defined.

End StarfieldBackground.

(** ** The egg-shaped body *)

Section EggBody.
Import List ListNotations.
Import CreateGeometry.

Lemma get_app (pre l : list R) (k : nat) :
  get (pre ++ l) (length pre + k) = get l k.
Proof.
  unfold get. induction pre as [| a pre IH]; simpl; [reflexivity | exact IH].
Qed.

Lemma put_app (pre l : list R) (k : nat) (v : R) :
  put (pre ++ l) (length pre + k) v = pre ++ put l k v.
Proof.
  induction pre as [| a pre IH]; simpl; [reflexivity | now rewrite IH].
Qed.

Lemma scale_app (pre l : list R) (k : nat) (c : R) :
  scale (pre ++ l) (length pre + k) c = pre ++ scale l k c.
Proof.
  unfold scale. rewrite get_app. destruct (get l k); [apply put_app | reflexivity].
Qed.

Lemma get_app0 (pre l : list R) : get (pre ++ l) (length pre) = get l 0.
Proof. rewrite <- (get_app pre l 0). f_equal. lia. Qed.

Lemma scale_app0 (pre l : list R) (c : R) :
  scale (pre ++ l) (length pre) c = pre ++ scale l 0 c.
Proof. rewrite <- (scale_app pre l 0 c). f_equal. lia. Qed.

Ltac run_body :=
  unfold body;
  repeat (rewrite ?get_app, ?put_app, ?scale_app, ?scale_app0;
          cbn [scale get put nth_error bind Nat.add]).

Lemma body_vertex (pre post : list R) (x y z : R) :
  body (length pre) (pre ++ x :: y :: z :: post)
  = Some (pre ++ vx (eggVertex (mk3 x y z)) :: vy (eggVertex (mk3 x y z))
                 :: vz (eggVertex (mk3 x y z)) :: post).
Proof. run_body. reflexivity. Qed.

Lemma body_pair (pre : list R) (x y : R) :
  body (length pre) (pre ++ [x; y])
  = Some (pre ++ [x * (1 - (y + 1) * 0.08) * (1 + (1 - Rabs y) * 0.06); y * 1.5]).
Proof. run_body. reflexivity. Qed.

Lemma body_single (pre : list R) (x : R) : body (length pre) (pre ++ [x]) = None.
Proof. run_body. reflexivity. Qed.

Lemma flatten_cons (v : vec3) (vs : list vec3) :
  flatten (v :: vs) = vx v :: vy v :: vz v :: flatten vs.
Proof. reflexivity. Qed.

Lemma length_flatten (vs : list vec3) : length (flatten vs) = (3 * length vs)%nat.
Proof.
  induction vs as [| v vs IH]; [reflexivity |].
  rewrite flatten_cons. cbn [length]. rewrite IH. lia.
Qed.

(** The loop over the whole vertices [todo], whatever follows them. *)
Lemma loop_vertices (todo : list vec3) :
  forall (pre tail : list R) (fuel : nat),
    loop (length todo + fuel) (length pre) (pre ++ flatten todo ++ tail)
    = loop fuel (length (pre ++ flatten (map eggVertex todo)))
           ((pre ++ flatten (map eggVertex todo)) ++ tail).
Proof.
  induction todo as [| v rest IH]; intros pre tail fuel.
  - cbn [flatten flat_map map length Nat.add app]. now rewrite app_nil_r.
  - cbn [map length Nat.add]. rewrite !flatten_cons. cbn [loop app].
    assert (Hlt : (length pre
                   <? length (pre ++ vx v :: vy v :: vz v :: flatten rest ++ tail))%nat
                  = true).
    { apply Nat.ltb_lt. rewrite length_app. cbn [length]. lia. }
    rewrite Hlt. destruct v as [x y z]. cbn [vx vy vz].
    rewrite body_vertex. cbn [bind].
    set (w := eggVertex (mk3 x y z)).
    replace (pre ++ vx w :: vy w :: vz w :: flatten rest ++ tail)
      with ((pre ++ [vx w; vy w; vz w]) ++ flatten rest ++ tail)
      by (rewrite <- app_assoc; reflexivity).
    replace (length pre + 3)%nat with (length (pre ++ [vx w; vy w; vz w]))
      by (rewrite length_app; reflexivity).
    rewrite IH. rewrite <- !app_assoc. reflexivity.
Qed.

Lemma loop_done (fuel : nat) (l : list R) : loop fuel (length l) l = Some l.
Proof.
  assert (Hlt : (length l <? length l)%nat = false) by (apply Nat.ltb_ge; lia).
  destruct fuel; cbn [loop]; rewrite Hlt; reflexivity.
Qed.

Lemma transform_vertices (vs : list vec3) :
  transform (flatten vs) = Some (flatten (map eggVertex vs)).
Proof.
  unfold transform. rewrite length_flatten.
  replace (3 * length vs)%nat with (length vs + 2 * length vs)%nat by lia.
  pose proof (loop_vertices vs [] [] (2 * length vs)) as H.
  cbn [app length] in H. rewrite !app_nil_r in H. rewrite H. apply loop_done.
Qed.

(** X19.  The in-place loop of [createGeometry] treats the vertices one by
    one and independently: for an array of whole vertices it ends, keeps the
    length of the array, multiplies every height by 1.5 and scales the two
    horizontal coordinates of a vertex by the taper and bulge factors
    computed from that vertex's height before the stretch. *)
Theorem egg_loop_transforms_each_vertex (vs : list vec3) :
  exists out,
    transform (flatten vs) = Some out /\
    length out = length (flatten vs) /\
    out = flatten (map (fun v =>
            mk3 (vx v * (1 - (vy v + 1) * 0.08) * (1 + (1 - Rabs (vy v)) * 0.06))
                (vy v * 1.5)
                (vz v * (1 - (vy v + 1) * 0.08) * (1 + (1 - Rabs (vy v)) * 0.06)))
            vs).
Proof.
  exists (flatten (map eggVertex vs)).
  split; [apply transform_vertices |]. split; [| reflexivity].
  rewrite !length_flatten, length_map. reflexivity.
Qed.

(** X20.  An array that ends inside a vertex: with a lone first coordinate
    the loop stores NaN (no result in the model); with two coordinates the
    vertices before are transformed as usual, the last height is stretched
    and the last x scaled, and nothing is stored past the end. *)
Theorem egg_loop_on_a_truncated_array (vs : list vec3) (x y : R) :
  transform (flatten vs ++ [x]) = None /\
  transform (flatten vs ++ [x; y])
  = Some (flatten (map eggVertex vs)
          ++ [x * (1 - (y + 1) * 0.08) * (1 + (1 - Rabs y) * 0.06); y * 1.5]).
Proof.
  split.
  - unfold transform. rewrite length_app, length_flatten. cbn [length].
    replace (3 * length vs + 1)%nat with (length vs + S (2 * length vs))%nat by lia.
    pose proof (loop_vertices vs [] [x] (S (2 * length vs))) as H.
    cbn [app length] in H. rewrite H. cbn [loop].
    assert (Hlt : (length (flatten (map eggVertex vs))
                   <? length (flatten (map eggVertex vs) ++ [x]))%nat = true).
    { apply Nat.ltb_lt. rewrite length_app. cbn [length]. lia. }
    rewrite Hlt, body_single. reflexivity.
  - unfold transform. rewrite length_app, length_flatten. cbn [length].
    replace (3 * length vs + 2)%nat with (length vs + S (S (2 * length vs)))%nat by lia.
    pose proof (loop_vertices vs [] [x; y] (S (S (2 * length vs)))) as H.
    cbn [app length] in H. rewrite H. cbn [loop].
    assert (Hlt : (length (flatten (map eggVertex vs))
                   <? length (flatten (map eggVertex vs) ++ [x; y]))%nat = true).
    { apply Nat.ltb_lt. rewrite length_app. cbn [length]. lia. }
    rewrite Hlt, body_pair. cbn [bind].
    set (out := flatten (map eggVertex vs) ++ _).
    assert (Hge : (length (flatten (map eggVertex vs)) + 3 <? length out)%nat = false).
    { apply Nat.ltb_ge. unfold out. rewrite length_app. cbn [length]. lia. }
    rewrite Hge. reflexivity.
Qed.

(** The product [taper * bulge] for a height of the unit sphere. *)
Lemma egg_width_range (y : R) :
  -1 <= y <= 1 -> 0.84 <= (1 - (y + 1) * 0.08) * (1 + (1 - Rabs y) * 0.06) <= 1.
Proof. intros H. minmax_split; nra. Qed.

Lemma Rabs_scaled (x a b : R) :
  0 <= a -> 0 <= b -> Rabs (x * a * b) = Rabs x * (a * b).
Proof.
  intros Ha Hb. rewrite Rmult_assoc, Rabs_mult. f_equal.
  apply Rabs_pos_eq. now apply Rmult_le_pos.
Qed.

(** X21.  For a mesh whose heights lie in [[-1, 1]] (the unit sphere) the
    loop gives a body that is 1.5 times as high and nowhere wider than the
    sphere: each horizontal coordinate keeps between 84 and 100 percent of
    its size, so the "bulge" never pushes a vertex outwards. *)
Theorem egg_is_no_wider_than_the_sphere (vs : list vec3) :
  Forall (fun v => -1 <= vy v <= 1) vs ->
  exists ws,
    transform (flatten vs) = Some (flatten ws) /\
    Forall2 (fun v w =>
               vy w = vy v * 1.5 /\
               0.84 * Rabs (vx v) <= Rabs (vx w) <= Rabs (vx v) /\
               0.84 * Rabs (vz v) <= Rabs (vz w) <= Rabs (vz v)) vs ws.
Proof.
  intros H. exists (map eggVertex vs). split; [apply transform_vertices |].
  induction H as [| v vs Hv _ IH]; [constructor |].
  cbn [map]. constructor; [| exact IH].
  pose proof (egg_width_range (vy v) Hv) as Hw.
  assert (Ht : 0 <= 1 - (vy v + 1) * 0.08) by lra.
  assert (Hb : 0 <= 1 + (1 - Rabs (vy v)) * 0.06) by minmax_solve.
  unfold eggVertex. cbn [vx vy vz]. rewrite !Rabs_scaled by assumption.
  pose proof (Rabs_pos (vx v)). pose proof (Rabs_pos (vz v)).
  set (w := (1 - (vy v + 1) * 0.08) * (1 + (1 - Rabs (vy v)) * 0.06)) in *.
  split; [reflexivity |]. split; split; nra.
Qed.

Lemma egg_is_no_wider_than_the_sphere_witness :
  exists ws,
    transform (flatten [mk3 1 0 0; mk3 0 1 0]) = Some (flatten ws) /\
    Forall2 (fun v w =>
               vy w = vy v * 1.5 /\
               0.84 * Rabs (vx v) <= Rabs (vx w) <= Rabs (vx v) /\
               0.84 * Rabs (vz v) <= Rabs (vz w) <= Rabs (vz v))
            [mk3 1 0 0; mk3 0 1 0] ws.
Proof.
  apply (egg_is_no_wider_than_the_sphere [mk3 1 0 0; mk3 0 1 0]).
  repeat constructor; simpl; lra.
Defined.



End EggBody.

(** ** Where the shaders have no defined output *)

Section Definedness.

(** X23.  In both vertex shaders the position outputs are undefined
    exactly for a vertex whose rest normal is the zero vector, and the
    shading normal is undefined exactly when, in addition or instead, the
    normal matrix sends the normalised normal to zero. *)
Theorem vertex_outputs_need_a_normal
    (t : Transforms) (u : VertexGL.Uniforms) (uj : VertexJS.Uniforms) (vtx : Vertex) :
  let lost := normal vtx = zero3 in
  let flattened :=
    exists n, normalize (normal vtx) = Some n /\ mulm3v (normalMatrix t) n = zero3 in
  (VertexGL.v_position (VertexGL.main t u vtx) = None <-> lost) /\
  (VertexGL.v_worldPosition (VertexGL.main t u vtx) = None <-> lost) /\
  (VertexGL.gl_Position (VertexGL.main t u vtx) = None <-> lost) /\
  (VertexGL.v_normal (VertexGL.main t u vtx) = None <-> lost \/ flattened) /\
  (VertexJS.v_worldPosition (VertexJS.main t uj vtx) = None <-> lost) /\
  (VertexJS.gl_Position (VertexJS.main t uj vtx) = None <-> lost) /\
  (VertexJS.v_normal (VertexJS.main t uj vtx) = None <-> lost \/ flattened).
Proof.
  cbv zeta.
  assert (Hn : forall n, normalize (normal vtx) = Some n -> normal vtx <> zero3).
  { intros n H H0. apply normalize_None in H0. congruence. }
  assert (Hnormal :
            (n <- normalize (normal vtx) ;; normalize (mulm3v (normalMatrix t) n)) = None
            <-> normal vtx = zero3
                \/ exists n, normalize (normal vtx) = Some n
                             /\ mulm3v (normalMatrix t) n = zero3).
  { destruct (normalize (normal vtx)) as [n |] eqn:E; cbn [bind].
    - rewrite normalize_None. split.
      + intros H. right. exists n. split; [reflexivity | exact H].
      + intros [H | [m [Hm H]]]; [exfalso; now apply (Hn n) | congruence].
    - split; [intros _; left; now apply normalize_None | reflexivity]. }
  cbn [VertexGL.main VertexGL.v_position VertexGL.v_worldPosition VertexGL.gl_Position
       VertexGL.v_normal VertexJS.main VertexJS.v_worldPosition VertexJS.gl_Position
       VertexJS.v_normal].
  unfold VertexGL.newPosition, VertexJS.newPosition.
  assert (Hpos : forall (B : Type) (f : vec3 -> B) (g : vec3 -> vec3),
             (p <- (norm <- normalize (normal vtx) ;; Some (g norm)) ;; Some (f p)) = None
             <-> normal vtx = zero3).
  { intros B f g. rewrite <- normalize_None.
    destruct (normalize (normal vtx)); cbn [bind]; split;
      first [discriminate | reflexivity]. }
  split; [| split; [| split; [| split; [| split; [| split]]]]];
    first [ exact Hnormal | apply Hpos | idtac ].
  rewrite <- normalize_None.
  destruct (normalize (normal vtx)); cbn [bind]; split;
    first [discriminate | reflexivity].
Qed.

Lemma vertex_outputs_need_a_normal_witness :
  VertexGL.v_position
    (VertexGL.main noTransform (VertexGL.mkUniforms 0 1 0.25 0.1)
       (mkVertex (mk3 0 1 0) zero3)) = None.
Proof.
  apply (vertex_outputs_need_a_normal noTransform (VertexGL.mkUniforms 0 1 0.25 0.1)
           (VertexJS.mkUniforms 0 0.25) (mkVertex (mk3 0 1 0) zero3)).
  reflexivity.
Defined.







(** X26.  The Fresnel term of the liquid-metal shader grows towards grazing
    angles: of two view directions, the one with the smaller cosine to the
    normal gets the larger (or the same) term, for unit vectors, every
    positive power and every bias up to 1. *)
Theorem fresnel_grows_towards_grazing (viewDir viewDir' normal : vec3) (power bias : R) :
  unit3 normal -> unit3 viewDir -> unit3 viewDir' ->
  0 < power -> bias <= 1 ->
  dot3 normal viewDir <= dot3 normal viewDir' ->
  FragmentGL.fresnel viewDir' normal power bias
  <= FragmentGL.fresnel viewDir normal power bias.
Proof.
  intros _ _ _ Hp Hb Hd. unfold FragmentGL.fresnel. cbv zeta.
  apply clamp_mono.
  assert (Hm : pow (1 - Rmax (dot3 normal viewDir') 0) power
               <= pow (1 - Rmax (dot3 normal viewDir) 0) power).
  { apply pow_le_mono; [lra | minmax_solve]. }
  nra.
Qed.

Lemma fresnel_grows_towards_grazing_witness :
  FragmentGL.fresnel (mk3 0 0 1) (mk3 0 0 1) 3 0.1
  <= FragmentGL.fresnel (mk3 0 1 0) (mk3 0 0 1) 3 0.1.
Proof.
  apply (fresnel_grows_towards_grazing (mk3 0 1 0) (mk3 0 0 1) (mk3 0 0 1) 3 0.1);
    unfold unit3, dot3; simpl; lra.
Defined.

End Definedness.

(** ** The two deformers: bias profiles, rhythm and hand-over to shading *)

Section Profiles.

(** X27.  The two deformers weigh the height in opposite ways.  The bias of
    fragment.glsl never grows with the height: it is [0.5 - 0.3 y] between
    the heights -7/3 and -1/3, 1.2 below and 0.6 above, so on a body of
    heights in [[-1, 1]] it stays in [[0.6, 0.8]] and is the constant 0.6
    from the height -1/3 upwards.  The bias of main.js never decreases with
    the height. *)
Theorem bias_profiles (pos pos' : vec3) :
  vy pos <= vy pos' ->
  VertexGL.verticalBias pos' <= VertexGL.verticalBias pos /\
  VertexJS.vertBias pos <= VertexJS.vertBias pos' /\
  (- 1 / 3 <= vy pos -> VertexGL.verticalBias pos = 0.6) /\
  (vy pos <= - 7 / 3 -> VertexGL.verticalBias pos = 1.2) /\
  (- 7 / 3 <= vy pos <= - 1 / 3 -> VertexGL.verticalBias pos = 0.5 - 0.3 * vy pos) /\
  (-1 <= vy pos <= 1 -> 0.6 <= VertexGL.verticalBias pos <= 0.8).
Proof.
  intros H. unfold VertexGL.verticalBias, VertexJS.vertBias.
  repeat split; intros; minmax_solve.
Qed.

Lemma bias_profiles_witness :
  VertexGL.verticalBias (mk3 0 1 0) <= VertexGL.verticalBias (mk3 0 (-1) 0) /\
  VertexJS.vertBias (mk3 0 (-1) 0) <= VertexJS.vertBias (mk3 0 1 0).
Proof.
  destruct (bias_profiles (mk3 0 (-1) 0) (mk3 0 1 0)) as [H1 [H2 _]].
  - simpl. lra.
  - split; [exact H1 | exact H2].
Defined.

Lemma sin_periods (x : R) (k : nat) (d : R) :
  d = 2 * INR k * PI -> sin (x + d) = sin x.
Proof. intros ->. apply sin_period. Qed.

(** X28.  The three sine terms of the breathing deformer repeat together
    every [25 PI] seconds (about 78.5 s): in that time [breathe] completes
    12 cycles, [pulse] 10 and [sway] 7, at every vertex. *)
Theorem breathing_rhythm_repeats (time amplitude : R) (pos : vec3) :
  let u := VertexJS.mkUniforms time amplitude in
  let u' := VertexJS.mkUniforms (time + 25 * PI) amplitude in
  VertexJS.breathe u' = VertexJS.breathe u /\
  VertexJS.pulse u' pos = VertexJS.pulse u pos /\
  VertexJS.sway u' pos = VertexJS.sway u pos.
Proof.
  cbv zeta. unfold VertexJS.breathe, VertexJS.pulse, VertexJS.sway, VertexJS.slowTime.
  cbn [VertexJS.u_time].
  repeat split; f_equal.
  - rewrite <- (sin_periods (time * 0.08 * 12) 12 (25 * PI * 0.08 * 12)).
    + f_equal. lra.
    + simpl. lra.
  - rewrite <- (sin_periods (time * 0.08 * 10 + vy pos * 2.5) 10 (25 * PI * 0.08 * 10)).
    + f_equal. lra.
    + simpl. lra.
  - rewrite <- (sin_periods (time * 0.08 * 7 + vx pos * 2) 7 (25 * PI * 0.08 * 7)).
    + f_equal. lra.
    + simpl. lra.
Qed.

(** X29.  The two shaders of fragment.glsl fit together: with
    [|u_amplitude| <= 2.4] the displacement the vertex shader hands over is
    at least -20, so for an absorption of at most 2, non-negative lights and
    a positive Fresnel power the colour shaded from a vertex's own outputs
    lies, channel by channel, in [[0, 1]] whenever it is defined. *)
Theorem deformed_vertex_shades_displayable
    (t : Transforms) (u : VertexGL.Uniforms) (vtx : Vertex)
    (fu : FragmentGL.Uniforms) (n p w : vec3) :
  Rabs (VertexGL.u_amplitude u) <= 2.4 ->
  FragmentGL.u_absorption fu <= 2 ->
  nonneg3 (scale3 (FragmentGL.u_keyLightColor fu) (FragmentGL.u_keyLightIntensity fu)) ->
  nonneg3 (scale3 (FragmentGL.u_rimLightColor fu) (FragmentGL.u_rimLightIntensity fu)) ->
  0 < FragmentGL.u_fresnelPower fu ->
  VertexGL.v_normal (VertexGL.main t u vtx) = Some n ->
  VertexGL.v_position (VertexGL.main t u vtx) = Some p ->
  VertexGL.v_worldPosition (VertexGL.main t u vtx) = Some w ->
  let d := VertexGL.v_displacement (VertexGL.main t u vtx) in
  -20 <= d <= 20 /\
  when_defined displayable (FragmentGL.main fu (FragmentGL.mkVaryings n p w d)).
Proof.
  intros Ha Hab Hk Hr Hp _ _ _ d.
  assert (Hd : -20 <= d <= 20).
  { unfold d. cbn [VertexGL.main VertexGL.v_displacement].
    pose proof (displacementGL_uniform u (position vtx)) as H.
    apply Rabs_range. pose proof (Rabs_pos (VertexGL.u_amplitude u)). nra. }
  split; [exact Hd |].
  apply mainGL_displayable. unfold plausibleGL.
  split; [exact Hab |]. split; [exact Hk |]. split; [exact Hr |].
  split; [simpl; lra | exact Hp].
Qed.

Lemma deformed_vertex_shades_displayable_witness :
  let out := VertexGL.main noTransform (VertexGL.mkUniforms 0 1 0.25 0.1) topPole in
  exists n p w,
    VertexGL.v_normal out = Some n /\ VertexGL.v_position out = Some p /\
    VertexGL.v_worldPosition out = Some w /\
    when_defined displayable
      (FragmentGL.main (fst (headOnGL 0.1 0.5 0 1 1))
         (FragmentGL.mkVaryings n p w (VertexGL.v_displacement out))).
Proof.
  cbv zeta.
  assert (Hn : normalize (normal topPole) = Some (mk3 0 1 0))
    by (apply normalize_axis_y; lra).
  assert (Hm : mulm3v (normalMatrix noTransform) (mk3 0 1 0) = mk3 0 1 0)
    by (apply vec3_eq; simpl; ring).
  assert (Hvn : VertexGL.v_normal
                  (VertexGL.main noTransform (VertexGL.mkUniforms 0 1 0.25 0.1) topPole)
                = Some (mk3 0 1 0)).
  { cbn [VertexGL.main VertexGL.v_normal]. rewrite Hn. cbn [bind]. rewrite Hm.
    apply normalize_axis_y. lra. }
  assert (Hvp : exists p,
             VertexGL.v_position
               (VertexGL.main noTransform (VertexGL.mkUniforms 0 1 0.25 0.1) topPole)
             = Some p).
  { cbn [VertexGL.main VertexGL.v_position]. unfold VertexGL.newPosition.
    rewrite Hn. cbn [bind]. eexists. reflexivity. }
  assert (Hvw : exists w,
             VertexGL.v_worldPosition
               (VertexGL.main noTransform (VertexGL.mkUniforms 0 1 0.25 0.1) topPole)
             = Some w).
  { cbn [VertexGL.main VertexGL.v_worldPosition]. unfold VertexGL.newPosition.
    rewrite Hn. cbn [bind]. eexists. reflexivity. }
  destruct Hvp as [p Hp]. destruct Hvw as [w Hw].
  exists (mk3 0 1 0), p, w.
  split; [exact Hvn |]. split; [exact Hp |]. split; [exact Hw |].
  apply (deformed_vertex_shades_displayable noTransform
           (VertexGL.mkUniforms 0 1 0.25 0.1) topPole (fst (headOnGL 0.1 0.5 0 1 1))
           (mk3 0 1 0) p w); try assumption.
  - cbn [VertexGL.u_amplitude]. rewrite Rabs_pos_eq; lra.
  - simpl. lra.
  - unfold nonneg3. simpl. lra.
  - unfold nonneg3. simpl. lra.
  - simpl. lra.
Defined.

End Profiles.
